(** * Peterson locks and the tournament tree of the xv6 assignment

    A shallow embedding of [kernel/peterson.h], [kernel/peterson.c], of
    the user library [user/libtournament.c] and of the two programs
    [user/tournament.c] and [user/ptest.c], with the properties of the
    design document stated over it, and then properties of the code
    beyond that document.

    C [int] values are integers of [Z].  The arithmetic of the embedded
    code stays inside the 32-bit range: the pool code only compares and
    stores, [tournament_create] refuses a count above 16 before it computes
    with it, and the traversals shift by at most [L_levels <= 4].  So no
    wrap-around is written out, except for the conversion of a system
    call's [uint64] result to the [int] that user code receives. *)

From Stdlib Require Import ZArith Lia Bool.
From stdpp Require Import base numbers list strings.

Local Open Scope Z_scope.

(** ** kernel/peterson.h *)

Definition NPETERSONLOCKS : Z := 16.

(** [struct peterson_lock].  The spinlock [lk] is not a field of the record:
    every function below takes and gives back [lk] around its accesses, so a
    function of the table is one uninterrupted section of the slot; the
    statement-level machine of [Module Interleaving] carries the owner of
    [lk] explicitly. *)
Record peterson_lock : Type := mk_peterson_lock {
  name   : string;   (* char *name *)
  active : Z;        (* int active *)
  flag_0 : Z;        (* volatile int flag[0] *)
  flag_1 : Z;        (* volatile int flag[1] *)
  turn   : Z         (* volatile int turn *)
}.

(** [pl->flag[i]], for an index that the callers have checked to be 0 or 1. *)
Definition flag (pl : peterson_lock) (i : Z) : Z :=
  if i =? 0 then flag_0 pl else flag_1 pl.

(** [pl->flag[i] = v] *)
Definition set_flag (pl : peterson_lock) (i v : Z) : peterson_lock :=
  if i =? 0
  then mk_peterson_lock (name pl) (active pl) v (flag_1 pl) (turn pl)
  else mk_peterson_lock (name pl) (active pl) (flag_0 pl) v (turn pl).

(** [pl->turn = v] *)
Definition set_turn (pl : peterson_lock) (v : Z) : peterson_lock :=
  mk_peterson_lock (name pl) (active pl) (flag_0 pl) (flag_1 pl) v.

(** The state every slot has after [peterson_init] and after
    [peterson_free]. *)
Definition unnamed_peterson : peterson_lock :=
  mk_peterson_lock "unnamed_peterson" 0 0 0 0.

(** The state [peterson_alloc] gives to the slot it hands out. *)
Definition fresh_peterson : peterson_lock :=
  mk_peterson_lock "peterson_lock" 1 0 0 0.

#[global] Instance peterson_lock_inhabited : Inhabited peterson_lock :=
  populate unnamed_peterson.

(** ** kernel/peterson.c *)

(** [struct peterson_lock ptable[NPETERSONLOCKS]] *)
Abbreviation ptable := (list peterson_lock).

(** [ptable[i]] and [ptable[i] = pl], for a C index [i]. *)
Definition slot (p : ptable) (i : Z) : peterson_lock := p !!! Z.to_nat i.
Definition set_slot (p : ptable) (i : Z) (pl : peterson_lock) : ptable :=
  <[Z.to_nat i := pl]> p.

(** The table is an array of exactly [NPETERSONLOCKS] entries. *)
Definition ptable_wf (p : ptable) : Prop :=
  Z.of_nat (length p) = NPETERSONLOCKS.

(** [peterson_init]: the loop writes the same contents to every entry. *)
Definition peterson_init : ptable :=
  replicate (Z.to_nat NPETERSONLOCKS) unnamed_peterson.

(** The loop of [peterson_alloc], with [n] iterations left and the loop
    variable at [i]. *)
Fixpoint peterson_alloc_from (n : nat) (i : Z) (p : ptable) : Z * ptable :=
  match n with
  | O => (-1, p)
  | S n' =>
      if active (slot p i) =? 0
      then (i, set_slot p i fresh_peterson)
      else peterson_alloc_from n' (i + 1) p
  end.

(** [static int peterson_alloc(void)] *)
Definition peterson_alloc (p : ptable) : Z * ptable :=
  peterson_alloc_from (Z.to_nat NPETERSONLOCKS) 0 p.

(** [static void peterson_free(int id)]; [None] is the kernel panic. *)
Definition peterson_free (id : Z) (p : ptable) : option ptable :=
  if (id <? 0) || (id >=? NPETERSONLOCKS) || (active (slot p id) =? 0)
  then None
  else Some (set_slot p id unnamed_peterson).

(** A system call returns [uint64]: the conversion of the C [int] that the
    [return] statement is given. *)
Definition to_uint64 (v : Z) : Z := v mod 2 ^ 64.

(** [uint64 sys_peterson_create(void)] *)
Definition sys_peterson_create (p : ptable) : Z * ptable :=
  let '(id, p') := peterson_alloc p in (to_uint64 id, p').

(** The argument check shared by acquire and release:
    [lock_id < 0 || lock_id >= NPETERSONLOCKS || (role != 0 && role != 1)]. *)
Definition bad_lock_or_role (lock_id role : Z) : bool :=
  (lock_id <? 0) || (lock_id >=? NPETERSONLOCKS)
  || (negb (role =? 0) && negb (role =? 1)).

(** [uint64 sys_peterson_release(void)], with its two [argint] values. *)
Definition sys_peterson_release (lock_id role : Z) (p : ptable) : Z * ptable :=
  if bad_lock_or_role lock_id role then (to_uint64 (-1), p)
  else
    let pl := slot p lock_id in
    if active pl =? 0 then (to_uint64 (-1), p)
    else (to_uint64 0, set_slot p lock_id (set_flag pl role 0)).

(** [uint64 sys_peterson_destroy(void)]; [None] is the panic of
    [peterson_free]. *)
Definition sys_peterson_destroy (lock_id : Z) (p : ptable)
  : option (Z * ptable) :=
  if (lock_id <? 0) || (lock_id >=? NPETERSONLOCKS) then Some (to_uint64 (-1), p)
  else
    let pl := slot p lock_id in
    if active pl =? 0 then Some (to_uint64 (-1), p)
    else
      match peterson_free lock_id p with
      | Some p' => Some (to_uint64 0, p')
      | None => None
      end.

(** *** Acquire, with its suspension point *)

(** The wait condition [pl->flag[1 - role] == 1 && pl->turn == (1 - role)]. *)
Definition must_wait (pl : peterson_lock) (role : Z) : bool :=
  (flag pl (1 - role) =? 1) && (turn pl =? 1 - role).

(** One evaluation of the loop head of [sys_peterson_acquire] and of what
    follows it up to the next [yield()] or [return]: [Some v] when the call
    returns [v], [None] when it yields.  Nothing is written here. *)
Definition acquire_check (lock_id role : Z) (p : ptable) : option Z :=
  let pl := slot p lock_id in
  if must_wait pl role then
    if active pl =? 0 then Some (to_uint64 (-1))   (* destroyed while waiting *)
    else None                                      (* release; yield; acquire *)
  else
    if active pl =? 0 then Some (to_uint64 (-1))   (* final check *)
    else Some (to_uint64 0).

(** What the other execution contexts do to the table during the yields of
    one call: one transformation for each [yield()]. *)
Abbreviation yields := (list (ptable -> ptable)).

(** The wait loop.  The call re-checks after every yield; when the yields
    that were supplied run out while it still has to wait, the call has not
    returned ([None]). *)
Fixpoint acquire_spin (env : yields) (lock_id role : Z) (p : ptable)
  : option (Z * ptable * yields) :=
  match acquire_check lock_id role p with
  | Some v => Some (v, p, env)
  | None =>
      match env with
      | [] => None
      | others :: env' => acquire_spin env' lock_id role (others p)
      end
  end.

(** [uint64 sys_peterson_acquire(void)], with its two [argint] values. *)
Definition sys_peterson_acquire (env : yields) (lock_id role : Z) (p : ptable)
  : option (Z * ptable * yields) :=
  if bad_lock_or_role lock_id role then Some (to_uint64 (-1), p, env)
  else
    let pl := slot p lock_id in
    if active pl =? 0 then Some (to_uint64 (-1), p, env)
    else
      let pl1 := set_flag pl role 1 in          (* pl->flag[role] = 1 *)
      let pl2 := set_turn pl1 (1 - role) in     (* pl->turn = 1 - role *)
      acquire_spin env lock_id role (set_slot p lock_id pl2).

(** *** The system calls as user code sees them *)

(** Modelled from the spec: the user-level stubs of the four system calls
    ([user/user.h], [usys]) are not among the sources.  Section 6 of the
    design document gives the calls integer results, and the callers in
    [user/ptest.c] and [user/libtournament.c] store them in an [int] and
    test [< 0]: the stub hands over the low 32 bits of the [uint64] that the
    kernel function returned, read as a signed number. *)
Definition to_int (u : Z) : Z :=
  let w := u mod 2 ^ 32 in if w <? 2 ^ 31 then w else w - 2 ^ 32.

(** [int peterson_create(void)] *)
Definition peterson_create (p : ptable) : Z * ptable :=
  let '(r, p') := sys_peterson_create p in (to_int r, p').

(** [int peterson_release(int lock_id, int role)] *)
Definition peterson_release (lock_id role : Z) (p : ptable) : Z * ptable :=
  let '(r, p') := sys_peterson_release lock_id role p in (to_int r, p').

(** [int peterson_destroy(int lock_id)] *)
Definition peterson_destroy (lock_id : Z) (p : ptable) : option (Z * ptable) :=
  match sys_peterson_destroy lock_id p with
  | Some (r, p') => Some (to_int r, p')
  | None => None
  end.

(** [int peterson_acquire(int lock_id, int role)] *)
Definition peterson_acquire (env : yields) (lock_id role : Z) (p : ptable)
  : option (Z * ptable * yields) :=
  match sys_peterson_acquire env lock_id role p with
  | Some (r, p', env') => Some (to_int r, p', env')
  | None => None
  end.

(** The number of free slots of the table. *)
Definition free_slots (p : ptable) : nat :=
  length (filter (fun pl => active pl = 0) p).

(** ** user/libtournament.c *)

(** What the library asks of the system it runs on: the three Peterson
    system calls it uses, [malloc] and [fork].  [K] is everything outside
    the calling process.  A call of acquire that never returns is [None];
    [malloc] gives the block it allocated, read as an array of [int] with
    whatever contents it has, or [None] for the null pointer; [fork] gives
    the value that this process sees returned. *)
Class Xv6 (K : Type) : Type := {
  call_peterson_create  : K -> Z * K;
  call_peterson_acquire : Z -> Z -> K -> option (Z * K);
  call_peterson_release : Z -> Z -> K -> Z * K;
  call_malloc           : Z -> K -> option (list Z) * K;
  call_fork             : K -> Z * K
}.

(** The static globals of the library. *)
Record tournament : Type := mk_tournament {
  peterson_lock_ids_array : option (list Z);   (* [None] is the null pointer *)
  num_total_locks : Z;
  N_processes : Z;
  L_levels : Z;
  my_id : Z
}.

(** Their initial values. *)
Definition no_tournament : tournament := mk_tournament None 0 0 0 (-1).

(** The lines the library writes to file descriptor 2, one constructor for
    each format string, with the numbers it prints (the pid left out). *)
Inductive diagnostic : Type :=
| create_exceeds_maximum (processes : Z)
| create_not_power_of_2 (processes : Z)
| create_malloc_failed
| create_lock_failed (i : Z)
| create_fork_failed (i : Z)
| acquire_not_initialized
| acquire_invalid_N (n : Z)
| acquire_no_lock_array
| acquire_out_of_bounds (id l idx last : Z)
| acquire_failed (id l lock_id idx role : Z)
| release_not_initialized
| release_invalid_N (n : Z)
| release_no_lock_array
| release_out_of_bounds (id l idx last : Z)
| release_failed (id l lock_id idx role : Z).

(** The [while (temp > 1) { temp >>= 1; log_val++; }] loop.  An [int] has
    32 bits, so 32 iterations are never all used ([log2_loop_fuel]). *)
Fixpoint log2_loop (fuel : nat) (temp log_val : Z) : Z :=
  match fuel with
  | O => log_val
  | S fuel' =>
      if temp >? 1 then log2_loop fuel' (Z.shiftr temp 1) (log_val + 1)
      else log_val
  end.

(** [static int get_log2_if_power_of_2(int n)] *)
Definition get_log2_if_power_of_2 (n : Z) : Z :=
  if n <=? 0 then -1
  else if n =? 1 then 0
  else if negb (Z.land n (n - 1) =? 0) then -1
  else log2_loop 32 n 0.

(** The locals of the two traversal loops, as functions of [L_levels],
    [my_id] and the level [l]. *)
Definition role_at_level (L id l : Z) : Z :=
  let role_bit_position := L - 1 - l in
  Z.land (Z.shiftr id role_bit_position) 1.

Definition array_idx (L id l : Z) : Z :=
  let lock_group_shift := L - l in
  let lock_idx_within_level := Z.shiftr id lock_group_shift in
  let offset_for_level_nodes := Z.shiftl 1 l - 1 in
  lock_idx_within_level + offset_for_level_nodes.

(** [peterson_lock_ids_array[i]]; the array is only read where the bounds
    check has passed. *)
Definition lock_id_at (t : tournament) (i : Z) : Z :=
  default [] (peterson_lock_ids_array t) !!! Z.to_nat i.

Definition is_null (a : option (list Z)) : bool :=
  match a with None => true | Some _ => false end.

Section Library.
Context {K : Type} `{!Xv6 K}.

(** The loop that fills the array, with [n] iterations left and the loop
    variable at [i]; the first component is the index at which
    [peterson_create] failed, if it did. *)
Fixpoint create_locks (n : nat) (i : Z) (a : list Z) (k : K)
  : option Z * list Z * K :=
  match n with
  | O => (None, a, k)
  | S n' =>
      let '(id, k1) := call_peterson_create k in
      let a1 := <[Z.to_nat i := id]> a in
      if (a1 !!! Z.to_nat i) <? 0 then (Some i, a1, k1)
      else create_locks n' (i + 1) a1 k1
  end.

(** The loop that forks the children, with [n] iterations left and the
    loop variable at [i]. *)
Fixpoint fork_children (n : nat) (i : Z) (t : tournament) (k : K)
  : Z * list diagnostic * tournament * K :=
  match n with
  | O => (my_id t, [], t, k)
  | S n' =>
      let '(pid, k1) := call_fork k in
      if pid <? 0 then (-1, [create_fork_failed i], t, k1)
      else if pid =? 0 then
        let t1 := mk_tournament (peterson_lock_ids_array t)
                    (num_total_locks t) (N_processes t) (L_levels t) i in
        (my_id t1, [], t1, k1)
      else fork_children n' (i + 1) t k1
  end.

(** [int tournament_create(int processes)]: the value returned, what was
    written to file descriptor 2, the globals and the outside afterwards. *)
Definition tournament_create (processes : Z) (t : tournament) (k : K)
  : Z * list diagnostic * tournament * K :=
  if processes >? 16 then (-1, [create_exceeds_maximum processes], t, k)
  else
    let temp_L_levels := get_log2_if_power_of_2 processes in
    if temp_L_levels =? -1 then (-1, [create_not_power_of_2 processes], t, k)
    else
      let L := temp_L_levels in
      let N := processes in
      let locks := N - 1 in
      let set a id := mk_tournament a locks N L id in
      if locks >? 0 then
        match call_malloc (locks * 4) k with
        | (None, k1) => (-1, [create_malloc_failed], set None (my_id t), k1)
        | (Some a, k1) =>
            match create_locks (Z.to_nat locks) 0 a k1 with
            | (Some i, a1, k2) =>
                (-1, [create_lock_failed i], set (Some a1) (my_id t), k2)
            | (None, a1, k2) =>
                fork_children (Z.to_nat (N - 1)) 1 (set (Some a1) 0) k2
            end
        end
      else fork_children (Z.to_nat (N - 1)) 1 (set None 0) k.

(** The loop of [tournament_acquire] with [n] levels left: the next level
    is [l = n - 1], the last one is 0. *)
Fixpoint acquire_levels (n : nat) (t : tournament) (k : K)
  : option (Z * list diagnostic * K) :=
  match n with
  | O => Some (0, [], k)
  | S n' =>
      let l := Z.of_nat n' in
      let role := role_at_level (L_levels t) (my_id t) l in
      let idx := array_idx (L_levels t) (my_id t) l in
      if (idx <? 0) || (idx >=? num_total_locks t) then
        Some (-1, [acquire_out_of_bounds (my_id t) l idx
                     (num_total_locks t - 1)], k)
      else
        let lock_id_to_acquire := lock_id_at t idx in
        match call_peterson_acquire lock_id_to_acquire role k with
        | None => None
        | Some (r, k1) =>
            if r <? 0 then
              Some (-1, [acquire_failed (my_id t) l lock_id_to_acquire
                           idx role], k1)
            else acquire_levels n' t k1
        end
  end.

(** [int tournament_acquire(void)] *)
Definition tournament_acquire (t : tournament) (k : K)
  : option (Z * list diagnostic * K) :=
  if my_id t =? -1 then Some (-1, [acquire_not_initialized], k)
  else if N_processes t <=? 0 then
    Some (-1, [acquire_invalid_N (N_processes t)], k)
  else if N_processes t =? 1 then Some (0, [], k)
  else if (num_total_locks t >? 0) && is_null (peterson_lock_ids_array t)
  then Some (-1, [acquire_no_lock_array], k)
  else acquire_levels (Z.to_nat (L_levels t)) t k.

(** The loop of [tournament_release] with [n] levels left, the next one
    being [l]. *)
Fixpoint release_levels (n : nat) (l : Z) (t : tournament) (k : K)
  : Z * list diagnostic * K :=
  match n with
  | O => (0, [], k)
  | S n' =>
      let role := role_at_level (L_levels t) (my_id t) l in
      let idx := array_idx (L_levels t) (my_id t) l in
      if (idx <? 0) || (idx >=? num_total_locks t) then
        (-1, [release_out_of_bounds (my_id t) l idx
                (num_total_locks t - 1)], k)
      else
        let lock_id_to_release := lock_id_at t idx in
        let '(r, k1) := call_peterson_release lock_id_to_release role k in
        if r <? 0 then
          (-1, [release_failed (my_id t) l lock_id_to_release idx role], k1)
        else release_levels n' (l + 1) t k1
  end.

(** [int tournament_release(void)] *)
Definition tournament_release (t : tournament) (k : K)
  : Z * list diagnostic * K :=
  if my_id t =? -1 then (-1, [release_not_initialized], k)
  else if N_processes t <=? 0 then
    (-1, [release_invalid_N (N_processes t)], k)
  else if N_processes t =? 1 then (0, [], k)
  else if (num_total_locks t >? 0) && is_null (peterson_lock_ids_array t)
  then (-1, [release_no_lock_array], k)
  else release_levels (Z.to_nat (L_levels t)) 0 t k.

End Library.

(** ** The library on top of the kernel

    One process of the tournament together with what is outside it: the
    kernel's table, what the other contexts do during the yields of this
    process, the blocks [malloc] is going to return (with their initial
    contents), the values [fork] is going to return to this process, and
    the acquire and release calls the process has made so far. *)
Inductive call : Type :=
| acquire_call (lock_id role : Z)
| release_call (lock_id role : Z).

Record world : Type := mk_world {
  table   : ptable;
  env     : yields;
  mallocs : list (option (list Z));
  forks   : list Z;
  trace   : list call
}.

Definition with_table (w : world) (p : ptable) : world :=
  mk_world p (env w) (mallocs w) (forks w) (trace w).

Definition world_create (w : world) : Z * world :=
  let '(r, p) := peterson_create (table w) in (r, with_table w p).

Definition world_acquire (lock_id role : Z) (w : world) : option (Z * world) :=
  match peterson_acquire (env w) lock_id role (table w) with
  | Some (r, p, env') =>
      Some (r, mk_world p env' (mallocs w) (forks w)
                 (trace w ++ [acquire_call lock_id role]))
  | None => None
  end.

Definition world_release (lock_id role : Z) (w : world) : Z * world :=
  let '(r, p) := peterson_release lock_id role (table w) in
  (r, mk_world p (env w) (mallocs w) (forks w)
        (trace w ++ [release_call lock_id role])).

(** A block of [nbytes] bytes is an array of [nbytes / sizeof(int)] ints. *)
Definition world_malloc (nbytes : Z) (w : world) : option (list Z) * world :=
  match mallocs w with
  | [] => (None, w)
  | b :: rest =>
      (resize (Z.to_nat (nbytes / 4)) 0 <$> b,
       mk_world (table w) (env w) rest (forks w) (trace w))
  end.

Definition world_fork (w : world) : Z * world :=
  match forks w with
  | [] => (-1, w)
  | pid :: rest => (pid, mk_world (table w) (env w) (mallocs w) rest (trace w))
  end.

#[global] Instance world_xv6 : Xv6 world := {
  call_peterson_create := world_create;
  call_peterson_acquire := world_acquire;
  call_peterson_release := world_release;
  call_malloc := world_malloc;
  call_fork := world_fork
}.

(** The world at boot with no other context running, for a process whose
    [malloc] succeeds [m] times and whose [fork] returns [pids]. *)
Definition boot (m : nat) (pids : list Z) : world :=
  mk_world peterson_init [] (replicate m (Some [])) pids [].

(** ** Two contexts on one slot, statement by statement

    Context [role] (0 or 1) runs [acquire(h, role)], its critical section
    and [release(h, role)], again and again, as [user/ptest.c] does; a call
    that fails ends the context.  A step is one statement of
    [sys_peterson_acquire] or [sys_peterson_release]; the spinlock [lk] of
    the slot is part of the state and [acquire(&pl->lk)] can only be
    executed when nobody owns it. *)
Module Interleaving.

Inductive pc : Type :=
| Idle           (* outside the lock, before calling acquire *)
| AcqLock        (* arguments checked; at acquire(&pl->lk) *)
| AcqActive      (* at the first if (!pl->active) *)
| AcqFlag        (* at pl->flag[role] = 1 *)
| AcqTurn        (* at pl->turn = 1 - role *)
| AcqWhile       (* at the condition of the while *)
| AcqDestroyed   (* in the loop, at if (!pl->active) *)
| AcqUnlock      (* in the loop, at release(&pl->lk) *)
| AcqYield       (* in yield(), then at acquire(&pl->lk) *)
| AcqFinal       (* after the loop, at if (!pl->active) *)
| AcqReturn      (* at release(&pl->lk); return 0 *)
| Critical       (* acquire has returned 0 *)
| RelLock        (* release called; at acquire(&pl->lk) *)
| RelActive      (* at if (!pl->active) *)
| RelFlag        (* at pl->flag[role] = 0 *)
| RelUnlock      (* at release(&pl->lk); return 0 *)
| Failed.        (* a call has returned -1 *)

Record state : Type := mk_state {
  tbl : ptable;
  lk_owner : option Z;   (* which context holds the spinlock of the slot *)
  pc_0 : pc;
  pc_1 : pc
}.

Definition pc_of (s : state) (role : Z) : pc :=
  if role =? 0 then pc_0 s else pc_1 s.

Definition goto (role : Z) (l : pc) (s : state) : state :=
  if role =? 0 then mk_state (tbl s) (lk_owner s) l (pc_1 s)
  else mk_state (tbl s) (lk_owner s) (pc_0 s) l.

Definition write (h : Z) (pl : peterson_lock) (s : state) : state :=
  mk_state (set_slot (tbl s) h pl) (lk_owner s) (pc_0 s) (pc_1 s).

(** Modelled from the spec: the spinlock functions of the kernel are not
    among the sources; section 3 of the design document makes [lk] the
    exclusivity guard of the slot.  [acquire(&pl->lk)] goes through only
    when no context owns the spinlock, and then the caller owns it. *)
Definition lock (role : Z) (s : state) : option state :=
  match lk_owner s with
  | None => Some (mk_state (tbl s) (Some role) (pc_0 s) (pc_1 s))
  | Some _ => None
  end.

(** [release(&pl->lk)]: nobody owns the spinlock afterwards. *)
Definition unlock (s : state) : state :=
  mk_state (tbl s) None (pc_0 s) (pc_1 s).

(** The next statement of context [role] on slot [h]; [None] when the
    context cannot move. *)
Definition exec (h role : Z) (s : state) : option state :=
  let pl := slot (tbl s) h in
  match pc_of s role with
  | Idle =>
      Some (goto role (if bad_lock_or_role h role then Failed else AcqLock) s)
  | AcqLock => lock role (goto role AcqActive s)
  | AcqActive =>
      Some (if active pl =? 0 then unlock (goto role Failed s)
            else goto role AcqFlag s)
  | AcqFlag => Some (write h (set_flag pl role 1) (goto role AcqTurn s))
  | AcqTurn => Some (write h (set_turn pl (1 - role)) (goto role AcqWhile s))
  | AcqWhile =>
      Some (goto role (if must_wait pl role then AcqDestroyed else AcqFinal) s)
  | AcqDestroyed =>
      Some (if active pl =? 0 then unlock (goto role Failed s)
            else goto role AcqUnlock s)
  | AcqUnlock => Some (unlock (goto role AcqYield s))
  | AcqYield => lock role (goto role AcqWhile s)
  | AcqFinal =>
      Some (if active pl =? 0 then unlock (goto role Failed s)
            else goto role AcqReturn s)
  | AcqReturn => Some (unlock (goto role Critical s))
  | Critical =>
      Some (goto role (if bad_lock_or_role h role then Failed else RelLock) s)
  | RelLock => lock role (goto role RelActive s)
  | RelActive =>
      Some (if active pl =? 0 then unlock (goto role Failed s)
            else goto role RelFlag s)
  | RelFlag => Some (write h (set_flag pl role 0) (goto role RelUnlock s))
  | RelUnlock => Some (unlock (goto role Idle s))
  | Failed => None
  end.

(** Both contexts outside the lock, nobody in the kernel. *)
Definition initial (p : ptable) : state := mk_state p None Idle Idle.

(** The states some interleaving of the two contexts leads to. *)
Inductive reachable (h : Z) (p : ptable) : state -> Prop :=
| reach_initial : reachable h p (initial p)
| reach_step s s' role :
    reachable h p s -> role = 0 \/ role = 1 -> exec h role s = Some s' ->
    reachable h p s'.

(** The state after the contexts have moved in the order [schedule]
    says; [None] when a context that cannot move is scheduled. *)
Fixpoint run (h : Z) (schedule : list Z) (s : state) : option state :=
  match schedule with
  | [] => Some s
  | role :: rest =>
      if (role =? 0) || (role =? 1) then
        match exec h role s with
        | Some s' => run h rest s'
        | None => None
        end
      else None
  end.

(** A context believes it holds the lock from the return of a successful
    acquire until its release has cleared its flag. *)
Definition holds (l : pc) : bool :=
  match l with
  | Critical | RelLock | RelActive | RelFlag => true
  | _ => false
  end.

(** Classes of control points used by the invariant. *)
Definition owns_lk (l : pc) : bool :=
  match l with
  | AcqActive | AcqFlag | AcqTurn | AcqWhile | AcqDestroyed | AcqUnlock
  | AcqFinal | AcqReturn | RelActive | RelFlag | RelUnlock => true
  | _ => false
  end.

Definition contending (l : pc) : bool :=
  match l with
  | AcqWhile | AcqDestroyed | AcqUnlock | AcqYield => true
  | _ => false
  end.

Definition passed (l : pc) : bool :=
  match l with
  | AcqFinal | AcqReturn => true
  | _ => holds l
  end.

Definition interested (l : pc) : bool :=
  match l with
  | AcqTurn => true
  | _ => contending l || passed l
  end.

(** The inductive invariant, for the contents [pl] of the slot: the
    slot stays active; the spinlock is owned by the context that is
    between its acquire and its release; a context past the write of its
    flag has its flag at 1; once a turn has been written it is 0 or 1; a
    context past the wait loop has the turn while the other one is still
    in the loop; the two contexts are never both past the wait loop. *)
Record inv (pl : peterson_lock) (s : state) : Prop := mk_inv {
  inv_active : active pl <> 0;
  inv_lk_0 : owns_lk (pc_0 s) = true <-> lk_owner s = Some 0;
  inv_lk_1 : owns_lk (pc_1 s) = true <-> lk_owner s = Some 1;
  inv_flag_0 : interested (pc_0 s) = true -> flag pl 0 = 1;
  inv_flag_1 : interested (pc_1 s) = true -> flag pl 1 = 1;
  inv_turn01_0 :
    contending (pc_0 s) || passed (pc_0 s) = true ->
    turn pl = 0 \/ turn pl = 1;
  inv_turn01_1 :
    contending (pc_1 s) || passed (pc_1 s) = true ->
    turn pl = 0 \/ turn pl = 1;
  inv_turn_0 :
    passed (pc_0 s) = true -> contending (pc_1 s) = true -> turn pl = 0;
  inv_turn_1 :
    passed (pc_1 s) = true -> contending (pc_0 s) = true -> turn pl = 1;
  inv_excl : ~ (passed (pc_0 s) = true /\ passed (pc_1 s) = true)
}.

(** Two further invariants, for the table [p] the contexts started from.
    [inv_live]: no context has failed, the spinlock is free or owned by one
    of the two contexts, and nothing but the flags and the turn of slot [h]
    has been written.  [inv_mirror], for a slot whose flags were 0 at the
    start: the flag of a context is 1 exactly between its write
    [pl->flag[role] = 1] in acquire and its write [pl->flag[role] = 0] in
    release, and the turn is 0 or 1. *)
Record inv_live (p : ptable) (h : Z) (s : state) : Prop := mk_inv_live {
  live_0 : pc_0 s <> Failed;
  live_1 : pc_1 s <> Failed;
  live_owner : lk_owner s = None \/ lk_owner s = Some 0 \/ lk_owner s = Some 1;
  live_name : name (slot (tbl s) h) = name (slot p h);
  live_active : active (slot (tbl s) h) = active (slot p h);
  live_frame : forall j, 0 <= j -> j <> h -> slot (tbl s) j = slot p j
}.

Definition mirror (l : pc) : Z := if interested l then 1 else 0.

Record inv_mirror (h : Z) (s : state) : Prop := mk_inv_mirror {
  mirror_0 : flag (slot (tbl s) h) 0 = mirror (pc_0 s);
  mirror_1 : flag (slot (tbl s) h) 1 = mirror (pc_1 s);
  mirror_turn : turn (slot (tbl s) h) = 0 \/ turn (slot (tbl s) h) = 1
}.

End Interleaving.

(** ** user/tournament.c

    The program for one of its processes.  What it writes is kept as a
    list of lines, the diagnostics of the library among them, without the
    pid that [getpid()] puts into a line; [wait] is the system call, a
    function of the outside like those of [Xv6]. *)
Inductive output : Type :=
| usage_line
| range_line
| power_line
| create_failed_line
| acquire_failed_line (id : Z)
| critical_section_line (id : Z)
| release_failed_line (id : Z)
| wait_failed_line (id : Z)
| library_line (d : diagnostic).

Section Main.
Context {K : Type} `{!Xv6 K}.
Variable wait : K -> Z * K.

(** The loop [for (i = 0; i < num_processes - 1; i++) if (wait(0) < 0) ...]
    with [n] iterations left. *)
Fixpoint wait_children (n : nat) (id : Z) (k : K) : list output * K :=
  match n with
  | O => ([], k)
  | S n' =>
      let '(r, k1) := wait k in
      let '(out, k2) := wait_children n' id k1 in
      ((if r <? 0 then [wait_failed_line id] else []) ++ out, k2)
  end.

(** [int main(int argc, char *argv[])], with [num_processes] the value of
    [atoi(argv[1])]: the exit status, the lines written, the globals of the
    library and the outside when the process exits; [None] when
    [tournament_acquire] does not return. *)
Definition tournament_main (argc num_processes : Z) (t : tournament) (k : K)
  : option (Z * list output * tournament * K) :=
  if negb (argc =? 2) then Some (1, [usage_line], t, k)
  else if (num_processes <=? 0) || (num_processes >? 16)
  then Some (1, [range_line], t, k)
  else if negb (num_processes =? 1)
          && negb (Z.land num_processes (num_processes - 1) =? 0)
  then Some (1, [power_line], t, k)
  else
    let '(tournament_id, d1, t1, k1) := tournament_create num_processes t k in
    let out1 := library_line <$> d1 in
    if tournament_id <? 0 then Some (1, out1 ++ [create_failed_line], t1, k1)
    else
      match tournament_acquire t1 k1 with
      | None => None
      | Some (r2, d2, k2) =>
          let out2 := out1 ++ (library_line <$> d2) in
          if r2 <? 0
          then Some (1, out2 ++ [acquire_failed_line tournament_id], t1, k2)
          else
            let out3 := out2 ++ [critical_section_line tournament_id] in
            let '(r3, d3, k3) := tournament_release t1 k2 in
            let out4 := out3 ++ (library_line <$> d3) in
            if r3 <? 0
            then Some (1, out4 ++ [release_failed_line tournament_id], t1, k3)
            else if tournament_id =? 0 then
              let '(out5, k4) :=
                wait_children (Z.to_nat (num_processes - 1)) tournament_id k3
              in Some (0, out4 ++ out5, t1, k4)
            else Some (0, out4, t1, k3)
      end.

End Main.

(** The lines that come with [exit(1)]. *)
Definition is_failure_line (l : output) : bool :=
  match l with
  | usage_line | range_line | power_line | create_failed_line
  | acquire_failed_line _ | release_failed_line _ => true
  | _ => false
  end.

(** ** user/ptest.c: [main]

    The program for one of its two processes, as the system calls it
    makes: the three Peterson calls and [fork] of [Xv6], and
    [peterson_destroy], [wait] and [sleep], functions of the outside as
    well.  The lines it prints, and [getpid()] which only serves them, are
    left out. *)
Inductive syscall : Type :=
| sys_create
| sys_fork
| sys_acquire (lock_id role : Z)
| sys_release (lock_id role : Z)
| sys_destroy (lock_id : Z)
| sys_wait
| sys_sleep (ticks : Z).

Section Ptest.
Context {K : Type} `{!Xv6 K}.
Variable call_peterson_destroy : Z -> K -> Z * K.
Variable wait : K -> Z * K.
Variable sleep : Z -> K -> K.

(** What both failure branches of the loop do before [exit(1)]:
    [if(fork_ret > 0) wait(0); if(role == 0) peterson_destroy(lock_id);] *)
Definition cleanup_calls (fork_ret lock_id role : Z) (k : K)
  : list syscall * K :=
  let '(c1, k1) :=
    if fork_ret >? 0 then ([sys_wait], (wait k).2) else ([], k) in
  let '(c2, k2) :=
    if role =? 0
    then ([sys_destroy lock_id], (call_peterson_destroy lock_id k1).2)
    else ([], k1) in
  (c1 ++ c2, k2).

(** The [for (int i = 0; i < 100; i++)] loop with [n] iterations left:
    [Some status] in the first component when the loop has called [exit],
    [None] when it has run to its end; the whole result is [None] when an
    acquire does not return. *)
Fixpoint ptest_loop (n : nat) (fork_ret lock_id role : Z) (k : K)
  : option (option Z * list syscall * K) :=
  match n with
  | O => Some (None, [], k)
  | S n' =>
      match call_peterson_acquire lock_id role k with
      | None => None
      | Some (r, k1) =>
          if r <? 0 then
            let '(c, k2) := cleanup_calls fork_ret lock_id role k1 in
            Some (Some 1, sys_acquire lock_id role :: c, k2)
          else
            let k2 := sleep 5 k1 in
            let '(r', k3) := call_peterson_release lock_id role k2 in
            if r' <? 0 then
              let '(c, k4) := cleanup_calls fork_ret lock_id role k3 in
              Some (Some 1,
                    [sys_acquire lock_id role; sys_sleep 5;
                     sys_release lock_id role] ++ c, k4)
            else
              let k4 := sleep 1 k3 in
              match ptest_loop n' fork_ret lock_id role k4 with
              | None => None
              | Some (status, c, k5) =>
                  Some (status,
                        [sys_acquire lock_id role; sys_sleep 5;
                         sys_release lock_id role; sys_sleep 1] ++ c, k5)
              end
      end
  end.

(** [int main(void)]: the exit status, the calls made and the outside when
    the process exits. *)
Definition ptest_main (k : K) : option (Z * list syscall * K) :=
  let '(lock_id, k1) := call_peterson_create k in
  if lock_id <? 0 then Some (1, [sys_create], k1)
  else
    let '(fork_ret, k2) := call_fork k1 in
    if fork_ret <? 0 then
      let '(_, k3) := call_peterson_destroy lock_id k2 in
      Some (1, [sys_create; sys_fork; sys_destroy lock_id], k3)
    else
      let role := if fork_ret >? 0 then 0 else 1 in
      match ptest_loop 100 fork_ret lock_id role k2 with
      | None => None
      | Some (Some status, c, k3) =>
          Some (status, [sys_create; sys_fork] ++ c, k3)
      | Some (None, c, k3) =>
          if fork_ret >? 0 then
            let '(_, k4) := wait k3 in
            let '(r, k5) := call_peterson_destroy lock_id k4 in
            if r <? 0 then
              Some (1, [sys_create; sys_fork] ++ c
                       ++ [sys_wait; sys_destroy lock_id], k5)
            else
              Some (0, [sys_create; sys_fork] ++ c
                       ++ [sys_wait; sys_destroy lock_id], k5)
          else Some (0, [sys_create; sys_fork] ++ c, k3)
      end.

End Ptest.

(** The calls of one iteration of the loop that goes through. *)
Definition round (lock_id role : Z) : list syscall :=
  [sys_acquire lock_id role; sys_sleep 5; sys_release lock_id role;
   sys_sleep 1].

Definition in_round (lock_id role : Z) (c : syscall) : Prop :=
  c ∈ round lock_id role.

(** ** Definitions used by the statements *)

(** [n] calls of [peterson_create] in a row: the values returned, in order,
    and the table afterwards. *)
Fixpoint create_in_sequence (n : nat) (p : ptable) : list Z * ptable :=
  match n with
  | O => ([], p)
  | S n' =>
      let '(r, p1) := peterson_create p in
      let '(rs, p2) := create_in_sequence n' p1 in
      (r :: rs, p2)
  end.

(** *** Acquire as the design document words it (section 4.2)

    The error kinds of the document, and acquire written after its text:
    validate the role and the handle, refuse an inactive slot, set
    [interest[role]], set [turn], then re-check the condition
    "[interest[1-role]] is true AND [turn == 1-role]" with a yield between
    the checks, giving up at any check that sees the slot inactive, and
    checking once more that the slot is active before returning [Ok]. *)
Inductive error_kind : Type :=
| InvalidArgument
| LockInactive
| LockDestroyedWhileWaiting.

Inductive outcome : Type :=
| Ok
| Error (e : error_kind).

(** How an outcome reaches the caller. *)
Definition int_of_outcome (o : outcome) : Z :=
  match o with Ok => 0 | Error _ => -1 end.

Definition interest (pl : peterson_lock) (role : Z) : bool :=
  flag pl role =? 1.

Fixpoint spec_wait (env : yields) (h role : Z) (p : ptable)
  : option (outcome * ptable * yields) :=
  if active (slot p h) =? 0 then Some (Error LockDestroyedWhileWaiting, p, env)
  else if interest (slot p h) (1 - role) && (turn (slot p h) =? 1 - role) then
    match env with
    | [] => None
    | others :: env' => spec_wait env' h role (others p)
    end
  else Some (Ok, p, env).

Definition spec_acquire (env : yields) (h role : Z) (p : ptable)
  : option (outcome * ptable * yields) :=
  if negb ((role =? 0) || (role =? 1)) || negb ((0 <=? h) && (h <? 16))
  then Some (Error InvalidArgument, p, env)
  else if active (slot p h) =? 0 then Some (Error LockInactive, p, env)
  else
    let with_interest := set_flag (slot p h) role 1 in
    let with_turn := set_turn with_interest (1 - role) in
    spec_wait env h role (set_slot p h with_turn).

(** The outcome as the user-level call reports it. *)
Definition reported (r : option (outcome * ptable * yields))
  : option (Z * ptable * yields) :=
  match r with
  | Some (o, p, env) => Some (int_of_outcome o, p, env)
  | None => None
  end.

(** *** The traversal as the design document words it (section 4.3) *)

Definition is_power_of_two (n : Z) : Prop := exists k, 0 <= k /\ n = 2 ^ k.

(** "[role = bit (L-1-l) of self_id]" *)
Definition spec_role (L self_id l : Z) : Z :=
  Z.b2z (Z.testbit self_id (L - 1 - l)).

(** "[group = self_id >> (L-l)]; [array_index = group + (2^l - 1)]" *)
Definition spec_array_index (L self_id l : Z) : Z :=
  let group := Z.shiftr self_id (L - l) in group + (2 ^ l - 1).

(** The levels [n-1], ..., 1, 0 (leaf level to root level) and the levels
    [l], [l+1], ..., [l+n-1]. *)
Fixpoint levels_down (n : nat) : list Z :=
  match n with
  | O => []
  | S n' => Z.of_nat n' :: levels_down n'
  end.

Fixpoint levels_up (n : nat) (l : Z) : list Z :=
  match n with
  | O => []
  | S n' => l :: levels_up n' (l + 1)
  end.

(** The (array index, role) pair of each level of a list of levels. *)
Definition spec_path (L self_id : Z) (levels : list Z) : list (Z * Z) :=
  (fun l => (spec_array_index L self_id l, spec_role L self_id l)) <$> levels.

(** A tournament as [tournament_create] leaves it in a participant:
    [N] a power of two from 2 to 16, [L = log2 N], [N - 1] lock ids and an
    id below [N]. *)
Record valid_tournament (t : tournament) : Prop := mk_valid_tournament {
  valid_levels : 1 <= L_levels t <= 4;
  valid_count : N_processes t = 2 ^ L_levels t;
  valid_locks : num_total_locks t = N_processes t - 1;
  valid_array : exists ids, peterson_lock_ids_array t = Some ids
                  /\ Z.of_nat (length ids) = N_processes t - 1;
  valid_id : 0 <= my_id t < N_processes t
}.

Definition is_out_of_bounds (d : diagnostic) : bool :=
  match d with
  | acquire_out_of_bounds _ _ _ _ | release_out_of_bounds _ _ _ _ => true
  | _ => false
  end.

Section Calls.
Context {K : Type} `{!Xv6 K}.

(** "Call [PetersonLock.acquire(lock_ids[array_index], role)]" for each
    pair in turn; "the first failure aborts the traversal".  The boolean
    tells whether every call succeeded. *)
Fixpoint acquire_along (t : tournament) (path : list (Z * Z)) (k : K)
  : option (bool * K) :=
  match path with
  | [] => Some (true, k)
  | (array_index, role) :: rest =>
      match call_peterson_acquire (lock_id_at t array_index) role k with
      | None => None
      | Some (r, k1) =>
          if r <? 0 then Some (false, k1) else acquire_along t rest k1
      end
  end.

Fixpoint release_along (t : tournament) (path : list (Z * Z)) (k : K)
  : bool * K :=
  match path with
  | [] => (true, k)
  | (array_index, role) :: rest =>
      let '(r, k1) := call_peterson_release (lock_id_at t array_index) role k in
      if r <? 0 then (false, k1) else release_along t rest k1
  end.

(** The result of [tournament_acquire] for a traversal that went as
    [along] says. *)
Definition acquire_agrees (res : option (Z * list diagnostic * K))
    (along : option (bool * K)) : Prop :=
  match along with
  | None => res = None
  | Some (true, k') => res = Some (0, [], k')
  | Some (false, k') =>
      exists d, res = Some (-1, [d], k') /\ is_out_of_bounds d = false
  end.

Definition release_agrees (res : Z * list diagnostic * K)
    (along : bool * K) : Prop :=
  match along with
  | (true, k') => res = (0, [], k')
  | (false, k') =>
      exists d, res = (-1, [d], k') /\ is_out_of_bounds d = false
  end.

End Calls.

(** *** Participants of a tournament on a machine that has just booted *)

(** What [fork] returns to participant [id] of [n] inside
    [tournament_create]: the pids of the children forked before it and, for
    a child, 0 from the fork that made it. *)
Definition fork_results (n id : Z) : list Z :=
  if id =? 0 then seqZ 1 (n - 1) else seqZ 1 (id - 1) ++ [0].

(** Participant [id] of [n] after [tournament_create(n)]. *)
Definition participant (n id : Z) : tournament * world :=
  let '(_, _, t, w) :=
    tournament_create n no_tournament (boot 1 (fork_results n id)) in
  (t, w).

(** The calls participant [id] makes in [tournament_acquire], alone on the
    machine, and those it then makes in [tournament_release]. *)
Definition acquire_trace (n id : Z) : list call :=
  let '(t, w) := participant n id in
  match tournament_acquire t w with
  | Some (_, _, w') => trace w'
  | None => []
  end.

Definition release_trace (n id : Z) : list call :=
  let '(t, w) := participant n id in
  match tournament_acquire t w with
  | Some (_, _, w') =>
      let '(_, _, w'') :=
        tournament_release t
          (mk_world (table w') (env w') (mallocs w') (forks w') []) in
      trace w''
  | None => []
  end.

(** The (index, role) pair of a call, for a tournament whose lock ids are
    their own positions in the array. *)
Definition pair_of_call (c : call) : Z * Z :=
  match c with
  | acquire_call i r | release_call i r => (i, r)
  end.

(** The locks a call of [tournament_create] takes from the pool. *)
Definition locks_allocated (n : Z) (t : tournament) (w : world) : Z :=
  let '(_, _, _, w') := tournament_create n t w in
  Z.of_nat (free_slots (table w)) - Z.of_nat (free_slots (table w')).

(** A machine on which [m] locks have been created since boot, for a
    process whose next [malloc] succeeds and whose [fork] returns [pids]. *)
Definition boot_with_locks (m : nat) (pids : list Z) : world :=
  mk_world (snd (create_in_sequence m peterson_init)) [] [Some []] pids [].

(** *** The table between and during the calls *)

(** The table after a call of another context, as a transformation that
    can be put among the [yields] of a waiting acquire.  The panic of
    [peterson_free], which [sys_peterson_destroy] does not reach, leaves
    the table as it is. *)
Definition after_create (p : ptable) : ptable := snd (sys_peterson_create p).

Definition after_release (h role : Z) (p : ptable) : ptable :=
  snd (sys_peterson_release h role p).

Definition after_destroy (h : Z) (p : ptable) : ptable :=
  match sys_peterson_destroy h p with
  | Some (_, p') => p'
  | None => p
  end.

(** The table after the yields [used], taken in turn. *)
Fixpoint after_yields (used : yields) (q : ptable) : ptable :=
  match used with
  | [] => q
  | others :: rest => after_yields rest (others q)
  end.

(** The table when [sys_peterson_acquire] reaches its loop: it has written
    [pl->flag[role] = 1] and [pl->turn = 1 - role]. *)
Definition entered (h role : Z) (p : ptable) : ptable :=
  set_slot p h (set_turn (set_flag (slot p h) role 1) (1 - role)).

(** What a slot adds to the count of free slots. *)
Definition free_mark (pl : peterson_lock) : nat :=
  if decide (active pl = 0) then 1%nat else 0%nat.

(** An active slot with both flags at 0, and two slots that differ at most
    in their turn. *)
Definition at_rest (pl : peterson_lock) : Prop :=
  active pl <> 0 /\ flag pl 0 = 0 /\ flag pl 1 = 0.

Definition same_but_turn (pl pl' : peterson_lock) : Prop :=
  name pl' = name pl /\ active pl' = active pl
  /\ flag pl' 0 = flag pl 0 /\ flag pl' 1 = flag pl 1.

(** *** A tournament and its locks *)

(** The handle behind a pair (array index, role) of a path. *)
Definition handle_of (t : tournament) (c : Z * Z) : Z := lock_id_at t c.1.

(** The handles and the table that the [N - 1] calls of [peterson_create]
    in [tournament_create(n)] give on the table [p], and the globals of
    participant [id] afterwards. *)
Definition lock_ids_of (n : Z) (p : ptable) : list Z :=
  fst (create_in_sequence (Z.to_nat (n - 1)) p).

Definition table_of (n : Z) (p : ptable) : ptable :=
  snd (create_in_sequence (Z.to_nat (n - 1)) p).

Definition participant_state (n id : Z) (p : ptable) : tournament :=
  mk_tournament (Some (lock_ids_of n p)) (n - 1) n
    (get_log2_if_power_of_2 n) id.

(** *** Tables, states and calls used as examples *)

(** Slot 0 allocated; slot 0 held by role 1 while role 0 is outside. *)
Definition one_lock : ptable := set_slot peterson_init 0 fresh_peterson.

Definition held_by_1 : ptable :=
  set_slot peterson_init 0 (mk_peterson_lock "peterson_lock" 1 0 1 0).

(** Context 0 in its critical section, context 1 in the wait loop. *)
Definition one_in_one_waiting : Interleaving.state :=
  Interleaving.mk_state
    (set_slot peterson_init 0 (mk_peterson_lock "peterson_lock" 1 1 1 0))
    None Interleaving.Critical Interleaving.AcqYield.


(** [peterson_destroy] on the table of a world.  The panic of
    [peterson_free] is not reached from [sys_peterson_destroy], which has
    checked the handle and the [active] field before; that case leaves the
    world as it is. *)
Definition world_destroy (lock_id : Z) (w : world) : Z * world :=
  match peterson_destroy lock_id (table w) with
  | Some (r, p) => (r, with_table w p)
  | None => (-1, w)
  end.

(** *** The failures of the design document (section 7)

    The conditions under which the document has an operation fail.
    [NoFreeSlots]: every slot of the pool is active.  [InvalidHandle]: the
    handle is outside the pool.  [InvalidArgument]: that, or a role other
    than 0 and 1.  [LockInactive], [AlreadyInactive]: the slot is not
    active; seen in the table that acquire hands back it is
    [LockDestroyedWhileWaiting].  [InvalidParticipantCount]: a count that
    is at most 0, above 16 or no power of two. *)
Definition no_free_slots (p : ptable) : Prop :=
  forall j, 0 <= j < NPETERSONLOCKS -> active (slot p j) <> 0.

Definition invalid_handle (h : Z) : Prop := ~ 0 <= h < NPETERSONLOCKS.

Definition invalid_argument (h role : Z) : Prop :=
  invalid_handle h \/ ~ (role = 0 \/ role = 1).

Definition lock_inactive (p : ptable) (h : Z) : Prop := active (slot p h) = 0.

Definition invalid_participant_count (n : Z) : Prop :=
  n <= 0 \/ n > 16 \/ ~ is_power_of_two n.

(** The allocation of the lock array fails in a world whose next [malloc]
    gives no block. *)
Definition malloc_fails (w : world) : bool :=
  match mallocs w with
  | Some _ :: _ => false
  | _ => true
  end.

(** [SpawnFailure]: of the [m] forks that [tournament_create] is about to
    make, one fails before a fork has told the process that it is a child;
    [pids] are the values the forks return, and a fork with no value left
    fails. *)
Fixpoint spawn_fails (m : nat) (pids : list Z) : bool :=
  match m, pids with
  | O, _ => false
  | S _, [] => true
  | S m', pid :: rest =>
      if pid <? 0 then true
      else if pid =? 0 then false
      else spawn_fails m' rest
  end.

(** Globals on which the traversals refuse to start: no id, no
    participants, or more than one participant and locks but no array. *)
Definition not_initialised (t : tournament) : Prop :=
  my_id t = -1 \/ N_processes t <= 0
  \/ (N_processes t <> 1 /\ 0 < num_total_locks t
      /\ peterson_lock_ids_array t = None).

(** The values that [n] calls of [wait] in a row return, and the outside
    afterwards. *)
Fixpoint wait_results {K : Type} (wait : K -> Z * K) (n : nat) (k : K)
  : list Z * K :=
  match n with
  | O => ([], k)
  | S n' =>
      let '(r, k1) := wait k in
      let '(rs, k2) := wait_results wait n' k1 in
      (r :: rs, k2)
  end.

(** * Properties *)

(** ** Integers and the table *)

Lemma to_int_to_uint64 v : - 2 ^ 31 <= v < 2 ^ 31 -> to_int (to_uint64 v) = v.
Proof.
  intros Hv. unfold to_int, to_uint64.
  assert (Hlow : (v mod 2 ^ 64) mod 2 ^ 32 = v mod 2 ^ 32).
  { apply Z.mod_mod_divide. exists (2 ^ 32). reflexivity. }
  rewrite Hlow. destruct (Z.le_gt_cases 0 v) as [Hpos|Hneg].
  - rewrite Z.mod_small by lia.
    destruct (Z.ltb_spec v (2 ^ 31)); lia.
  - assert (Hm : v mod 2 ^ 32 = v + 2 ^ 32).
    { symmetry. apply (Z.mod_unique v (2 ^ 32) (-1)); lia. }
    rewrite Hm. destruct (Z.ltb_spec (v + 2 ^ 32) (2 ^ 31)); lia.
Qed.

Lemma to_int_minus_one : to_int (to_uint64 (-1)) = -1.
Proof. reflexivity. Qed.

Lemma to_int_zero : to_int (to_uint64 0) = 0.
Proof. reflexivity. Qed.

Lemma slot_set_slot_eq (p : ptable) i pl :
  0 <= i < Z.of_nat (length p) -> slot (set_slot p i pl) i = pl.
Proof.
  intros Hi. unfold slot, set_slot.
  apply list_lookup_total_insert_eq. lia.
Qed.

Lemma slot_set_slot_ne (p : ptable) i j pl :
  0 <= i -> 0 <= j -> i <> j -> slot (set_slot p i pl) j = slot p j.
Proof.
  intros Hi Hj Hne. unfold slot, set_slot.
  apply list_lookup_total_insert_ne. lia.
Qed.

Lemma set_slot_length (p : ptable) i pl :
  length (set_slot p i pl) = length p.
Proof. apply length_insert. Qed.

Lemma set_slot_set_slot (p : ptable) i pl pl' :
  set_slot (set_slot p i pl) i pl' = set_slot p i pl'.
Proof. apply list_insert_insert_eq. Qed.

Lemma set_slot_wf (p : ptable) i pl : ptable_wf p -> ptable_wf (set_slot p i pl).
Proof. unfold ptable_wf, set_slot. by rewrite length_insert. Qed.

Lemma peterson_init_wf : ptable_wf peterson_init.
Proof. reflexivity. Qed.

Lemma slot_peterson_init i : slot peterson_init i = unnamed_peterson.
Proof.
  unfold slot, peterson_init.
  destruct (decide (Z.to_nat i < Z.to_nat NPETERSONLOCKS)%nat) as [Hlt|Hge].
  - by apply lookup_total_replicate_2.
  - rewrite list_lookup_total_alt.
    by rewrite (proj1 (lookup_replicate_None _ _ _)) by lia.
Qed.

Create HintDb pool.
#[local] Hint Resolve set_slot_wf peterson_init_wf : pool.

(** ** The pool: allocation *)

Lemma peterson_alloc_from_spec n i (p : ptable) :
  0 <= i ->
  match peterson_alloc_from n i p with
  | (r, p') =>
      (i <= r < i + Z.of_nat n /\ active (slot p r) = 0
       /\ (forall j, i <= j < r -> active (slot p j) <> 0)
       /\ p' = set_slot p r fresh_peterson)
      \/ (r = -1 /\ p' = p
          /\ forall j, i <= j < i + Z.of_nat n -> active (slot p j) <> 0)
  end.
Proof.
  revert i. induction n as [|n IH]; intros i Hi; simpl.
  - right. split; [done|]. split; [done|]. intros; lia.
  - destruct (Z.eqb_spec (active (slot p i)) 0) as [Hfree|Hbusy].
    + left. split; [lia|]. split; [done|]. split; [intros; lia|done].
    + specialize (IH (i + 1) ltac:(lia)).
      destruct (peterson_alloc_from n (i + 1) p) as [r p'].
      destruct IH as [(Hr & Hfree & Hbefore & ->)|(-> & -> & Hall)].
      * left. split; [lia|]. split; [done|]. split; [|done].
        intros j Hj. destruct (decide (j = i)) as [->|]; [done|].
        apply Hbefore; lia.
      * right. split; [done|]. split; [done|].
        intros j Hj. destruct (decide (j = i)) as [->|]; [done|].
        apply Hall; lia.
Qed.

Lemma peterson_create_spec (p : ptable) :
  match peterson_create p with
  | (r, p') =>
      (0 <= r < NPETERSONLOCKS /\ active (slot p r) = 0
       /\ (forall j, 0 <= j < r -> active (slot p j) <> 0)
       /\ p' = set_slot p r fresh_peterson)
      \/ (r = -1 /\ p' = p
          /\ forall j, 0 <= j < NPETERSONLOCKS -> active (slot p j) <> 0)
  end.
Proof.
  unfold peterson_create, sys_peterson_create, peterson_alloc.
  pose proof (peterson_alloc_from_spec (Z.to_nat NPETERSONLOCKS) 0 p
                ltac:(lia)) as H.
  destruct (peterson_alloc_from _ 0 p) as [r p'].
  change (Z.of_nat (Z.to_nat NPETERSONLOCKS)) with NPETERSONLOCKS in H.
  destruct H as [(Hr & H)|(-> & H)].
  - left. rewrite to_int_to_uint64 by (unfold NPETERSONLOCKS in Hr; lia).
    split; [lia|done].
  - right. by rewrite to_int_minus_one.
Qed.

(** C5.  The pool has 16 slots.  A create that succeeds returns the index of
    the first slot that was inactive, leaves that slot active with both
    flags and the turn at 0 and every other slot as it was; a create
    returns -1 exactly when all 16 slots are active, and then the table is
    not changed.  On the table at boot, 17 creates in a row return
    0, 1, ..., 15 and then -1. *)
Theorem pool_allocation_and_exhaustion (p p' : ptable) (r : Z)
  (Hwf : ptable_wf p) (Hcreate : peterson_create p = (r, p')) :
  NPETERSONLOCKS = 16 /\ ptable_wf peterson_init /\ ptable_wf p' /\
  (r <> -1 ->
     0 <= r < NPETERSONLOCKS /\ active (slot p r) = 0
     /\ (forall j, 0 <= j < r -> active (slot p j) <> 0)
     /\ active (slot p' r) = 1
     /\ flag (slot p' r) 0 = 0 /\ flag (slot p' r) 1 = 0
     /\ turn (slot p' r) = 0
     /\ (forall j, 0 <= j < NPETERSONLOCKS -> j <> r -> slot p' j = slot p j))
  /\ (r = -1 <-> forall j, 0 <= j < NPETERSONLOCKS -> active (slot p j) <> 0)
  /\ (r = -1 -> p' = p)
  /\ fst (create_in_sequence 17 peterson_init)
     = [0; 1; 2; 3; 4; 5; 6; 7; 8; 9; 10; 11; 12; 13; 14; 15; -1].
Proof.
  pose proof (peterson_create_spec p) as H. rewrite Hcreate in H.
  split; [done|]. split; [apply peterson_init_wf|].
  destruct H as [(Hr & Hfree & Hbefore & ->)|(-> & -> & Hall)].
  - assert (Hin : 0 <= r < Z.of_nat (length p)) by (rewrite Hwf; done).
    split; [auto with pool|]. split; [|split; [|split]].
    + intros _. rewrite slot_set_slot_eq by done.
      repeat (split; [done|]).
      intros j Hj Hne. apply slot_set_slot_ne; lia.
    + split; [lia|]. intros Hall. by destruct (Hall r Hr).
    + lia.
    + by vm_compute.
  - split; [done|]. split; [done|]. split; [done|]. split; [done|].
    by vm_compute.
Qed.

Lemma pool_allocation_and_exhaustion_witness :
  active (slot (set_slot peterson_init 0 fresh_peterson) 0) = 1
  /\ (0 = -1 <->
      forall j, 0 <= j < NPETERSONLOCKS -> active (slot peterson_init j) <> 0).
Proof.
  destruct (pool_allocation_and_exhaustion peterson_init
              (set_slot peterson_init 0 fresh_peterson) 0
              peterson_init_wf eq_refl)
    as (_ & _ & _ & Hslot & Hfull & _).
  split; [|exact Hfull].
  destruct (Hslot ltac:(discriminate)) as (_ & _ & _ & Hactive & _).
  exact Hactive.
Defined.

(** ** The pool: destruction *)

(** C6.  Destroy rejects a handle outside [0,16) and an inactive slot with
    -1 and the table as it was; on an active slot it returns 0 and leaves
    the slot inactive with both flags and the turn at 0, the values an
    allocation resets them to, and every other slot as it was.  The panic
    of [peterson_free] is never reached. *)
Theorem destroy_semantics (p : ptable) (h : Z) (Hwf : ptable_wf p) :
  (~ 0 <= h < NPETERSONLOCKS -> peterson_destroy h p = Some (-1, p))
  /\ (0 <= h < NPETERSONLOCKS -> active (slot p h) = 0 ->
      peterson_destroy h p = Some (-1, p))
  /\ (0 <= h < NPETERSONLOCKS -> active (slot p h) <> 0 ->
      exists p', peterson_destroy h p = Some (0, p') /\ ptable_wf p'
        /\ active (slot p' h) = 0
        /\ flag (slot p' h) 0 = 0 /\ flag (slot p' h) 1 = 0
        /\ turn (slot p' h) = 0
        /\ flag (slot p' h) 0 = flag fresh_peterson 0
        /\ flag (slot p' h) 1 = flag fresh_peterson 1
        /\ turn (slot p' h) = turn fresh_peterson
        /\ (forall j, 0 <= j < NPETERSONLOCKS -> j <> h ->
            slot p' j = slot p j)).
Proof.
  unfold peterson_destroy, sys_peterson_destroy, peterson_free.
  split; [|split].
  - intros Hout.
    destruct (Z.ltb_spec h 0); [done|].
    destruct (Z.geb_spec h NPETERSONLOCKS); [done|lia].
  - intros Hin Hfree.
    destruct (Z.ltb_spec h 0); [lia|].
    destruct (Z.geb_spec h NPETERSONLOCKS); [lia|]. simpl.
    by rewrite Hfree.
  - intros Hin Hbusy.
    destruct (Z.ltb_spec h 0); [lia|].
    destruct (Z.geb_spec h NPETERSONLOCKS); [lia|]. simpl.
    destruct (Z.eqb_spec (active (slot p h)) 0); [done|].
    exists (set_slot p h unnamed_peterson).
    split; [done|]. split; [auto with pool|].
    rewrite slot_set_slot_eq by (rewrite Hwf; done).
    repeat (split; [done|]).
    intros j Hj Hne. apply slot_set_slot_ne; lia.
Qed.

Lemma destroy_semantics_witness :
  exists p', peterson_destroy 0 (set_slot peterson_init 0 fresh_peterson)
             = Some (0, p')
    /\ active (slot p' 0) = 0.
Proof.
  destruct (destroy_semantics (set_slot peterson_init 0 fresh_peterson) 0
              ltac:(reflexivity))
    as (_ & _ & Hactive).
  destruct (Hactive ltac:(unfold NPETERSONLOCKS; lia) ltac:(discriminate))
    as (p' & Hrun & _ & Hfree & _).
  exists p'. split; [exact Hrun|exact Hfree].
Defined.

(** ** Release *)

Lemma bad_lock_or_role_false h role :
  bad_lock_or_role h role = false <->
  0 <= h < NPETERSONLOCKS /\ (role = 0 \/ role = 1).
Proof.
  unfold bad_lock_or_role.
  destruct (Z.ltb_spec h 0), (Z.geb_spec h NPETERSONLOCKS),
    (Z.eqb_spec role 0), (Z.eqb_spec role 1); simpl;
    split; try done; try lia; intros [Hh [Hr|Hr]]; lia.
Qed.

Lemma bad_lock_or_role_true h role :
  bad_lock_or_role h role = true <->
  ~ (0 <= h < NPETERSONLOCKS /\ (role = 0 \/ role = 1)).
Proof.
  rewrite <- bad_lock_or_role_false. by destruct (bad_lock_or_role h role).
Qed.

Lemma flag_set_flag_eq pl role v :
  flag (set_flag pl role v) role = v.
Proof. unfold flag, set_flag. by destruct (role =? 0). Qed.

Lemma flag_set_flag_other pl role v :
  role = 0 \/ role = 1 ->
  flag (set_flag pl role v) (1 - role) = flag pl (1 - role).
Proof. unfold flag, set_flag. by intros [->| ->]. Qed.

Lemma set_flag_frame pl role v :
  name (set_flag pl role v) = name pl
  /\ active (set_flag pl role v) = active pl
  /\ turn (set_flag pl role v) = turn pl.
Proof. unfold set_flag. by destruct (role =? 0). Qed.

(** C8.  On an active slot with a valid handle and role, release returns 0
    having cleared the flag of the role and nothing else: the turn, the
    other role's flag, the active mark and the other slots are as before.
    On an invalid role, a handle out of range or an inactive slot it
    returns -1 and the table is as before.  Release is a function of the
    table alone: it has no suspension point. *)
Theorem release_frame (p : ptable) (h role : Z) (Hwf : ptable_wf p) :
  (0 <= h < NPETERSONLOCKS -> role = 0 \/ role = 1 ->
   active (slot p h) <> 0 ->
   exists p', peterson_release h role p = (0, p') /\ ptable_wf p'
     /\ flag (slot p' h) role = 0
     /\ flag (slot p' h) (1 - role) = flag (slot p h) (1 - role)
     /\ turn (slot p' h) = turn (slot p h)
     /\ active (slot p' h) = active (slot p h)
     /\ name (slot p' h) = name (slot p h)
     /\ (forall j, 0 <= j < NPETERSONLOCKS -> j <> h -> slot p' j = slot p j))
  /\ (~ (0 <= h < NPETERSONLOCKS /\ (role = 0 \/ role = 1))
      \/ active (slot p h) = 0 ->
      peterson_release h role p = (-1, p)).
Proof.
  unfold peterson_release, sys_peterson_release. split.
  - intros Hh Hrole Hbusy.
    rewrite (proj2 (bad_lock_or_role_false h role)) by done.
    destruct (Z.eqb_spec (active (slot p h)) 0); [done|].
    eexists. split; [reflexivity|]. split; [auto with pool|].
    rewrite slot_set_slot_eq by (rewrite Hwf; done).
    pose proof (set_flag_frame (slot p h) role 0) as (Hn & Ha & Ht).
    split; [apply flag_set_flag_eq|].
    split; [by apply flag_set_flag_other|].
    repeat (split; [done|]).
    intros j Hj Hne. apply slot_set_slot_ne; lia.
  - intros [Hbad|Hfree].
    + by rewrite (proj2 (bad_lock_or_role_true h role)).
    + destruct (bad_lock_or_role h role); [done|]. by rewrite Hfree.
Qed.

Lemma release_frame_witness :
  exists p', peterson_release 0 1
               (set_slot peterson_init 0
                  (mk_peterson_lock "peterson_lock" 1 1 1 0))
             = (0, p')
    /\ flag (slot p' 0) 1 = 0 /\ flag (slot p' 0) 0 = 1.
Proof.
  destruct (release_frame
              (set_slot peterson_init 0
                 (mk_peterson_lock "peterson_lock" 1 1 1 0)) 0 1
              ltac:(reflexivity))
    as (Hok & _).
  destruct (Hok ltac:(unfold NPETERSONLOCKS; lia) ltac:(by right)
              ltac:(discriminate))
    as (p' & Hrun & _ & Hmine & Hother & _).
  exists p'. split; [exact Hrun|]. split; [exact Hmine|exact Hother].
Defined.

(** ** Acquire *)

Lemma acquire_check_inactive h role (q : ptable) :
  active (slot q h) = 0 -> acquire_check h role q = Some (to_uint64 (-1)).
Proof.
  intros Hq. unfold acquire_check. rewrite Hq. simpl.
  by destruct (must_wait (slot q h) role).
Qed.

Lemma acquire_check_wait h role (q : ptable) :
  active (slot q h) <> 0 -> must_wait (slot q h) role = true ->
  acquire_check h role q = None.
Proof.
  intros Hq Hw. unfold acquire_check. rewrite Hw.
  by destruct (Z.eqb_spec (active (slot q h)) 0).
Qed.

Lemma acquire_check_enter h role (q : ptable) :
  active (slot q h) <> 0 -> must_wait (slot q h) role = false ->
  acquire_check h role q = Some (to_uint64 0).
Proof.
  intros Hq Hw. unfold acquire_check. rewrite Hw.
  by destruct (Z.eqb_spec (active (slot q h)) 0).
Qed.

Lemma acquire_spin_unfold env h role (q : ptable) :
  acquire_spin env h role q =
  match acquire_check h role q with
  | Some v => Some (v, q, env)
  | None =>
      match env with
      | [] => None
      | others :: env' => acquire_spin env' h role (others q)
      end
  end.
Proof. by destruct env. Qed.

(** The wait loop of the code against the wait loop of the document. *)
Lemma acquire_spin_refines env h role (q : ptable) :
  match acquire_spin env h role q with
  | Some (r, q', env') => Some (to_int r, q', env')
  | None => None
  end = reported (spec_wait env h role q).
Proof.
  revert q. induction env as [|others env IH]; intros q; simpl;
    unfold acquire_check, must_wait, interest;
    destruct (active (slot q h) =? 0),
      ((flag (slot q h) (1 - role) =? 1) && (turn (slot q h) =? 1 - role));
    simpl; try done.
Qed.

(** The user-level acquire against the acquire of the document. *)
Lemma peterson_acquire_refines env h role (p : ptable) :
  peterson_acquire env h role p = reported (spec_acquire env h role p).
Proof.
  unfold peterson_acquire, sys_peterson_acquire, spec_acquire,
    bad_lock_or_role.
  change NPETERSONLOCKS with 16.
  destruct (Z.eqb_spec role 0), (Z.eqb_spec role 1),
    (Z.ltb_spec h 0), (Z.geb_spec h 16), (Z.leb_spec 0 h),
    (Z.ltb_spec h 16); simpl; try done; try lia;
    (destruct (active (slot p h) =? 0); [done|];
     apply acquire_spin_refines).
Qed.

Lemma set_turn_frame pl v :
  name (set_turn pl v) = name pl /\ active (set_turn pl v) = active pl
  /\ (forall i, flag (set_turn pl v) i = flag pl i)
  /\ turn (set_turn pl v) = v.
Proof. done. Qed.

(** C2.  Acquire with a bad role or handle, or on an inactive slot, returns
    -1 and changes nothing.  Otherwise it sets the flag of the role, then
    the turn to the other role, and checks: a check that sees the slot
    inactive returns -1, a check that sees the slot active and the wait
    condition true yields and checks again, a check that sees the slot
    active and the condition false returns 0.  As the user sees it, the
    call is the acquire of the design document with every error kind
    reported as -1. *)
Theorem acquire_protocol (env : yields) (h role : Z) (p : ptable)
  (Hwf : ptable_wf p) :
  (~ (0 <= h < NPETERSONLOCKS /\ (role = 0 \/ role = 1)) ->
   sys_peterson_acquire env h role p = Some (to_uint64 (-1), p, env))
  /\ (active (slot p h) = 0 ->
      sys_peterson_acquire env h role p = Some (to_uint64 (-1), p, env))
  /\ (0 <= h < NPETERSONLOCKS -> role = 0 \/ role = 1 ->
      active (slot p h) <> 0 ->
      exists p1,
        sys_peterson_acquire env h role p = acquire_spin env h role p1
        /\ p1 = set_slot p h (set_turn (set_flag (slot p h) role 1) (1 - role))
        /\ ptable_wf p1
        /\ flag (slot p1 h) role = 1 /\ turn (slot p1 h) = 1 - role
        /\ flag (slot p1 h) (1 - role) = flag (slot p h) (1 - role)
        /\ active (slot p1 h) = active (slot p h)
        /\ (forall j, 0 <= j < NPETERSONLOCKS -> j <> h ->
            slot p1 j = slot p j))
  /\ (forall (q : ptable) (others : ptable -> ptable) (rest : yields),
        (active (slot q h) = 0 ->
         acquire_spin rest h role q = Some (to_uint64 (-1), q, rest))
        /\ (active (slot q h) <> 0 -> must_wait (slot q h) role = true ->
            acquire_spin (others :: rest) h role q
            = acquire_spin rest h role (others q))
        /\ (active (slot q h) <> 0 -> must_wait (slot q h) role = true ->
            acquire_spin [] h role q = None)
        /\ (active (slot q h) <> 0 -> must_wait (slot q h) role = false ->
            acquire_spin rest h role q = Some (to_uint64 0, q, rest)))
  /\ peterson_acquire env h role p = reported (spec_acquire env h role p).
Proof.
  split; [|split; [|split; [|split]]].
  - intros Hbad. unfold sys_peterson_acquire.
    by rewrite (proj2 (bad_lock_or_role_true h role)).
  - intros Hfree. unfold sys_peterson_acquire.
    destruct (bad_lock_or_role h role); [done|]. by rewrite Hfree.
  - intros Hh Hrole Hbusy. unfold sys_peterson_acquire.
    rewrite (proj2 (bad_lock_or_role_false h role)) by done.
    destruct (Z.eqb_spec (active (slot p h)) 0); [done|].
    eexists. split; [reflexivity|]. split; [reflexivity|].
    split; [auto with pool|].
    rewrite slot_set_slot_eq by (rewrite Hwf; done).
    pose proof (set_flag_frame (slot p h) role 1) as (Hn & Ha & Ht).
    split; [apply flag_set_flag_eq|]. split; [done|].
    split; [by apply flag_set_flag_other|]. split; [done|].
    intros j Hj Hne. apply slot_set_slot_ne; lia.
  - intros q others rest. split; [|split; [|split]].
    + intros Hq. rewrite acquire_spin_unfold.
      by rewrite acquire_check_inactive.
    + intros Hq Hw. rewrite acquire_spin_unfold.
      by rewrite acquire_check_wait.
    + intros Hq Hw. rewrite acquire_spin_unfold.
      by rewrite acquire_check_wait.
    + intros Hq Hw. rewrite acquire_spin_unfold.
      by rewrite acquire_check_enter.
  - apply peterson_acquire_refines.
Qed.

Lemma acquire_protocol_witness :
  exists p1,
    sys_peterson_acquire [] 0 1 (set_slot peterson_init 0 fresh_peterson)
    = acquire_spin [] 0 1 p1
    /\ flag (slot p1 0) 1 = 1 /\ turn (slot p1 0) = 0.
Proof.
  destruct (acquire_protocol [] 0 1 (set_slot peterson_init 0 fresh_peterson)
              ltac:(reflexivity))
    as (_ & _ & Hok & _).
  destruct (Hok ltac:(unfold NPETERSONLOCKS; lia) ltac:(by right)
              ltac:(discriminate))
    as (p1 & Hrun & _ & _ & Hflag & Hturn & _).
  exists p1. split; [exact Hrun|]. split; [exact Hflag|exact Hturn].
Defined.

(** ** The tournament tree: the traversal *)

Lemma role_at_level_spec L id l :
  0 <= L - 1 - l -> role_at_level L id l = spec_role L id l.
Proof.
  intros Hpos. unfold role_at_level, spec_role.
  rewrite <- (Z.add_0_l (L - 1 - l)) at 2.
  rewrite <- Z.shiftr_spec by lia.
  rewrite Z.bit0_mod. change 1 with (Z.ones 1). by rewrite Z.land_ones.
Qed.

Lemma array_idx_spec L id l :
  0 <= l -> array_idx L id l = spec_array_index L id l.
Proof.
  intros Hl. unfold array_idx, spec_array_index.
  by rewrite Z.shiftl_1_l.
Qed.

Lemma spec_array_index_bounds L id l :
  0 <= l < L -> 0 <= id < 2 ^ L ->
  0 <= spec_array_index L id l <= 2 ^ L - 2.
Proof.
  intros Hl Hid. unfold spec_array_index.
  rewrite Z.shiftr_div_pow2 by lia.
  assert (Hsplit : 2 ^ L = 2 ^ (L - l) * 2 ^ l).
  { rewrite <- Z.pow_add_r by lia. f_equal. lia. }
  assert (Hpos : 0 < 2 ^ (L - l)) by (apply Z.pow_pos_nonneg; lia).
  assert (Hgroup : 0 <= id / 2 ^ (L - l) < 2 ^ l).
  { split; [apply Z.div_pos; lia|].
    apply Z.div_lt_upper_bound; lia. }
  assert (Hnext : 2 ^ (l + 1) <= 2 ^ L) by (apply Z.pow_le_mono_r; lia).
  rewrite Z.pow_add_r in Hnext by lia. lia.
Qed.

Lemma array_idx_in_bounds t l :
  valid_tournament t -> 0 <= l < L_levels t ->
  0 <= array_idx (L_levels t) (my_id t) l <= N_processes t - 2
  /\ (array_idx (L_levels t) (my_id t) l <? 0)
     || (array_idx (L_levels t) (my_id t) l >=? num_total_locks t) = false.
Proof.
  intros [HL HN Hlocks _ Hid] Hl.
  rewrite array_idx_spec by lia.
  pose proof (spec_array_index_bounds (L_levels t) (my_id t) l Hl
                ltac:(lia)) as Hb.
  split; [lia|].
  destruct (Z.ltb_spec (spec_array_index (L_levels t) (my_id t) l) 0);
    [lia|].
  destruct (Z.geb_spec (spec_array_index (L_levels t) (my_id t) l)
              (num_total_locks t)); [lia|done].
Qed.

Section Traversal.
Context {K : Type} `{!Xv6 K}.

Lemma acquire_levels_along t (n : nat) k :
  valid_tournament t -> Z.of_nat n <= L_levels t ->
  acquire_agrees (acquire_levels n t k)
    (acquire_along t (spec_path (L_levels t) (my_id t) (levels_down n)) k).
Proof.
  intros Hvalid. revert k. induction n as [|n IH]; intros k Hn.
  - done.
  - cbn [acquire_levels levels_down spec_path fmap list_fmap acquire_along].
    destruct (array_idx_in_bounds t (Z.of_nat n) Hvalid ltac:(lia))
      as [_ ->].
    rewrite array_idx_spec, role_at_level_spec by lia.
    destruct (call_peterson_acquire _ _ k) as [[r k1]|]; [|done].
    destruct (r <? 0).
    + eexists. by split.
    + apply IH. lia.
Qed.

Lemma release_levels_along t (n : nat) l k :
  valid_tournament t -> 0 <= l -> l + Z.of_nat n <= L_levels t ->
  release_agrees (release_levels n l t k)
    (release_along t (spec_path (L_levels t) (my_id t) (levels_up n l)) k).
Proof.
  intros Hvalid. revert l k. induction n as [|n IH]; intros l k Hl Hn.
  - done.
  - cbn [release_levels levels_up spec_path fmap list_fmap release_along].
    destruct (array_idx_in_bounds t l Hvalid ltac:(lia)) as [_ ->].
    rewrite array_idx_spec, role_at_level_spec by lia.
    destruct (call_peterson_release _ _ k) as [r k1].
    destruct (r <? 0).
    + eexists. by split.
    + apply IH; lia.
Qed.

Lemma tournament_acquire_levels t k :
  valid_tournament t ->
  tournament_acquire t k = acquire_levels (Z.to_nat (L_levels t)) t k.
Proof.
  intros [HL HN Hlocks (ids & Hids & _) Hid]. unfold tournament_acquire.
  assert (Hlow : 2 ^ 1 <= 2 ^ L_levels t) by (apply Z.pow_le_mono_r; lia).
  destruct (Z.eqb_spec (my_id t) (-1)); [lia|].
  destruct (Z.leb_spec (N_processes t) 0); [lia|].
  destruct (Z.eqb_spec (N_processes t) 1); [lia|].
  by rewrite Hids, andb_false_r.
Qed.

Lemma tournament_release_levels t k :
  valid_tournament t ->
  tournament_release t k = release_levels (Z.to_nat (L_levels t)) 0 t k.
Proof.
  intros [HL HN Hlocks (ids & Hids & _) Hid]. unfold tournament_release.
  assert (Hlow : 2 ^ 1 <= 2 ^ L_levels t) by (apply Z.pow_le_mono_r; lia).
  destruct (Z.eqb_spec (my_id t) (-1)); [lia|].
  destruct (Z.leb_spec (N_processes t) 0); [lia|].
  destruct (Z.eqb_spec (N_processes t) 1); [lia|].
  by rewrite Hids, andb_false_r.
Qed.

End Traversal.

(** Participant 3 of a tournament of 4 on a machine that has just booted. *)
Lemma participant_4_3_valid : valid_tournament (fst (participant 4 3)).
Proof.
  split; try (vm_compute; intuition congruence).
  exists [0; 1; 2]. by vm_compute.
Qed.

(** C3.  In a tournament of [N = 2^L] participants, [2 <= N <= 16],
    [tournament_acquire] goes through the levels [L-1], ..., 0 in this
    order and at level [l] calls acquire on
    [lock_ids[(self_id >> (L-l)) + (2^l - 1)]] with role
    bit [L-1-l] of [self_id], stopping at the first call that fails;
    whatever the system calls do. *)
Theorem tree_acquire_traversal {K : Type} `{!Xv6 K} (t : tournament) (k : K)
  (Hvalid : valid_tournament t) :
  levels_down (Z.to_nat (L_levels t)) = rev (seqZ 0 (L_levels t))
  /\ acquire_agrees (tournament_acquire t k)
       (acquire_along t
          ((fun l => (Z.shiftr (my_id t) (L_levels t - l) + (2 ^ l - 1),
                      Z.b2z (Z.testbit (my_id t) (L_levels t - 1 - l))))
             <$> levels_down (Z.to_nat (L_levels t))) k).
Proof.
  split.
  - destruct Hvalid as [HL _ _ _ _].
    rewrite <- (Z2Nat.id (L_levels t)) at 2 by lia.
    induction (Z.to_nat (L_levels t)) as [|n IH]; [done|].
    rewrite seqZ_S, rev_app_distr. simpl. by rewrite IH.
  - rewrite tournament_acquire_levels by done.
    apply (acquire_levels_along t (Z.to_nat (L_levels t)) k Hvalid).
    destruct Hvalid as [HL _ _ _ _]. lia.
Qed.

Lemma tree_acquire_traversal_witness :
  acquire_agrees
    (tournament_acquire (fst (participant 4 3)) (snd (participant 4 3)))
    (acquire_along (fst (participant 4 3)) [(2, 1); (0, 1)]
       (snd (participant 4 3))).
Proof.
  exact (proj2 (tree_acquire_traversal (fst (participant 4 3))
                  (snd (participant 4 3)) participant_4_3_valid)).
Defined.

Lemma levels_up_snoc (n : nat) l :
  levels_up (S n) l = levels_up n l ++ [l + Z.of_nat n].
Proof.
  revert l. induction n as [|n IH]; intros l.
  - simpl. by rewrite Z.add_0_r.
  - change (levels_up (S (S n)) l) with (l :: levels_up (S n) (l + 1)).
    rewrite IH. simpl. do 3 f_equal. lia.
Qed.

Lemma fmap_rev {A B : Type} (f : A -> B) (l : list A) :
  f <$> rev l = rev (f <$> l).
Proof.
  induction l as [|x l IH]; [done|]. simpl. by rewrite fmap_app, IH.
Qed.

Lemma levels_up_down (n : nat) : levels_up n 0 = rev (levels_down n).
Proof.
  induction n as [|n IH]; [done|].
  rewrite levels_up_snoc, IH. by simpl.
Qed.

(** The release traversal: the pairs of the acquire traversal, in the
    reverse order, whatever the system calls do. *)
Lemma tree_release_traversal {K : Type} `{!Xv6 K} (t : tournament) (k : K) :
  valid_tournament t ->
  release_agrees (tournament_release t k)
    (release_along t
       (rev (spec_path (L_levels t) (my_id t)
               (levels_down (Z.to_nat (L_levels t))))) k).
Proof.
  intros Hvalid. rewrite tournament_release_levels by done.
  unfold spec_path. rewrite <- fmap_rev, <- levels_up_down.
  apply (release_levels_along t (Z.to_nat (L_levels t)) 0 k Hvalid); [lia|].
  destruct Hvalid as [HL _ _ _ _]. lia.
Qed.

(** C9.  In a tournament of [N = 2^L] participants, [2 <= N <= 16], the
    array index computed at every level [l] of [0, L) lies in [0, N-2],
    inside the array of [N-1] lock ids; so neither [tournament_acquire] nor
    [tournament_release] ever takes its out-of-bounds branch, whatever the
    system calls do. *)
Theorem traversal_index_bounds {K : Type} `{!Xv6 K} (t : tournament)
  (Hvalid : valid_tournament t) :
  (forall l, 0 <= l < L_levels t ->
     array_idx (L_levels t) (my_id t) l
     = Z.shiftr (my_id t) (L_levels t - l) + (2 ^ l - 1)
     /\ 0 <= array_idx (L_levels t) (my_id t) l <= N_processes t - 2
     /\ array_idx (L_levels t) (my_id t) l < num_total_locks t)
  /\ (forall (k k' : K) r d,
       tournament_acquire t k = Some (r, d, k') ->
       forall x, x ∈ d -> is_out_of_bounds x = false)
  /\ (forall (k k' : K) r d,
       tournament_release t k = (r, d, k') ->
       forall x, x ∈ d -> is_out_of_bounds x = false).
Proof.
  split; [|split].
  - intros l Hl.
    destruct (array_idx_in_bounds t l Hvalid Hl) as [Hb _].
    split; [by apply array_idx_spec; lia|].
    destruct Hvalid as [_ _ Hlocks _ _]. lia.
  - intros k k' r d Hrun x Hx.
    assert (HL : Z.of_nat (Z.to_nat (L_levels t)) <= L_levels t)
      by (destruct Hvalid; lia).
    pose proof (acquire_levels_along t (Z.to_nat (L_levels t)) k Hvalid HL)
      as H.
    rewrite <- tournament_acquire_levels, Hrun in H by done.
    destruct (acquire_along _ _ k) as [[[] k1]|]; simpl in H.
    + simplify_eq. by apply elem_of_nil in Hx.
    + destruct H as (d0 & Heq & Hd0).
      simplify_eq. by apply list_elem_of_singleton in Hx as ->.
    + done.
  - intros k k' r d Hrun x Hx.
    assert (HL : 0 + Z.of_nat (Z.to_nat (L_levels t)) <= L_levels t)
      by (destruct Hvalid; lia).
    pose proof (release_levels_along t (Z.to_nat (L_levels t)) 0 k Hvalid
                  ltac:(lia) HL) as H.
    rewrite <- tournament_release_levels, Hrun in H by done.
    destruct (release_along _ _ k) as [[] k1]; simpl in H.
    + simplify_eq. by apply elem_of_nil in Hx.
    + destruct H as (d0 & Heq & Hd0).
      simplify_eq. by apply list_elem_of_singleton in Hx as ->.
Qed.

Lemma traversal_index_bounds_witness :
  0 <= array_idx 2 3 1 <= 4 - 2.
Proof.
  exact (proj1 (proj2 (proj1 (traversal_index_bounds
           (fst (participant 4 3)) participant_4_3_valid) 1
           ltac:(vm_compute; intuition congruence)))).
Defined.

(** C4 as stated: participant 0 of a tournament of 4 would call acquire on
    array index 0 first and on array index 1 next.  It calls them in the
    other order. *)
Lemma tree_n4_claimed_acquire_order_fails :
  ~ (pair_of_call <$> acquire_trace 4 0 = [(0, 0); (1, 0)]).
Proof. vm_compute. discriminate. Qed.

(** C4, amended.  In a tournament of 4 created on a machine that has just
    booted the lock ids are their own array indices.  Participant 0
    acquires (index 1, role 0) and then (index 0, role 0); participant 3
    acquires (index 2, role 1) and then (index 0, role 1): leaf first, root
    last, as the document's loop and formulas give for [L = 2].  The
    releases are made in the reverse order, for each of the four
    participants. *)
Theorem tree_n4_traversal :
  peterson_lock_ids_array (fst (participant 4 0)) = Some [0; 1; 2]
  /\ peterson_lock_ids_array (fst (participant 4 3)) = Some [0; 1; 2]
  /\ L_levels (fst (participant 4 0)) = 2
  /\ pair_of_call <$> acquire_trace 4 0 = [(1, 0); (0, 0)]
  /\ pair_of_call <$> acquire_trace 4 3 = [(2, 1); (0, 1)]
  /\ acquire_trace 4 0 = [acquire_call 1 0; acquire_call 0 0]
  /\ acquire_trace 4 3 = [acquire_call 2 1; acquire_call 0 1]
  /\ release_trace 4 0 = [release_call 0 0; release_call 1 0]
  /\ release_trace 4 3 = [release_call 0 1; release_call 2 1]
  /\ spec_path 2 0 (levels_down 2) = [(1, 0); (0, 0)]
  /\ spec_path 2 3 (levels_down 2) = [(2, 1); (0, 1)]
  /\ (forall id, 0 <= id < 4 ->
      my_id (fst (participant 4 id)) = id
      /\ pair_of_call <$> release_trace 4 id
         = rev (pair_of_call <$> acquire_trace 4 id)).
Proof.
  repeat (split; [by vm_compute|]).
  intros id Hid.
  assert (Hcases : id = 0 \/ id = 1 \/ id = 2 \/ id = 3) by lia.
  destruct Hcases as [->|[->|[->| ->]]]; by vm_compute.
Qed.

(** ** The tournament tree: creation *)

Lemma log2_loop_fuel (fuel : nat) temp v :
  0 <= temp < 2 ^ Z.of_nat fuel ->
  log2_loop fuel temp v = v + Z.log2 temp.
Proof.
  revert temp v. induction fuel as [|fuel IH]; intros temp v Htemp.
  - simpl. assert (temp = 0) as -> by (simpl in Htemp; lia). simpl. lia.
  - cbn [log2_loop]. destruct (Z.gtb_spec temp 1) as [Hbig|Hsmall].
    + rewrite IH.
      * rewrite Z.log2_shiftr by lia.
        assert (0 < Z.log2 temp) by (apply Z.log2_pos; lia). lia.
      * rewrite Z.shiftr_div_pow2 by lia.
        rewrite Nat2Z.inj_succ, Z.pow_succ_r in Htemp by lia.
        split; [apply Z.div_pos; lia|].
        apply Z.div_lt_upper_bound; lia.
    + assert (temp = 0 \/ temp = 1) as [->| ->] by lia; simpl; lia.
Qed.

(** [get_log2_if_power_of_2] on the powers of two an [int] can hold. *)
Lemma get_log2_power k :
  0 <= k <= 30 -> get_log2_if_power_of_2 (2 ^ k) = k.
Proof.
  intros Hk. unfold get_log2_if_power_of_2.
  assert (Hpos : 0 < 2 ^ k) by (apply Z.pow_pos_nonneg; lia).
  destruct (Z.leb_spec (2 ^ k) 0); [lia|].
  destruct (Z.eqb_spec (2 ^ k) 1) as [Hone|Hmore].
  - destruct (decide (k = 0)) as [->|]; [done|].
    assert (2 ^ 1 <= 2 ^ k) by (apply Z.pow_le_mono_r; lia). lia.
  - assert (Hland : Z.land (2 ^ k) (2 ^ k - 1) = 0).
    { rewrite Z.sub_1_r, <- Z.ones_equiv, Z.land_ones by lia.
      apply Z.mod_same. lia. }
    rewrite Hland. change (negb (0 =? 0)) with false. cbv iota.
    rewrite (log2_loop_fuel 32).
    + rewrite Z.log2_pow2; lia.
    + split; [lia|]. apply Z.pow_lt_mono_r; lia.
Qed.

(** The bit test [(n & (n - 1)) != 0] of [get_log2_if_power_of_2]. *)
Lemma land_even_odd a b : Z.land (2 * a) (2 * b + 1) = 2 * Z.land a b.
Proof.
  apply Z.bits_inj'. intros i Hi. rewrite Z.land_spec.
  destruct (decide (i = 0)) as [->|Hne].
  - by rewrite !Z.testbit_even_0.
  - replace i with (Z.succ (i - 1)) by lia.
    rewrite !Z.testbit_even_succ, Z.testbit_odd_succ, Z.land_spec by lia.
    done.
Qed.

Lemma land_odd_even a b : Z.land (2 * a + 1) (2 * b) = 2 * Z.land a b.
Proof. by rewrite Z.land_comm, land_even_odd, Z.land_comm. Qed.

Lemma land_pred_zero (p : positive) :
  Z.land (Z.pos p) (Z.pos p - 1) = 0 -> is_power_of_two (Z.pos p).
Proof.
  induction p as [q IH|q IH|]; intros Hland.
  - exfalso. rewrite Pos2Z.inj_xI in Hland.
    replace (2 * Z.pos q + 1 - 1) with (2 * Z.pos q) in Hland by lia.
    rewrite land_odd_even, Z.land_diag in Hland. lia.
  - rewrite Pos2Z.inj_xO in Hland.
    replace (2 * Z.pos q - 1) with (2 * (Z.pos q - 1) + 1) in Hland by lia.
    rewrite land_even_odd in Hland.
    destruct IH as (k & Hk & Hq); [lia|].
    exists (k + 1). split; [lia|].
    rewrite Pos2Z.inj_xO, Hq, Z.pow_add_r by lia. lia.
  - by exists 0.
Qed.

Lemma get_log2_if_power_of_2_int n :
  - 2 ^ 31 <= n < 2 ^ 31 ->
  (is_power_of_two n ->
   0 <= get_log2_if_power_of_2 n <= 30 /\ n = 2 ^ get_log2_if_power_of_2 n)
  /\ (~ is_power_of_two n -> get_log2_if_power_of_2 n = -1).
Proof.
  intros Hn. split.
  - intros (k & Hk & ->).
    assert (k <= 30).
    { destruct (Z.le_gt_cases k 30) as [|Hbig]; [done|].
      assert (2 ^ 31 <= 2 ^ k) by (apply Z.pow_le_mono_r; lia). lia. }
    rewrite get_log2_power by lia. split; [lia|done].
  - intros Hnot. unfold get_log2_if_power_of_2.
    destruct (Z.leb_spec n 0); [done|].
    destruct (Z.eqb_spec n 1) as [->|]; [destruct Hnot; by exists 0|].
    destruct (Z.eqb_spec (Z.land n (n - 1)) 0) as [Hland|]; [|done].
    destruct Hnot. destruct n as [|p|p]; [lia| |lia].
    by apply land_pred_zero.
Qed.

Lemma power_of_two_upto_16 n :
  n <= 16 ->
  is_power_of_two n <-> n = 1 \/ n = 2 \/ n = 4 \/ n = 8 \/ n = 16.
Proof.
  intros Hn. split.
  - intros (k & Hk & ->).
    assert (k < 5).
    { destruct (Z.lt_ge_cases k 5) as [|Hge]; [done|].
      assert (2 ^ 5 <= 2 ^ k) by (apply Z.pow_le_mono_r; lia). lia. }
    assert (Hcases : k = 0 \/ k = 1 \/ k = 2 \/ k = 3 \/ k = 4) by lia.
    destruct Hcases as [->|[->|[->|[->| ->]]]]; simpl; lia.
  - intros [->|[->|[->|[->| ->]]]];
      [exists 0|exists 1|exists 2|exists 3|exists 4]; by split.
Qed.

Lemma get_log2_upto_16 n :
  n <= 16 ->
  (n <= 0 \/ ~ is_power_of_two n -> get_log2_if_power_of_2 n = -1)
  /\ (is_power_of_two n ->
      1 <= n /\ 0 <= get_log2_if_power_of_2 n <= 4
      /\ n = 2 ^ get_log2_if_power_of_2 n).
Proof.
  intros Hn. split.
  - intros Hbad. destruct (Z.le_gt_cases n 0) as [Hneg|Hpos].
    + unfold get_log2_if_power_of_2. by destruct (Z.leb_spec n 0); [|lia].
    + apply get_log2_if_power_of_2_int; [lia|]. by destruct Hbad; [lia|].
  - intros Hpow.
    assert (Hpos : 1 <= n).
    { destruct Hpow as (k & Hk & ->).
      assert (0 < 2 ^ k) by (apply Z.pow_pos_nonneg; lia). lia. }
    destruct (proj1 (get_log2_if_power_of_2_int n ltac:(lia)) Hpow)
      as [HL HnL].
    split; [done|]. split; [|done]. split; [lia|].
    destruct (Z.le_gt_cases (get_log2_if_power_of_2 n) 4) as [|Hbig];
      [done|].
    assert (2 ^ 5 <= 2 ^ get_log2_if_power_of_2 n)
      by (apply Z.pow_le_mono_r; lia).
    lia.
Qed.

Lemma slot_lookup (p : ptable) i :
  0 <= i < Z.of_nat (length p) -> p !! Z.to_nat i = Some (slot p i).
Proof.
  intros Hi. unfold slot.
  destruct (lookup_lt_is_Some_2 p (Z.to_nat i) ltac:(lia)) as [x Hx].
  by rewrite (list_lookup_total_correct _ _ _ Hx).
Qed.

Lemma free_slots_allocate (p : ptable) r :
  0 <= r < Z.of_nat (length p) -> active (slot p r) = 0 ->
  S (free_slots (set_slot p r fresh_peterson)) = free_slots p.
Proof.
  intros Hr Hfree. pose proof (slot_lookup p r Hr) as Hx.
  unfold free_slots, set_slot.
  rewrite insert_take_drop by lia.
  rewrite <- (take_drop_middle p (Z.to_nat r) (slot p r) Hx) at 3.
  rewrite !filter_app, !length_app.
  rewrite (filter_cons_True _ (slot p r)) by done.
  rewrite (filter_cons_False _ fresh_peterson) by done.
  simpl. lia.
Qed.

Lemma free_slots_zero (p : ptable) :
  free_slots p = 0%nat <->
  forall j, 0 <= j < Z.of_nat (length p) -> active (slot p j) <> 0.
Proof.
  unfold free_slots. split.
  - intros Hzero j Hj Hfree. apply nil_length_inv in Hzero.
    eapply (filter_nil_not_elem_of _ _ (slot p j) Hzero); [done|].
    eapply list_elem_of_lookup_2. by apply slot_lookup.
  - intros Hall.
    destruct (filter (fun pl => active pl = 0) p) as [|x l] eqn:Heq; [done|].
    assert (Hx : x ∈ filter (fun pl => active pl = 0) p)
      by (rewrite Heq; left).
    apply list_elem_of_filter in Hx as [Hfree Hin].
    apply list_elem_of_lookup_1 in Hin as [i Hi].
    pose proof (lookup_lt_Some _ _ _ Hi) as Hlt.
    destruct (Hall (Z.of_nat i) ltac:(lia)).
    unfold slot. rewrite Nat2Z.id.
    by rewrite (list_lookup_total_correct _ _ _ Hi).
Qed.

(** [peterson_create] on a table with a free slot, and on a full one. *)
Lemma peterson_create_free (p : ptable) :
  ptable_wf p -> (0 < free_slots p)%nat ->
  exists r p', peterson_create p = (r, p') /\ 0 <= r < NPETERSONLOCKS
    /\ ptable_wf p' /\ S (free_slots p') = free_slots p.
Proof.
  intros Hwf Hsome. pose proof (peterson_create_spec p) as H.
  destruct (peterson_create p) as [r p'].
  destruct H as [(Hr & Hfree & _ & ->)|(_ & _ & Hall)].
  - exists r, (set_slot p r fresh_peterson).
    split; [done|]. split; [done|]. split; [auto with pool|].
    apply free_slots_allocate; [by rewrite Hwf|done].
  - assert (free_slots p = 0%nat); [|lia].
    apply free_slots_zero. by rewrite Hwf.
Qed.

Lemma peterson_create_full (p : ptable) :
  ptable_wf p -> free_slots p = 0%nat -> peterson_create p = (-1, p).
Proof.
  intros Hwf Hnone. pose proof (peterson_create_spec p) as H.
  destruct (peterson_create p) as [r p'].
  destruct H as [(Hr & Hfree & _ & ->)|(-> & -> & _)]; [|done].
  rewrite free_slots_zero, Hwf in Hnone. by destruct (Hnone r Hr).
Qed.

(** The loop that fills the array, on the kernel's table. *)
Lemma create_locks_world (n : nat) i (a : list Z) (w : world) :
  ptable_wf (table w) -> 0 <= i ->
  i + Z.of_nat n <= Z.of_nat (length a) ->
  match create_locks n i a w with
  | (failed, a', w') =>
      ptable_wf (table w') /\ length a' = length a
      /\ env w' = env w /\ mallocs w' = mallocs w /\ forks w' = forks w
      /\ trace w' = trace w
      /\ ((n <= free_slots (table w))%nat ->
          failed = None
          /\ (free_slots (table w') + n)%nat = free_slots (table w))
      /\ ((free_slots (table w) < n)%nat ->
          failed = Some (i + Z.of_nat (free_slots (table w)))
          /\ free_slots (table w') = 0%nat)
  end.
Proof.
  revert i a w. induction n as [|n IH]; intros i a w Hwf Hi Hlen.
  - simpl. do 6 (split; [done|]). split; intros; [split; [done|lia]|lia].
  - cbn [create_locks call_peterson_create world_xv6].
    unfold world_create.
    destruct (decide (0 < free_slots (table w))%nat) as [Hsome|Hnone].
    + destruct (peterson_create_free (table w) Hwf Hsome)
        as (r & p' & -> & Hr & Hwf' & Hfree).
      rewrite list_lookup_total_insert_eq by lia.
      destruct (Z.ltb_spec r 0); [lia|].
      specialize (IH (i + 1) (<[Z.to_nat i := r]> a) (with_table w p')
                    Hwf' ltac:(lia)
                    ltac:(rewrite length_insert; lia)).
      destruct (create_locks n (i + 1) _ _) as [[failed a'] w'].
      destruct IH as (? & Ha & ? & ? & ? & ? & Henough & Hshort).
      rewrite length_insert in Ha. simpl in *.
      do 6 (split; [done|]). split.
      * intros Hn. destruct Henough as [-> ?]; [lia|]. split; [done|lia].
      * intros Hn. destruct Hshort as [-> ?]; [lia|].
        split; [f_equal; lia|done].
    + assert (Hzero : free_slots (table w) = 0%nat) by lia.
      rewrite (peterson_create_full (table w) Hwf Hzero).
      rewrite list_lookup_total_insert_eq by lia. simpl.
      destruct w as [p e m f tr]. simpl in *.
      rewrite length_insert.
      do 6 (split; [done|]). split; intros; [lia|].
      split; [f_equal; lia|done].
Qed.

Lemma fork_children_world (n : nat) i t (w : world) :
  0 <= my_id t -> 0 <= i ->
  match fork_children n i t w with
  | (r, d, t', w') =>
      table w' = table w /\ (r = -1 \/ 0 <= r)
      /\ (d <> [] -> r = -1)
  end.
Proof.
  revert i w. induction n as [|n IH]; intros i w Hid Hi.
  - simpl. split; [done|]. split; [by right|done].
  - cbn [fork_children call_fork world_xv6]. unfold world_fork.
    destruct (forks w) as [|pid rest].
    + simpl. split; [done|]. split; [by left|done].
    + destruct (Z.ltb_spec pid 0).
      { simpl. split; [done|]. split; [by left|done]. }
      destruct (Z.eqb_spec pid 0).
      { simpl. split; [done|]. split; [right; lia|done]. }
      set (w1 := mk_world _ _ _ _ _).
      specialize (IH (i + 1) w1 Hid ltac:(lia)).
      by destruct (fork_children n (i + 1) t w1) as [[[r d] t'] w'].
Qed.

Lemma fork_children_spec {K : Type} `{!Xv6 K} (n : nat) i t (k : K) :
  0 <= my_id t -> 0 <= i ->
  match fork_children n i t k with
  | (r, d, t', k') =>
      (r = -1 /\ t' = t /\ exists j, d = [create_fork_failed j])
      \/ (0 <= r /\ d = []
          /\ t' = mk_tournament (peterson_lock_ids_array t)
                    (num_total_locks t) (N_processes t) (L_levels t) r
          /\ (r = my_id t \/ i <= r < i + Z.of_nat n))
  end.
Proof.
  revert i k. induction n as [|n IH]; intros i k Hid Hi.
  - simpl. right. split; [done|]. split; [done|].
    split; [by destruct t|by left].
  - cbn [fork_children]. destruct (call_fork k) as [pid k1].
    destruct (Z.ltb_spec pid 0).
    { left. split; [done|]. split; [done|]. by eexists. }
    destruct (Z.eqb_spec pid 0).
    { right. simpl. split; [done|]. split; [done|]. split; [done|].
      right. lia. }
    specialize (IH (i + 1) k1 Hid ltac:(lia)).
    destruct (fork_children n (i + 1) t k1) as [[[r d] t'] k'].
    destruct IH as [?|(? & ? & ? & Hr)]; [by left|].
    right. do 3 (split; [done|]). destruct Hr; [by left|right; lia].
Qed.

(** What [tournament_create] does for an accepted count of at least 2 whose
    [malloc] succeeds, on the kernel's table. *)
Lemma tournament_create_world n t (w : world) b rest :
  ptable_wf (table w) -> is_power_of_two n -> 2 <= n <= 16 ->
  mallocs w = Some b :: rest ->
  match tournament_create n t w with
  | (r, d, t', w') =>
      ptable_wf (table w')
      /\ (r = -1 \/ 0 <= r) /\ (d <> [] -> r = -1)
      /\ (n - 1 <= Z.of_nat (free_slots (table w)) ->
          Z.of_nat (free_slots (table w'))
          = Z.of_nat (free_slots (table w)) - (n - 1)
          /\ (0 <= r -> valid_tournament t' /\ my_id t' = r
                        /\ N_processes t' = n))
      /\ (Z.of_nat (free_slots (table w)) < n - 1 ->
          r = -1
          /\ d = [create_lock_failed (Z.of_nat (free_slots (table w)))]
          /\ free_slots (table w') = 0%nat)
  end.
Proof.
  intros Hwf Hpow Hn Hmalloc.
  destruct (get_log2_upto_16 n ltac:(lia)) as [_ Hlog].
  destruct (Hlog Hpow) as (_ & HL & HnL). clear Hlog.
  unfold tournament_create.
  destruct (Z.gtb_spec n 16); [lia|].
  destruct (Z.eqb_spec (get_log2_if_power_of_2 n) (-1)); [lia|].
  destruct (Z.gtb_spec (n - 1) 0); [|lia].
  cbn [call_malloc world_xv6]. unfold world_malloc. rewrite Hmalloc.
  cbn [fmap option_fmap option_map].
  set (w1 := mk_world _ _ rest _ _).
  set (a := resize _ 0 b).
  assert (Ha : Z.of_nat (length a) = n - 1).
  { unfold a. rewrite length_resize, Z.div_mul by lia. lia. }
  pose proof (create_locks_world (Z.to_nat (n - 1)) 0 a w1 Hwf ltac:(lia)
                ltac:(lia)) as Hlocks.
  destruct (create_locks (Z.to_nat (n - 1)) 0 a w1) as [[failed a1] w2].
  destruct Hlocks as (Hwf2 & Ha1 & _ & _ & _ & _ & Henough & Hshort).
  change (table w1) with (table w) in *.
  destruct (decide (Z.to_nat (n - 1) <= free_slots (table w))%nat)
    as [Hfree|Hfree].
  - destruct (Henough Hfree) as [-> Hcount].
    set (t1 := mk_tournament _ _ _ _ 0).
    pose proof (fork_children_world (Z.to_nat (n - 1)) 1 t1 w2 ltac:(done)
                  ltac:(lia)) as Htable.
    pose proof (fork_children_spec (Z.to_nat (n - 1)) 1 t1 w2 ltac:(done)
                  ltac:(lia)) as Hfork.
    destruct (fork_children (Z.to_nat (n - 1)) 1 t1 w2) as [[[r d] t'] w'].
    destruct Htable as (Htable & Hr & Hd). rewrite Htable.
    split; [done|]. split; [done|]. split; [done|]. split; [|lia].
    intros _. split; [lia|]. intros Hpos.
    destruct Hfork as [?|(_ & _ & -> & Hid)]; [lia|].
    split; [|done]. split; simpl.
    + destruct (decide (get_log2_if_power_of_2 n = 0)) as [Hzero|]; [|lia].
      rewrite Hzero in HnL. simpl in HnL. lia.
    + done.
    + done.
    + exists a1. split; [done|]. lia.
    + destruct Hid as [->|?]; simpl; lia.
  - destruct Hshort as [-> Hzero]; [lia|].
    split; [done|]. split; [by left|]. split; [done|]. split; [lia|].
    intros _. done.
Qed.

(** C7 as stated: an accepted count [n] would always take [n - 1] locks
    from the pool.  With 15 of the 16 locks already created,
    [tournament_create(4)] takes the one that is left and fails. *)
Lemma tournament_create_valid_count_fails :
  is_power_of_two 4 /\ 1 <= 4 <= 16
  /\ ptable_wf (table (boot_with_locks 15 [1; 2; 3]))
  /\ locks_allocated 4 no_tournament (boot_with_locks 15 [1; 2; 3]) <> 4 - 1.
Proof.
  split; [by exists 2|]. split; [lia|]. split; [done|].
  vm_compute. discriminate.
Qed.

(** C7, amended.  [tournament_create(n)] returns -1 for every [n] that is
    at most 0, above 16 or not a power of two, and then changes nothing: no
    lock is taken from the pool (so for 3, 0 and 17).  [n = 1] is accepted
    and takes no lock.  For a power of two from 2 to 16 whose [malloc]
    succeeds it takes exactly [n - 1] locks when the pool has that many
    free slots; when the pool has fewer it takes all that are free and
    returns -1; when [malloc] fails it takes none and returns -1. *)
Theorem tournament_create_validation (n : Z) (t : tournament) (w : world)
  (Hwf : ptable_wf (table w)) :
  (n <= 0 \/ n > 16 \/ ~ is_power_of_two n ->
     (exists d, tournament_create n t w = (-1, [d], t, w))
     /\ locks_allocated n t w = 0)
  /\ (forall m, m = 3 \/ m = 0 \/ m = 17 ->
      (tournament_create m t w).1.1.1 = -1
      /\ (tournament_create m t w).2 = w
      /\ locks_allocated m t w = 0)
  /\ (tournament_create 1 t w = (0, [], mk_tournament None 0 1 0 0, w)
      /\ locks_allocated 1 t w = 0)
  /\ (is_power_of_two n -> 2 <= n <= 16 ->
      (forall b rest, mallocs w = Some b :: rest ->
         (n - 1 <= Z.of_nat (free_slots (table w)) ->
          locks_allocated n t w = n - 1)
         /\ (Z.of_nat (free_slots (table w)) < n - 1 ->
             locks_allocated n t w = Z.of_nat (free_slots (table w))
             /\ (tournament_create n t w).1.1.1 = -1))
      /\ (mallocs w = [] \/ (exists rest, mallocs w = None :: rest) ->
          locks_allocated n t w = 0
          /\ (tournament_create n t w).1.1.1 = -1)).
Proof.
  assert (Hrejected : forall m, m <= 0 \/ m > 16 \/ ~ is_power_of_two m ->
            (exists d, tournament_create m t w = (-1, [d], t, w))
            /\ locks_allocated m t w = 0).
  { intros m Hm.
    assert (Hrun : exists d, tournament_create m t w = (-1, [d], t, w)).
    { unfold tournament_create.
      destruct (Z.gtb_spec m 16); [by eexists|].
      destruct (get_log2_upto_16 m ltac:(lia)) as [Hlog _].
      rewrite Hlog; [by eexists|].
      destruct Hm as [?|[?|?]]; [by left|lia|by right]. }
    split; [done|]. destruct Hrun as [d Hrun].
    unfold locks_allocated. rewrite Hrun. lia. }
  split; [apply Hrejected|]. split; [|split; [|intros Hpow Hn; split]].
  - intros m Hm.
    destruct (Hrejected m) as [[d Hrun] Hnone].
    { destruct Hm as [->|[->| ->]]; [right; right|left; lia|right; left; lia].
      rewrite power_of_two_upto_16; lia. }
    by rewrite Hrun.
  - unfold locks_allocated. simpl. split; [done|lia].
  - intros b rest Hmalloc.
    pose proof (tournament_create_world n t w b rest Hwf Hpow Hn Hmalloc)
      as H.
    unfold locks_allocated.
    destruct (tournament_create n t w) as [[[r d] t'] w'].
    destruct H as (_ & _ & _ & Henough & Hshort). split.
    + intros Hfree. destruct (Henough Hfree) as [-> _]. lia.
    + intros Hfree. destruct (Hshort Hfree) as (-> & _ & ->).
      split; [lia|done].
  - intros Hmalloc.
    destruct (get_log2_upto_16 n ltac:(lia)) as [_ Hlog].
    destruct (Hlog Hpow) as (_ & HL & HnL). clear Hlog.
    unfold locks_allocated, tournament_create.
    destruct (Z.gtb_spec n 16); [lia|].
    destruct (Z.eqb_spec (get_log2_if_power_of_2 n) (-1)); [lia|].
    destruct (Z.gtb_spec (n - 1) 0); [|lia].
    cbn [call_malloc world_xv6]. unfold world_malloc.
    destruct Hmalloc as [->|[rest ->]]; simpl; split; (lia || done).
Qed.

Lemma tournament_create_validation_witness :
  locks_allocated 4 no_tournament (boot 1 [1; 2; 3]) = 4 - 1.
Proof.
  refine (proj1 (proj1 (proj2 (proj2 (proj2
    (tournament_create_validation 4 no_tournament (boot 1 [1; 2; 3])
       peterson_init_wf))) _ _) [] [] eq_refl) _).
  - by exists 2.
  - lia.
  - vm_compute. discriminate.
Defined.

(** ** Results *)

Lemma tournament_create_result {K : Type} `{!Xv6 K} n t (k : K) :
  match tournament_create n t k with
  | (r, d, _, _) => (r = -1 \/ 0 <= r) /\ (d <> [] <-> r = -1)
  end.
Proof.
  assert (Hforks : forall m t1 k1, my_id t1 = 0 ->
            match fork_children m 1 t1 k1 with
            | (r, d, _, _) => (r = -1 \/ 0 <= r) /\ (d <> [] <-> r = -1)
            end).
  { intros m t1 k1 Hid.
    pose proof (fork_children_spec m 1 t1 k1 ltac:(lia) ltac:(lia)) as H.
    destruct (fork_children m 1 t1 k1) as [[[r d] t'] k'].
    destruct H as [(-> & _ & j & ->)|(Hr & -> & _)].
    - split; [by left|done].
    - split; [by right|]. split; [done|lia]. }
  unfold tournament_create.
  destruct (n >? 16); [split; [by left|done]|].
  destruct (get_log2_if_power_of_2 n =? -1); [split; [by left|done]|].
  destruct (n - 1 >? 0); [|by apply Hforks].
  destruct (call_malloc _ k) as [[a|] k1]; [|split; [by left|done]].
  destruct (create_locks _ 0 a k1) as [[[i|] a1] k2];
    [split; [by left|done]|].
  by apply Hforks.
Qed.

Lemma acquire_levels_result {K : Type} `{!Xv6 K} (n : nat) t (k k' : K) r d :
  acquire_levels n t k = Some (r, d, k') ->
  (r = -1 \/ r = 0) /\ (d <> [] <-> r = -1).
Proof.
  revert k. induction n as [|n IH]; intros k; cbn [acquire_levels].
  - intros [= <- <- <-]. split; [by right|]. split; [done|lia].
  - destruct (_ || _); [intros [= <- <- <-]; split; [by left|done]|].
    destruct (call_peterson_acquire _ _ k) as [[v k1]|]; [|done].
    destruct (v <? 0); [intros [= <- <- <-]; split; [by left|done]|].
    apply IH.
Qed.

Lemma release_levels_result {K : Type} `{!Xv6 K} (n : nat) l t (k : K) :
  match release_levels n l t k with
  | (r, d, _) => (r = -1 \/ r = 0) /\ (d <> [] <-> r = -1)
  end.
Proof.
  revert l k. induction n as [|n IH]; intros l k; cbn [release_levels].
  - split; [by right|]. split; [done|lia].
  - destruct (_ || _); [split; [by left|done]|].
    destruct (call_peterson_release _ _ k) as [v k1].
    destruct (v <? 0); [split; [by left|done]|].
    apply IH.
Qed.

(** Every operation returns either -1 or a number that is not negative:
    create a slot index or -1; acquire, release and destroy 0 or -1;
    [tournament_create] a participant id or -1; [tournament_acquire] and
    [tournament_release] 0 or -1, and the library returns -1 exactly when
    it has written a diagnostic.  Every error kind of acquire reaches the
    caller as the same -1, and so do the two of destroy. *)
Lemma results_in_range :
  (forall (p p' : ptable) r, peterson_create p = (r, p') -> r = -1 \/ 0 <= r)
  /\ (forall env h role (p p' : ptable) env' r,
        peterson_acquire env h role p = Some (r, p', env') ->
        r = -1 \/ r = 0)
  /\ (forall h role (p p' : ptable) r,
        peterson_release h role p = (r, p') -> r = -1 \/ r = 0)
  /\ (forall h (p : ptable), exists r p',
        peterson_destroy h p = Some (r, p') /\ (r = -1 \/ r = 0))
  /\ (forall (K : Type) (X : Xv6 K) n t (k k' : K) r d t',
        tournament_create n t k = (r, d, t', k') ->
        (r = -1 \/ 0 <= r) /\ (d <> [] <-> r = -1))
  /\ (forall (K : Type) (X : Xv6 K) t (k k' : K) r d,
        tournament_acquire t k = Some (r, d, k') ->
        (r = -1 \/ r = 0) /\ (d <> [] <-> r = -1))
  /\ (forall (K : Type) (X : Xv6 K) t (k k' : K) r d,
        tournament_release t k = (r, d, k') ->
        (r = -1 \/ r = 0) /\ (d <> [] <-> r = -1))
  /\ (forall e, int_of_outcome (Error e) = -1)
  /\ (forall env h role (p : ptable),
        peterson_acquire env h role p = reported (spec_acquire env h role p))
  /\ (forall h h' (p : ptable),
        ~ 0 <= h < NPETERSONLOCKS ->
        0 <= h' < NPETERSONLOCKS -> active (slot p h') = 0 ->
        peterson_destroy h p = Some (-1, p)
        /\ peterson_destroy h' p = Some (-1, p)).
Proof.
  split; [|split; [|split; [|split; [|split; [|split; [|split;
    [|split; [|split]]]]]]]].
  - intros p p' r Hrun. pose proof (peterson_create_spec p) as H.
    rewrite Hrun in H. unfold NPETERSONLOCKS in H.
    destruct H as [(? & _)|(? & _)]; [right; lia|by left].
  - intros env h role p p' env' r.
    unfold peterson_acquire, sys_peterson_acquire.
    destruct (bad_lock_or_role h role); [intros [= <- _ _]; by left|].
    destruct (active (slot p h) =? 0); [intros [= <- _ _]; by left|].
    generalize (set_slot p h (set_turn (set_flag (slot p h) role 1)
                                (1 - role))).
    induction env as [|others env IH]; intros q; simpl;
      unfold acquire_check;
      destruct (must_wait (slot q h) role), (active (slot q h) =? 0);
      try done; try (intros [= <- _ _]; by left);
      try (intros [= <- _ _]; by right).
    apply IH.
  - intros h role p p' r. unfold peterson_release, sys_peterson_release.
    destruct (bad_lock_or_role h role); [intros [= <- _]; by left|].
    destruct (active (slot p h) =? 0); intros [= <- _]; [by left|by right].
  - intros h p. unfold peterson_destroy, sys_peterson_destroy, peterson_free.
    destruct (Z.ltb_spec h 0); [eexists _, _; split; [done|by left]|].
    destruct (Z.geb_spec h NPETERSONLOCKS);
      [eexists _, _; split; [done|by left]|]. simpl.
    destruct (active (slot p h) =? 0);
      eexists _, _; (split; [done|]); [by left|by right].
  - intros K X n t k k' r d t' Hrun.
    pose proof (tournament_create_result n t k) as H. by rewrite Hrun in H.
  - intros K X t k k' r d. unfold tournament_acquire.
    destruct (my_id t =? -1); [intros [= <- <- _]; split; [by left|done]|].
    destruct (N_processes t <=? 0);
      [intros [= <- <- _]; split; [by left|done]|].
    destruct (N_processes t =? 1);
      [intros [= <- <- _]; split; [by right|split; [done|lia]]|].
    destruct (_ && _); [intros [= <- <- _]; split; [by left|done]|].
    apply acquire_levels_result.
  - intros K X t k k' r d Hrun. unfold tournament_release in Hrun.
    destruct (my_id t =? -1); [injection Hrun as <- <- _; split; [by left|done]|].
    destruct (N_processes t <=? 0);
      [injection Hrun as <- <- _; split; [by left|done]|].
    destruct (N_processes t =? 1);
      [injection Hrun as <- <- _; split; [by right|split; [done|lia]]|].
    destruct (_ && _); [injection Hrun as <- <- _; split; [by left|done]|].
    pose proof (release_levels_result (Z.to_nat (L_levels t)) 0 t k) as H.
    by rewrite Hrun in H.
  - by intros [].
  - apply peterson_acquire_refines.
  - intros h h' p Hout Hin Hfree.
    unfold peterson_destroy, sys_peterson_destroy. split.
    + destruct (Z.ltb_spec h 0); [done|].
      destruct (Z.geb_spec h NPETERSONLOCKS); [done|lia].
    + destruct (Z.ltb_spec h' 0); [lia|].
      destruct (Z.geb_spec h' NPETERSONLOCKS); [lia|]. simpl.
      by rewrite Hfree.
Qed.

(** ** Two contexts on one slot *)

Import Interleaving.

Lemma inv_initial (p : ptable) h :
  active (slot p h) <> 0 -> inv (slot p h) (initial p).
Proof.
  intros Hactive.
  split; simpl; first [done | intros; discriminate | by split
                       | by intros [? ?]].
Qed.

Lemma pc_facts l :
  (passed l = true -> interested l = true)
  /\ (contending l = true -> interested l = true)
  /\ (contending l = true -> passed l = true -> False).
Proof. by destruct l. Qed.

(** Case analysis on the statement that [exec] runs. *)
Ltac exec_branch H :=
  match type of H with
  | context [active ?pl =? 0] => destruct (Z.eqb_spec (active pl) 0)
  | context [must_wait ?pl ?r] => destruct (must_wait pl r) eqn:?
  | context [lock _ _] => unfold lock in H; simpl in H
  | match ?o with Some _ => _ | None => _ end = Some _ =>
      destruct o eqn:?; [discriminate H|]
  end.

Ltac compare_all :=
  repeat match goal with
  | H : context [?x =? ?y] |- _ => destruct (Z.eqb_spec x y); simpl in H
  end.

(** The invariant of the state that one statement leads to, from the
    invariant [Hinv] of the state before; [l] is the control point of the
    context that did not move. *)
Ltac inv_after Hinv p h l :=
  unfold goto, write, unlock; simpl;
  split; [first [done | by apply set_slot_wf]|];
  rewrite ?slot_set_slot_eq by done;
  destruct Hinv as [Ha Hl0 Hl1 Hf0 Hf1 Ht010 Ht011 Ht0 Ht1 Hex];
  simpl in *;
  generalize dependent (slot p h); intros [nm a f0 f1 tn]; intros;
  unfold must_wait, flag, set_flag, set_turn in *; simpl in *;
  change (1 - 1) with 0 in *; change (1 - 0) with 1 in *;
  compare_all;
  destruct (pc_facts l) as (Hpi & Hci & Hcp);
  split; simpl; intuition (try congruence).

Lemma inv_step h role s s' :
  ptable_wf (tbl s) -> 0 <= h < NPETERSONLOCKS -> role = 0 \/ role = 1 ->
  inv (slot (tbl s) h) s -> exec h role s = Some s' ->
  ptable_wf (tbl s') /\ inv (slot (tbl s') h) s'.
Proof.
  intros Hwf Hh Hrole Hinv Hexec.
  destruct s as [p o l0 l1]. simpl in Hwf, Hinv.
  assert (Hin : 0 <= h < Z.of_nat (length p)) by (by rewrite Hwf).
  unfold exec, pc_of in Hexec. simpl in Hexec.
  destruct Hrole as [-> | ->]; simpl in Hexec.
  - destruct l0; simpl in Hexec; repeat exec_branch Hexec; simplify_eq;
      try destruct (bad_lock_or_role h 0);
      inv_after Hinv p h l1.
  - destruct l1; simpl in Hexec; repeat exec_branch Hexec; simplify_eq;
      try destruct (bad_lock_or_role h 1);
      inv_after Hinv p h l0.
Qed.

Lemma reachable_inv h (p : ptable) s :
  ptable_wf p -> 0 <= h < NPETERSONLOCKS -> active (slot p h) <> 0 ->
  reachable h p s -> ptable_wf (tbl s) /\ inv (slot (tbl s) h) s.
Proof.
  intros Hwf Hh Hactive Hreach.
  induction Hreach as [|s s' role _ IH Hrole Hexec].
  - split; [done|by apply inv_initial].
  - destruct IH as [Hwfs Hinv]. by eapply inv_step.
Qed.

Lemma run_reachable h (p : ptable) schedule s s' :
  reachable h p s -> run h schedule s = Some s' -> reachable h p s'.
Proof.
  revert s. induction schedule as [|role rest IH]; intros s Hreach; simpl.
  - by intros [= <-].
  - destruct (Z.eqb_spec role 0) as [->|]; simpl;
      [|destruct (Z.eqb_spec role 1) as [->|]; [|done]].
    + destruct (exec h 0 s) as [s1|] eqn:Hexec; [|done].
      apply IH. eapply reach_step; [done|by left|done].
    + destruct (exec h 1 s) as [s1|] eqn:Hexec; [|done].
      apply IH. eapply reach_step; [done|by right|done].
Qed.

Lemma holds_passed l : holds l = true -> passed l = true.
Proof. by destruct l. Qed.

(** C1.  On an active slot [h], in every state that some interleaving of
    the statements of the two contexts leads to, the contexts do not both
    hold the lock: they are never both between the return of a successful
    acquire and the write of their release.  They are not even both past
    the wait loop of acquire. *)
Theorem two_party_mutual_exclusion (p : ptable) (h : Z) (s : state)
  (Hwf : ptable_wf p) (Hh : 0 <= h < NPETERSONLOCKS)
  (Hactive : active (slot p h) <> 0) (Hreach : reachable h p s) :
  ~ (holds (pc_0 s) = true /\ holds (pc_1 s) = true)
  /\ ~ (passed (pc_0 s) = true /\ passed (pc_1 s) = true).
Proof.
  destruct (reachable_inv h p s Hwf Hh Hactive Hreach) as [_ Hinv].
  split; [|apply (inv_excl _ _ Hinv)].
  intros [H0 H1]. apply (inv_excl _ _ Hinv).
  split; by apply holds_passed.
Qed.

Lemma two_party_mutual_exclusion_witness :
  ~ (holds Critical = true /\ holds AcqYield = true).
Proof.
  apply (proj1 (B := ~ (passed Critical = true /\ passed AcqYield = true))).
  apply (two_party_mutual_exclusion
           (set_slot peterson_init 0 fresh_peterson) 0
           (mk_state
              (set_slot peterson_init 0
                 (mk_peterson_lock "peterson_lock" 1 1 1 0))
              None Critical AcqYield)).
  - reflexivity.
  - unfold NPETERSONLOCKS. lia.
  - discriminate.
  - apply (run_reachable 0 _ (replicate 8 0 ++ replicate 8 1)
             (initial (set_slot peterson_init 0 fresh_peterson)));
      [apply reach_initial|reflexivity].
Defined.

(** *** The statements of a call and the call as a function

    A context that runs alone from the call of acquire to the first
    evaluation of the wait condition leaves the table that
    [sys_peterson_acquire] hands to its wait loop, and stands where the
    first check of that loop sends it; the statements of a release leave
    the table of [sys_peterson_release]. *)
Lemma exec_acquire_section h role (s : state) :
  ptable_wf (tbl s) -> 0 <= h < NPETERSONLOCKS -> role = 0 \/ role = 1 ->
  lk_owner s = None -> pc_of s role = Idle ->
  active (slot (tbl s) h) <> 0 ->
  exists s1,
    run h (replicate 6 role) s = Some s1
    /\ tbl s1 = set_slot (tbl s) h
                  (set_turn (set_flag (slot (tbl s) h) role 1) (1 - role))
    /\ lk_owner s1 = Some role
    /\ pc_of s1 role
       = match acquire_check h role (tbl s1) with
         | None => AcqDestroyed
         | Some _ => AcqFinal
         end
    /\ pc_of s1 (1 - role) = pc_of s (1 - role)
    /\ forall env, sys_peterson_acquire env h role (tbl s)
                   = acquire_spin env h role (tbl s1).
Proof.
  intros Hwf Hh Hrole Hfree Hidle Hactive.
  destruct s as [p o l0 l1]. simpl in *. subst o.
  assert (Hin : 0 <= h < Z.of_nat (length p)) by (by rewrite Hwf).
  assert (Hok : bad_lock_or_role h role = false)
    by (by apply bad_lock_or_role_false).
  assert (Hsys : forall env, sys_peterson_acquire env h role p
            = acquire_spin env h role
                (set_slot p h (set_turn (set_flag (slot p h) role 1)
                                 (1 - role)))).
  { intros env. unfold sys_peterson_acquire. rewrite Hok.
    by destruct (Z.eqb_spec (active (slot p h)) 0). }
  destruct Hrole as [-> | ->]; unfold pc_of in Hidle; simpl in Hidle; subst;
    cbn [replicate run Z.eqb orb]; unfold exec, pc_of; simpl;
    rewrite Hok; simpl;
    (destruct (Z.eqb_spec (active (slot p h)) 0); [done|]); simpl;
    rewrite !slot_set_slot_eq by (by rewrite ?set_slot_length);
    (eexists; split; [reflexivity|]);
    unfold goto, write; simpl; rewrite set_slot_set_slot;
    unfold acquire_check; rewrite slot_set_slot_eq by done;
    (destruct (must_wait _ _); simpl;
     (destruct (Z.eqb_spec (active (slot p h)) 0); [done|]); by repeat split).
Qed.

Lemma exec_release_section h role (s : state) :
  ptable_wf (tbl s) -> 0 <= h < NPETERSONLOCKS -> role = 0 \/ role = 1 ->
  lk_owner s = None -> pc_of s role = Critical ->
  active (slot (tbl s) h) <> 0 ->
  exists s1,
    run h (replicate 5 role) s = Some s1
    /\ (to_uint64 0, tbl s1) = sys_peterson_release h role (tbl s)
    /\ lk_owner s1 = None
    /\ pc_of s1 role = Idle
    /\ pc_of s1 (1 - role) = pc_of s (1 - role).
Proof.
  intros Hwf Hh Hrole Hfree Hcritical Hactive.
  destruct s as [p o l0 l1]. simpl in *. subst o.
  assert (Hok : bad_lock_or_role h role = false)
    by (by apply bad_lock_or_role_false).
  unfold sys_peterson_release. rewrite Hok.
  destruct Hrole as [-> | ->]; unfold pc_of in Hcritical;
    simpl in Hcritical; subst;
    cbn [replicate run Z.eqb orb]; unfold exec, pc_of; simpl;
    rewrite Hok; simpl;
    (destruct (Z.eqb_spec (active (slot p h)) 0); [done|]); simpl;
    (eexists; split; [reflexivity|]); by repeat split.
Qed.

(** * Further properties of the code *)

(** ** The pool: counting the free slots, and reuse *)

Lemma set_slot_same (p : ptable) i :
  0 <= i < Z.of_nat (length p) -> set_slot p i (slot p i) = p.
Proof.
  intros Hi. unfold set_slot. apply list_insert_id. by apply slot_lookup.
Qed.

Lemma free_slots_set_slot (p : ptable) r pl :
  0 <= r < Z.of_nat (length p) ->
  (free_slots (set_slot p r pl) + free_mark (slot p r))%nat
  = (free_slots p + free_mark pl)%nat.
Proof.
  intros Hr. pose proof (slot_lookup p r Hr) as Hx.
  unfold free_slots, set_slot.
  rewrite insert_take_drop by lia.
  rewrite <- (take_drop_middle p (Z.to_nat r) (slot p r) Hx) at 4.
  rewrite !filter_app, !length_app, !filter_cons. unfold free_mark.
  destruct (decide (active (slot p r) = 0)), (decide (active pl = 0));
    simpl; lia.
Qed.



Lemma peterson_destroy_success h (p p1 : ptable) :
  peterson_destroy h p = Some (0, p1) ->
  0 <= h < NPETERSONLOCKS /\ active (slot p h) <> 0
  /\ p1 = set_slot p h unnamed_peterson.
Proof.
  unfold peterson_destroy, sys_peterson_destroy, peterson_free.
  destruct (Z.ltb_spec h 0), (Z.geb_spec h NPETERSONLOCKS),
    (Z.eqb_spec (active (slot p h)) 0) as [|Hbusy];
    cbn -[to_int to_uint64];
    try (rewrite to_int_minus_one; discriminate).
  rewrite to_int_zero. intros [= <-]. split; [lia|done].
Qed.

(** X2.  Destroying the lock that create has just returned succeeds and
    undoes the allocation: the slot holds the values of [peterson_init]
    again, the count of free slots and the other slots are as before the
    create, and a table whose slot had never been used is back exactly. *)
Theorem create_destroy_round_trip (p p1 : ptable) (r : Z)
  (Hwf : ptable_wf p) (Hcreate : peterson_create p = (r, p1))
  (Hr : r <> -1) :
  peterson_destroy r p1 = Some (0, set_slot p r unnamed_peterson)
  /\ free_slots (set_slot p r unnamed_peterson) = free_slots p
  /\ (forall j, 0 <= j < NPETERSONLOCKS -> j <> r ->
      slot (set_slot p r unnamed_peterson) j = slot p j)
  /\ (slot p r = unnamed_peterson -> set_slot p r unnamed_peterson = p).
Proof.
  pose proof (peterson_create_spec p) as H. rewrite Hcreate in H.
  destruct H as [(Hin & Hfree & _ & ->)|(? & _)]; [|done].
  assert (Hlen : 0 <= r < Z.of_nat (length p)) by (by rewrite Hwf).
  split; [|split; [|split]].
  - unfold peterson_destroy, sys_peterson_destroy, peterson_free.
    destruct (Z.ltb_spec r 0); [lia|].
    destruct (Z.geb_spec r NPETERSONLOCKS); [lia|].
    rewrite slot_set_slot_eq by done. cbn -[to_int to_uint64].
    by rewrite to_int_zero, set_slot_set_slot.
  - pose proof (free_slots_set_slot p r unnamed_peterson Hlen) as Hfs.
    unfold free_mark in Hfs. rewrite Hfree in Hfs. simpl in Hfs. lia.
  - intros j Hj Hne. apply slot_set_slot_ne; lia.
  - intros <-. by apply set_slot_same.
Qed.

Lemma create_destroy_round_trip_witness :
  peterson_destroy 0 (set_slot peterson_init 0 fresh_peterson)
  = Some (0, set_slot peterson_init 0 unnamed_peterson).
Proof.
  exact (proj1 (create_destroy_round_trip peterson_init
                  (set_slot peterson_init 0 fresh_peterson) 0
                  peterson_init_wf eq_refl ltac:(discriminate))).
Defined.

Lemma create_after_destroy (p p1 p2 : ptable) (h r : Z)
  (Hwf : ptable_wf p) (Hdestroy : peterson_destroy h p = Some (0, p1))
  (Hcreate : peterson_create p1 = (r, p2)) :
  0 <= r <= h
  /\ slot p2 r = fresh_peterson
  /\ ((forall j, 0 <= j < h -> active (slot p j) <> 0) ->
      r = h /\ p2 = set_slot p h fresh_peterson).
Proof.
  apply peterson_destroy_success in Hdestroy as (Hh & Hbusy & ->).
  assert (Hlen : 0 <= h < Z.of_nat (length p)) by (by rewrite Hwf).
  pose proof (peterson_create_spec (set_slot p h unnamed_peterson)) as H.
  rewrite Hcreate in H.
  destruct H as [(Hr & Hfree & Hbefore & ->)|(_ & _ & Hall)].
  - assert (Hle : r <= h).
    { destruct (Z.le_gt_cases r h) as [|Hgt]; [done|].
      destruct (Hbefore h ltac:(lia)). by rewrite slot_set_slot_eq. }
    split; [lia|]. split.
    + apply slot_set_slot_eq. rewrite set_slot_length. lia.
    + intros Hlow. assert (r = h) as ->.
      { destruct (decide (r = h)) as [|Hne]; [done|].
        destruct (Hlow r ltac:(lia)).
        by rewrite slot_set_slot_ne in Hfree by lia. }
      split; [done|apply set_slot_set_slot].
  - destruct (Hall h Hh). by rewrite slot_set_slot_eq.
Qed.

(** X3.  A create that follows a successful destroy of [h] returns a
    handle that is at most [h], with the slot as a fresh allocation leaves
    it; when every slot below [h] is in use it returns [h] itself, so the
    handle of the destroyed lock is handed out again. *)
Theorem destroy_create_reuse (p p1 p2 : ptable) (h r : Z)
  (Hwf : ptable_wf p) (Hdestroy : peterson_destroy h p = Some (0, p1))
  (Hcreate : peterson_create p1 = (r, p2)) :
  0 <= r <= h
  /\ slot p2 r = fresh_peterson
  /\ ((forall j, 0 <= j < h -> active (slot p j) <> 0) ->
      r = h /\ p2 = set_slot p h fresh_peterson).
Proof. by eapply create_after_destroy. Qed.

Lemma destroy_create_reuse_witness :
  0 <= 3 <= 3
  /\ slot (set_slot (snd (create_in_sequence 16 peterson_init)) 3
            fresh_peterson) 3
     = fresh_peterson.
Proof.
  destruct (destroy_create_reuse
              (snd (create_in_sequence 16 peterson_init))
              (set_slot (snd (create_in_sequence 16 peterson_init)) 3
                 unnamed_peterson)
              (set_slot (snd (create_in_sequence 16 peterson_init)) 3
                 fresh_peterson)
              3 3) as (Hr & Hslot & _).
  - reflexivity.
  - reflexivity.
  - reflexivity.
  - by split.
Defined.

Lemma create_in_sequence_full (n : nat) (p : ptable) :
  ptable_wf p -> free_slots p = 0%nat ->
  create_in_sequence n p = (replicate n (-1), p).
Proof.
  intros Hwf Hfull. induction n as [|n IH]; [done|].
  cbn [create_in_sequence]. rewrite (peterson_create_full p Hwf Hfull).
  by rewrite IH.
Qed.

Lemma create_in_sequence_spec (n : nat) (p : ptable)
  (Hwf : ptable_wf p) :
  let m := Nat.min n (free_slots p) in
  let '(rs, p') := create_in_sequence n p in
  ptable_wf p'
  /\ length rs = n
  /\ drop m rs = replicate (n - m) (-1)
  /\ NoDup (take m rs)
  /\ (forall r, r ∈ take m rs ->
        0 <= r < NPETERSONLOCKS /\ active (slot p r) = 0
        /\ slot p' r = fresh_peterson)
  /\ (forall j, 0 <= j < NPETERSONLOCKS -> active (slot p j) <> 0 ->
        slot p' j = slot p j)
  /\ (free_slots p' + m)%nat = free_slots p.
Proof.
  revert p Hwf. induction n as [|n IH]; intros p Hwf.
  - simpl. split; [done|]. split; [done|]. split; [done|].
    split; [constructor|]. split; [by intros r Hr%elem_of_nil|].
    split; [done|lia].
  - cbn [create_in_sequence].
    destruct (decide (0 < free_slots p)%nat) as [Hsome|Hnone].
    + pose proof (peterson_create_spec p) as Hspec.
      destruct (peterson_create p) as [r p1].
      destruct Hspec as [(Hr & Hfree & _ & ->)|(_ & _ & Hall)].
      2: { assert (free_slots p = 0%nat); [|lia].
           apply free_slots_zero. by rewrite Hwf. }
      assert (Hlen : 0 <= r < Z.of_nat (length p)) by (by rewrite Hwf).
      pose proof (free_slots_allocate p r Hlen Hfree) as Hcount.
      specialize (IH (set_slot p r fresh_peterson)
                    ltac:(by apply set_slot_wf)).
      destruct (create_in_sequence n (set_slot p r fresh_peterson))
        as [rs p'].
      cbn zeta in IH.
      destruct IH as (Hwf' & Hlenrs & Hdrop & Hnodup & Hin & Hframe & Hfs).
      replace (Nat.min (S n) (free_slots p))
        with (S (Nat.min n (free_slots (set_slot p r fresh_peterson))))
        by lia.
      set (m := Nat.min n (free_slots (set_slot p r fresh_peterson))) in *.
      assert (Hr' : slot p' r = fresh_peterson).
      { rewrite Hframe by (rewrite ?slot_set_slot_eq; done).
        by apply slot_set_slot_eq. }
      cbn [take drop length]. split; [done|]. split; [by rewrite Hlenrs|].
      split; [done|]. split; [|split; [|split]].
      * constructor; [|done]. intros Hdup.
        destruct (Hin r Hdup) as (_ & Hfree' & _).
        by rewrite slot_set_slot_eq in Hfree'.
      * intros r' [->|Hmem]%elem_of_cons; [done|].
        destruct (Hin r' Hmem) as (Hrange & Hfree' & Hfresh).
        split; [done|]. split; [|done].
        destruct (decide (r' = r)) as [->|Hne].
        { by rewrite slot_set_slot_eq in Hfree'. }
        by rewrite slot_set_slot_ne in Hfree' by lia.
      * intros j Hj Hbusy.
        assert (j <> r) by (intros ->; done).
        rewrite Hframe by (rewrite ?slot_set_slot_ne by lia; done).
        apply slot_set_slot_ne; lia.
      * lia.
    + assert (Hfull : free_slots p = 0%nat) by lia.
      rewrite (peterson_create_full p Hwf Hfull).
      rewrite (create_in_sequence_full n p Hwf Hfull).
      rewrite Hfull, Nat.min_0_r. cbn [take drop].
      split; [done|]. split; [simpl; by rewrite length_replicate|].
      split; [by rewrite Nat.sub_0_r|]. split; [constructor|].
      split; [by intros r Hr%elem_of_nil|]. split; [done|lia].
Qed.

(** X4.  [n] creates in a row on a table with [f] free slots: the first
    [min n f] return pairwise different handles, each of a slot that was
    free and is now freshly allocated; the others return -1; the slots
    that were in use are untouched and the free count drops by
    [min n f]. *)
Theorem create_in_sequence_handles (n : nat) (p : ptable)
  (Hwf : ptable_wf p) :
  let m := Nat.min n (free_slots p) in
  let '(rs, p') := create_in_sequence n p in
  ptable_wf p'
  /\ length rs = n
  /\ drop m rs = replicate (n - m) (-1)
  /\ NoDup (take m rs)
  /\ (forall r, r ∈ take m rs ->
        0 <= r < NPETERSONLOCKS /\ active (slot p r) = 0
        /\ slot p' r = fresh_peterson)
  /\ (forall j, 0 <= j < NPETERSONLOCKS -> active (slot p j) <> 0 ->
        slot p' j = slot p j)
  /\ (free_slots p' + m)%nat = free_slots p.
Proof. by apply create_in_sequence_spec. Qed.

Lemma create_in_sequence_handles_witness :
  NoDup (take 16 (fst (create_in_sequence 17 peterson_init))).
Proof.
  exact (proj1 (proj2 (proj2 (proj2
    (create_in_sequence_handles 17 peterson_init peterson_init_wf))))).
Defined.

(** ** Acquire: the wait loop and what ends it *)


Lemma acquire_spin_after used env' h role (q : ptable) :
  (forall k, (k < length used)%nat ->
     acquire_check h role (after_yields (take k used) q) = None) ->
  acquire_spin (used ++ env') h role q
  = acquire_spin env' h role (after_yields used q).
Proof.
  revert q. induction used as [|others used IH]; intros q Hwait; [done|].
  rewrite <- app_comm_cons, acquire_spin_unfold.
  pose proof (Hwait 0%nat ltac:(simpl; lia)) as Hfirst. simpl in Hfirst.
  rewrite Hfirst. apply IH. intros k Hk. apply (Hwait (S k)). simpl. lia.
Qed.



Lemma peterson_acquire_entered env h role (p : ptable) :
  0 <= h < NPETERSONLOCKS -> role = 0 \/ role = 1 ->
  active (slot p h) <> 0 ->
  peterson_acquire env h role p
  = match acquire_spin env h role (entered h role p) with
    | Some (r, q, env') => Some (to_int r, q, env')
    | None => None
    end.
Proof.
  intros Hh Hrole Hbusy. unfold peterson_acquire, sys_peterson_acquire.
  rewrite (proj2 (bad_lock_or_role_false h role)) by done.
  by destruct (Z.eqb_spec (active (slot p h)) 0).
Qed.

Lemma slot_entered h role (p : ptable) :
  ptable_wf p -> 0 <= h < NPETERSONLOCKS -> role = 0 \/ role = 1 ->
  active (slot (entered h role p) h) = active (slot p h)
  /\ must_wait (slot (entered h role p) h) role
     = (flag (slot p h) (1 - role) =? 1).
Proof.
  intros Hwf Hh Hrole. unfold entered.
  rewrite slot_set_slot_eq by (by rewrite Hwf).
  split; [apply set_flag_frame|].
  unfold must_wait. cbn [turn set_turn]. rewrite Z.eqb_refl, andb_true_r.
  destruct (set_turn_frame (set_flag (slot p h) role 1) (1 - role))
    as (_ & _ & Hflag & _).
  by rewrite Hflag, flag_set_flag_other.
Qed.

Lemma acquire_check_none h role (q : ptable) :
  acquire_check h role q = None <->
  active (slot q h) <> 0 /\ must_wait (slot q h) role = true.
Proof.
  unfold acquire_check.
  destruct (must_wait (slot q h) role),
    (Z.eqb_spec (active (slot q h)) 0); split; try done;
    intros [? ?]; done.
Qed.

Lemma peterson_acquire_alone env h role (p : ptable) :
  ptable_wf p -> 0 <= h < NPETERSONLOCKS -> role = 0 \/ role = 1 ->
  active (slot p h) <> 0 -> flag (slot p h) (1 - role) <> 1 ->
  peterson_acquire env h role p = Some (0, entered h role p, env).
Proof.
  intros Hwf Hh Hrole Hbusy Halone.
  destruct (slot_entered h role p Hwf Hh Hrole) as [Hactive Hwait].
  rewrite peterson_acquire_entered, acquire_spin_unfold by done.
  rewrite acquire_check_enter; [by rewrite to_int_zero|by rewrite Hactive|].
  rewrite Hwait. by destruct (Z.eqb_spec (flag (slot p h) (1 - role)) 1).
Qed.

Lemma peterson_release_active h role (p : ptable) :
  0 <= h < NPETERSONLOCKS -> role = 0 \/ role = 1 ->
  active (slot p h) <> 0 ->
  peterson_release h role p
  = (0, set_slot p h (set_flag (slot p h) role 0)).
Proof.
  intros Hh Hrole Hbusy. unfold peterson_release, sys_peterson_release.
  rewrite (proj2 (bad_lock_or_role_false h role)) by done.
  destruct (Z.eqb_spec (active (slot p h)) 0); [done|].
  by rewrite to_int_zero.
Qed.

(** X7.  On an active slot whose other flag is not 1, acquire returns 0
    at once, without a yield, having set its flag and given the turn away;
    the release that follows returns 0 and clears the flag, so that a slot
    whose flag was 0 differs from the one before the two calls in its turn
    only. *)
Theorem uncontended_acquire (env : yields) (h role : Z) (p : ptable)
  (Hwf : ptable_wf p) (Hh : 0 <= h < NPETERSONLOCKS)
  (Hrole : role = 0 \/ role = 1) (Hbusy : active (slot p h) <> 0)
  (Halone : flag (slot p h) (1 - role) <> 1) :
  peterson_acquire env h role p = Some (0, entered h role p, env)
  /\ peterson_release h role (entered h role p)
     = (0, set_slot p h (set_turn (set_flag (slot p h) role 0) (1 - role)))
  /\ (flag (slot p h) role = 0 ->
      set_slot p h (set_turn (set_flag (slot p h) role 0) (1 - role))
      = set_slot p h (set_turn (slot p h) (1 - role))).
Proof.
  destruct (slot_entered h role p Hwf Hh Hrole) as [Hactive Hwait].
  assert (Hlen : 0 <= h < Z.of_nat (length p)) by (by rewrite Hwf).
  split; [|split].
  - rewrite peterson_acquire_entered, acquire_spin_unfold by done.
    rewrite acquire_check_enter; [by rewrite to_int_zero|by rewrite Hactive|].
    rewrite Hwait. by destruct (Z.eqb_spec (flag (slot p h) (1 - role)) 1).
  - unfold peterson_release, sys_peterson_release.
    rewrite (proj2 (bad_lock_or_role_false h role)) by done.
    rewrite Hactive.
    destruct (Z.eqb_spec (active (slot p h)) 0); [done|].
    rewrite to_int_zero. f_equal. unfold entered.
    rewrite slot_set_slot_eq, set_slot_set_slot by done. f_equal.
    destruct (slot p h) as [nm a f0 f1 tn].
    by destruct Hrole as [-> | ->].
  - intros Hmine. do 2 f_equal.
    destruct (slot p h) as [nm a f0 f1 tn].
    destruct Hrole as [-> | ->]; unfold flag in Hmine; simpl in Hmine;
      by subst.
Qed.

Lemma uncontended_acquire_witness :
  peterson_acquire [] 0 0 (set_slot peterson_init 0 fresh_peterson)
  = Some (0, entered 0 0 (set_slot peterson_init 0 fresh_peterson), []).
Proof.
  apply (uncontended_acquire [] 0 0 (set_slot peterson_init 0 fresh_peterson)).
  - reflexivity.
  - unfold NPETERSONLOCKS. lia.
  - by left.
  - discriminate.
  - discriminate.
Defined.

(** X8.  Release does not check that the caller holds the lock: on an
    active slot whose flag for the role is 0 already it returns 0 and
    leaves the table as it is. *)
Theorem release_without_holding (h role : Z) (p : ptable)
  (Hwf : ptable_wf p) (Hh : 0 <= h < NPETERSONLOCKS)
  (Hrole : role = 0 \/ role = 1) (Hbusy : active (slot p h) <> 0)
  (Hmine : flag (slot p h) role = 0) :
  peterson_release h role p = (0, p).
Proof.
  unfold peterson_release, sys_peterson_release.
  rewrite (proj2 (bad_lock_or_role_false h role)) by done.
  destruct (Z.eqb_spec (active (slot p h)) 0); [done|].
  rewrite to_int_zero. f_equal.
  replace (set_flag (slot p h) role 0) with (slot p h).
  - apply set_slot_same. by rewrite Hwf.
  - destruct (slot p h) as [nm a f0 f1 tn].
    destruct Hrole as [-> | ->]; unfold flag in Hmine; simpl in Hmine;
      by subst.
Qed.

Lemma release_without_holding_witness :
  peterson_release 0 0 held_by_1 = (0, held_by_1).
Proof.
  apply (release_without_holding 0 0 held_by_1).
  - reflexivity.
  - unfold NPETERSONLOCKS. lia.
  - by left.
  - discriminate.
  - reflexivity.
Defined.

Lemma acquire_spin_destroyed rest h role (q : ptable) :
  ptable_wf q -> 0 <= h < NPETERSONLOCKS ->
  acquire_check h role q = None ->
  acquire_spin (after_destroy h :: rest) h role q
  = Some (to_uint64 (-1), after_destroy h q, rest)
  /\ slot (after_destroy h q) h = unnamed_peterson.
Proof.
  intros Hwf Hh Hlast.
  pose proof Hlast as [Hq Hwait]%acquire_check_none.
  assert (Hafter : after_destroy h q = set_slot q h unnamed_peterson).
  { unfold after_destroy, sys_peterson_destroy, peterson_free.
    destruct (Z.ltb_spec h 0); [lia|].
    destruct (Z.geb_spec h NPETERSONLOCKS); [lia|]. cbn [orb].
    by destruct (Z.eqb_spec (active (slot q h)) 0). }
  assert (Hslot : slot (after_destroy h q) h = unnamed_peterson).
  { rewrite Hafter. apply slot_set_slot_eq. by rewrite Hwf. }
  split; [|done].
  rewrite acquire_spin_unfold, Hlast, acquire_spin_unfold.
  rewrite acquire_check_inactive; [done|by rewrite Hslot].
Qed.

Lemma acquire_spin_released rest h role (q : ptable) :
  ptable_wf q -> 0 <= h < NPETERSONLOCKS -> role = 0 \/ role = 1 ->
  acquire_check h role q = None ->
  acquire_spin (after_release h (1 - role) :: rest) h role q
  = Some (to_uint64 0, after_release h (1 - role) q, rest)
  /\ slot (after_release h (1 - role) q) h
     = set_flag (slot q h) (1 - role) 0.
Proof.
  intros Hwf Hh Hrole Hlast.
  pose proof Hlast as [Hq Hwait]%acquire_check_none.
  assert (Hafter : after_release h (1 - role) q
                   = set_slot q h (set_flag (slot q h) (1 - role) 0)).
  { unfold after_release, sys_peterson_release.
    rewrite (proj2 (bad_lock_or_role_false h (1 - role))) by (split; lia).
    by destruct (Z.eqb_spec (active (slot q h)) 0). }
  assert (Hslot : slot (after_release h (1 - role) q) h
                  = set_flag (slot q h) (1 - role) 0).
  { rewrite Hafter. apply slot_set_slot_eq. by rewrite Hwf. }
  split; [|done].
  rewrite acquire_spin_unfold, Hlast, acquire_spin_unfold.
  rewrite acquire_check_enter; [done| |].
  - rewrite Hslot. by rewrite (proj1 (proj2 (set_flag_frame _ _ _))).
  - rewrite Hslot. unfold must_wait. by rewrite flag_set_flag_eq.
Qed.

(** X9.  A caller that is waiting in the loop when the lock is destroyed
    during one of its yields returns -1 from the next check; its own flag
    went with the slot, which is as [peterson_init] leaves one. *)
Theorem destroy_while_waiting (used rest : yields) (h role : Z) (p : ptable)
  (Hh : 0 <= h < NPETERSONLOCKS) (Hrole : role = 0 \/ role = 1)
  (Hbusy : active (slot p h) <> 0)
  (Hwaits : forall k, (k <= length used)%nat ->
     acquire_check h role (after_yields (take k used) (entered h role p))
     = None)
  (Hwf : ptable_wf (after_yields used (entered h role p))) :
  peterson_acquire (used ++ after_destroy h :: rest) h role p
  = Some (-1, after_destroy h (after_yields used (entered h role p)), rest)
  /\ slot (after_destroy h (after_yields used (entered h role p))) h
     = unnamed_peterson.
Proof.
  pose proof (Hwaits (length used) ltac:(done)) as Hlast.
  rewrite firstn_all in Hlast.
  destruct (acquire_spin_destroyed rest h role _ Hwf Hh Hlast)
    as [Hrun Hslot].
  split; [|done].
  rewrite peterson_acquire_entered by done.
  rewrite acquire_spin_after by (intros k Hk; apply Hwaits; lia).
  by rewrite Hrun, to_int_minus_one.
Qed.

Lemma destroy_while_waiting_witness :
  peterson_acquire [after_destroy 0] 0 0 held_by_1
  = Some (-1, after_destroy 0 (entered 0 0 held_by_1), []).
Proof.
  apply (destroy_while_waiting [] [] 0 0 held_by_1).
  - unfold NPETERSONLOCKS. lia.
  - by left.
  - discriminate.
  - intros k Hk. simpl in Hk. assert (k = 0%nat) as -> by lia. reflexivity.
  - reflexivity.
Defined.

(** X10.  A caller that is waiting in the loop when the other role
    releases during one of its yields returns 0 from the next check. *)
Theorem release_hands_over (used rest : yields) (h role : Z) (p : ptable)
  (Hh : 0 <= h < NPETERSONLOCKS) (Hrole : role = 0 \/ role = 1)
  (Hbusy : active (slot p h) <> 0)
  (Hwaits : forall k, (k <= length used)%nat ->
     acquire_check h role (after_yields (take k used) (entered h role p))
     = None)
  (Hwf : ptable_wf (after_yields used (entered h role p))) :
  peterson_acquire (used ++ after_release h (1 - role) :: rest) h role p
  = Some (0, after_release h (1 - role)
               (after_yields used (entered h role p)), rest)
  /\ flag (slot (after_release h (1 - role)
                  (after_yields used (entered h role p))) h) (1 - role) = 0.
Proof.
  pose proof (Hwaits (length used) ltac:(done)) as Hlast.
  rewrite firstn_all in Hlast.
  destruct (acquire_spin_released rest h role _ Hwf Hh Hrole Hlast)
    as [Hrun Hslot].
  split; [|by rewrite Hslot, flag_set_flag_eq].
  rewrite peterson_acquire_entered by done.
  rewrite acquire_spin_after by (intros k Hk; apply Hwaits; lia).
  by rewrite Hrun, to_int_zero.
Qed.

Lemma release_hands_over_witness :
  peterson_acquire [after_release 0 1] 0 0 held_by_1
  = Some (0, after_release 0 1 (entered 0 0 held_by_1), []).
Proof.
  apply (release_hands_over [] [] 0 0 held_by_1).
  - unfold NPETERSONLOCKS. lia.
  - by left.
  - discriminate.
  - intros k Hk. simpl in Hk. assert (k = 0%nat) as -> by lia. reflexivity.
  - reflexivity.
Defined.

Lemma after_create_create (p : ptable) : after_create p = snd (peterson_create p).
Proof.
  unfold after_create, peterson_create.
  by destruct (sys_peterson_create p).
Qed.

(** X11.  A caller that is waiting in the loop while the lock is destroyed
    and its slot allocated again during one yield does not see the
    destruction: it returns 0, and it does so with its own flag at 0 in the
    new lock, which the other role can therefore acquire as well. *)
Theorem recreated_lock_lets_waiter_in (used rest : yields) (h role : Z)
  (p : ptable)
  (Hh : 0 <= h < NPETERSONLOCKS) (Hrole : role = 0 \/ role = 1)
  (Hbusy : active (slot p h) <> 0)
  (Hwaits : forall k, (k <= length used)%nat ->
     acquire_check h role (after_yields (take k used) (entered h role p))
     = None)
  (Hwf : ptable_wf (after_yields used (entered h role p)))
  (Hlow : forall j, 0 <= j < h ->
     active (slot (after_yields used (entered h role p)) j) <> 0) :
  let q := after_yields used (entered h role p) in
  peterson_acquire
    (used ++ (fun q => after_create (after_destroy h q)) :: rest) h role p
  = Some (0, set_slot q h fresh_peterson, rest)
  /\ flag (slot (set_slot q h fresh_peterson) h) role = 0.
Proof.
  intros q.
  pose proof (Hwaits (length used) ltac:(done)) as Hlast.
  rewrite firstn_all in Hlast. fold q in Hlast, Hwf, Hlow.
  pose proof Hlast as [Hq Hwait]%acquire_check_none.
  assert (Hlen : 0 <= h < Z.of_nat (length q)) by (by rewrite Hwf).
  assert (Hdestroy : peterson_destroy h q
                     = Some (0, set_slot q h unnamed_peterson)).
  { unfold peterson_destroy, sys_peterson_destroy, peterson_free.
    destruct (Z.ltb_spec h 0); [lia|].
    destruct (Z.geb_spec h NPETERSONLOCKS); [lia|]. cbn [orb].
    destruct (Z.eqb_spec (active (slot q h)) 0); [done|].
    by rewrite to_int_zero. }
  assert (Hafter : after_create (after_destroy h q)
                   = set_slot q h fresh_peterson).
  { assert (after_destroy h q = set_slot q h unnamed_peterson) as ->.
    { unfold after_destroy. unfold peterson_destroy in Hdestroy.
      destruct (sys_peterson_destroy h q) as [[r q1]|]; [|done].
      by injection Hdestroy as _ ->. }
    rewrite after_create_create.
    destruct (peterson_create (set_slot q h unnamed_peterson))
      as [r q2] eqn:Hcreate.
    by destruct (create_after_destroy q _ q2 h r Hwf Hdestroy Hcreate)
      as (_ & _ & Hsame); destruct (Hsame Hlow) as [_ ->]. }
  assert (Hslot : slot (set_slot q h fresh_peterson) h = fresh_peterson)
    by (by apply slot_set_slot_eq).
  split; [|rewrite Hslot; by destruct Hrole as [-> | ->]].
  rewrite peterson_acquire_entered by done.
  rewrite acquire_spin_after by (intros k Hk; apply Hwaits; lia).
  fold q. rewrite acquire_spin_unfold, Hlast, Hafter.
  rewrite acquire_spin_unfold, acquire_check_enter.
  - by rewrite to_int_zero.
  - by rewrite Hslot.
  - rewrite Hslot. by destruct Hrole as [-> | ->].
Qed.

Lemma recreated_lock_lets_waiter_in_witness :
  peterson_acquire [fun q => after_create (after_destroy 0 q)] 0 0 held_by_1
  = Some (0, set_slot (entered 0 0 held_by_1) 0 fresh_peterson, [])
  /\ flag (slot (set_slot (entered 0 0 held_by_1) 0 fresh_peterson) 0) 0 = 0.
Proof.
  apply (recreated_lock_lets_waiter_in [] [] 0 0 held_by_1).
  - unfold NPETERSONLOCKS. lia.
  - by left.
  - discriminate.
  - intros k Hk. simpl in Hk. assert (k = 0%nat) as -> by lia. reflexivity.
  - reflexivity.
  - intros j Hj. lia.
Defined.

(** ** Two contexts on one slot: progress, frame and the flags *)

Lemma live_step (p : ptable) h role s s' :
  ptable_wf (tbl s) -> 0 <= h < NPETERSONLOCKS -> role = 0 \/ role = 1 ->
  inv (slot (tbl s) h) s -> inv_live p h s -> exec h role s = Some s' ->
  inv_live p h s'.
Proof.
  intros Hwf Hh Hrole Hinv Hlive Hexec.
  assert (Hok : bad_lock_or_role h role = false)
    by (by apply bad_lock_or_role_false).
  destruct s as [q o l0 l1]. simpl in Hwf.
  assert (Hin : 0 <= h < Z.of_nat (length q)) by (by rewrite Hwf).
  pose proof (inv_active _ _ Hinv) as Hactive.
  destruct Hlive as [H0 H1 Ho Hn Ha Hf]. simpl in *.
  unfold exec, pc_of in Hexec. simpl in Hexec. rewrite Hok in Hexec.
  destruct Hrole as [-> | ->]; simpl in Hexec.
  - destruct l0; simpl in Hexec; repeat exec_branch Hexec; simplify_eq;
      unfold goto, write, unlock; simpl;
      (split; simpl; rewrite ?slot_set_slot_eq by done;
       first [done | by auto | by apply set_flag_frame
             | by rewrite <- Ha; apply set_flag_frame
             | by rewrite <- Hn; apply set_flag_frame
             | intros j Hj Hne; rewrite slot_set_slot_ne by lia; by apply Hf
             | idtac]).
  - destruct l1; simpl in Hexec; repeat exec_branch Hexec; simplify_eq;
      unfold goto, write, unlock; simpl;
      (split; simpl; rewrite ?slot_set_slot_eq by done;
       first [done | by auto | by apply set_flag_frame
             | by rewrite <- Ha; apply set_flag_frame
             | by rewrite <- Hn; apply set_flag_frame
             | intros j Hj Hne; rewrite slot_set_slot_ne by lia; by apply Hf
             | idtac]).
Qed.

Lemma flag_set_flag_ne pl i j v :
  (i = 0 \/ i = 1) -> (j = 0 \/ j = 1) -> i <> j ->
  flag (set_flag pl i v) j = flag pl j.
Proof. unfold flag, set_flag. intros [->| ->] [->| ->] ?; done. Qed.

Lemma mirror_step h role s s' :
  ptable_wf (tbl s) -> 0 <= h < NPETERSONLOCKS -> role = 0 \/ role = 1 ->
  inv (slot (tbl s) h) s -> inv_mirror h s -> exec h role s = Some s' ->
  inv_mirror h s'.
Proof.
  intros Hwf Hh Hrole Hinv Hmirror Hexec.
  assert (Hok : bad_lock_or_role h role = false)
    by (by apply bad_lock_or_role_false).
  destruct s as [q o l0 l1]. simpl in Hwf.
  assert (Hin : 0 <= h < Z.of_nat (length q)) by (by rewrite Hwf).
  pose proof (inv_active _ _ Hinv) as Hactive.
  destruct Hmirror as [Hm0 Hm1 Ht]. simpl in *.
  unfold exec, pc_of in Hexec. simpl in Hexec. rewrite Hok in Hexec.
  destruct Hrole as [-> | ->]; simpl in Hexec.
  - destruct l0; simpl in Hexec; repeat exec_branch Hexec; simplify_eq;
      unfold goto, write, unlock; simpl;
      (split; simpl; rewrite ?slot_set_slot_eq by done;
       first [done | by rewrite flag_set_flag_eq
             | by rewrite flag_set_flag_ne by (lia || auto)
             | by auto | idtac]).
  - destruct l1; simpl in Hexec; repeat exec_branch Hexec; simplify_eq;
      unfold goto, write, unlock; simpl;
      (split; simpl; rewrite ?slot_set_slot_eq by done;
       first [done | by rewrite flag_set_flag_eq
             | by rewrite flag_set_flag_ne by (lia || auto)
             | by auto | idtac]).
Qed.

Lemma reachable_live h (p : ptable) s :
  ptable_wf p -> 0 <= h < NPETERSONLOCKS -> active (slot p h) <> 0 ->
  reachable h p s -> inv_live p h s.
Proof.
  intros Hwf Hh Hactive Hreach.
  induction Hreach as [|s s' role Hreach IH Hrole Hexec].
  - split; simpl; by auto.
  - destruct (reachable_inv h p s Hwf Hh Hactive Hreach) as [Hwfs Hinv].
    by eapply live_step.
Qed.

Lemma reachable_mirror h (p : ptable) s :
  ptable_wf p -> 0 <= h < NPETERSONLOCKS -> active (slot p h) <> 0 ->
  flag (slot p h) 0 = 0 -> flag (slot p h) 1 = 0 ->
  turn (slot p h) = 0 \/ turn (slot p h) = 1 ->
  reachable h p s -> inv_mirror h s.
Proof.
  intros Hwf Hh Hactive Hf0 Hf1 Hturn Hreach.
  induction Hreach as [|s s' role Hreach IH Hrole Hexec].
  - by split.
  - destruct (reachable_inv h p s Hwf Hh Hactive Hreach) as [Hwfs Hinv].
    by eapply mirror_step.
Qed.

Lemma exec_owner h role s :
  owns_lk (pc_of s role) = true -> is_Some (exec h role s).
Proof.
  unfold exec. destruct (pc_of s role); try done; intros _; by eexists.
Qed.

Lemma exec_blocked h role s :
  exec h role s = None ->
  pc_of s role = Failed
  \/ (owns_lk (pc_of s role) = false /\ lk_owner s <> None).
Proof.
  unfold exec, lock. destruct (pc_of s role); try done; try (by left);
    destruct s as [q [o|] l0 l1]; unfold goto; simpl;
    destruct (role =? 0); simpl; try done; by right.
Qed.

Lemma one_in_one_waiting_reachable : reachable 0 one_lock one_in_one_waiting.
Proof.
  apply (run_reachable 0 _ (replicate 8 0 ++ replicate 8 1)
           (initial one_lock)); [apply reach_initial|reflexivity].
Qed.

(** X12.  Two contexts that acquire and release an active slot again and
    again: no call of theirs ever fails, in every reachable state one of
    them can take a step, and a context that cannot is only waiting for
    the spinlock, which the other one owns and is about to give back. *)
Theorem no_failure_no_deadlock (p : ptable) (h : Z) (s : state)
  (Hwf : ptable_wf p) (Hh : 0 <= h < NPETERSONLOCKS)
  (Hactive : active (slot p h) <> 0) (Hreach : reachable h p s) :
  pc_0 s <> Failed /\ pc_1 s <> Failed
  /\ (exists role, (role = 0 \/ role = 1) /\ is_Some (exec h role s))
  /\ (forall role, role = 0 \/ role = 1 -> exec h role s = None ->
        lk_owner s = Some (1 - role) /\ is_Some (exec h (1 - role) s)).
Proof.
  destruct (reachable_inv h p s Hwf Hh Hactive Hreach) as [_ Hinv].
  destruct (reachable_live h p s Hwf Hh Hactive Hreach)
    as [H0 H1 Ho _ _ _].
  pose proof (inv_lk_0 _ _ Hinv) as Hlk0.
  pose proof (inv_lk_1 _ _ Hinv) as Hlk1.
  assert (Hblocked : forall role, role = 0 \/ role = 1 ->
            exec h role s = None ->
            lk_owner s = Some (1 - role) /\ is_Some (exec h (1 - role) s)).
  { intros role Hrole Hnone.
    destruct (exec_blocked h role s Hnone) as [Hfailed|[Hnot Hheld]].
    { destruct Hrole as [-> | ->]; unfold pc_of in Hfailed; simpl in *; done. }
    destruct Hrole as [-> | ->]; unfold pc_of in Hnot; simpl in Hnot.
    - assert (lk_owner s = Some 1) as Hone.
      { destruct Ho as [?|[Hz|?]]; [done| |done].
        apply Hlk0 in Hz. congruence. }
      split; [done|]. apply exec_owner. by apply Hlk1.
    - assert (lk_owner s = Some 0) as Hzero.
      { destruct Ho as [?|[?|Hz]]; [done|done|].
        apply Hlk1 in Hz. congruence. }
      split; [done|]. apply exec_owner. by apply Hlk0. }
  split; [done|]. split; [done|]. split; [|done].
  destruct (exec h 0 s) as [s0|] eqn:Hrun0.
  - exists 0. split; [by left|by eexists].
  - exists 1. split; [by right|].
    by destruct (Hblocked 0 ltac:(by left) Hrun0) as [_ ?].
Qed.

Lemma no_failure_no_deadlock_witness :
  pc_0 one_in_one_waiting <> Failed /\ pc_1 one_in_one_waiting <> Failed.
Proof.
  destruct (no_failure_no_deadlock one_lock 0 one_in_one_waiting)
    as (H0 & H1 & _).
  - reflexivity.
  - unfold NPETERSONLOCKS. lia.
  - discriminate.
  - apply one_in_one_waiting_reachable.
  - by split.
Defined.

(** X13.  Acquire and release write the flags and the turn of their slot
    and nothing else: in every reachable state the name and the [active]
    field of the slot and all other slots are as at the start. *)
Theorem contexts_write_flags_and_turn_only (p : ptable) (h : Z) (s : state)
  (Hwf : ptable_wf p) (Hh : 0 <= h < NPETERSONLOCKS)
  (Hactive : active (slot p h) <> 0) (Hreach : reachable h p s) :
  ptable_wf (tbl s)
  /\ name (slot (tbl s) h) = name (slot p h)
  /\ active (slot (tbl s) h) = active (slot p h)
  /\ (forall j, 0 <= j < NPETERSONLOCKS -> j <> h ->
        slot (tbl s) j = slot p j).
Proof.
  destruct (reachable_inv h p s Hwf Hh Hactive Hreach) as [Hwfs _].
  destruct (reachable_live h p s Hwf Hh Hactive Hreach)
    as [_ _ _ Hn Ha Hf].
  split; [done|]. split; [done|]. split; [done|].
  intros j Hj Hne. apply Hf; lia.
Qed.

Lemma contexts_write_flags_and_turn_only_witness :
  active (slot (tbl one_in_one_waiting) 0) = active (slot one_lock 0).
Proof.
  apply (contexts_write_flags_and_turn_only one_lock 0 one_in_one_waiting).
  - reflexivity.
  - unfold NPETERSONLOCKS. lia.
  - discriminate.
  - apply one_in_one_waiting_reachable.
Defined.

(** X14.  On a slot that starts with both flags at 0 and a turn of 0 or
    1, the flag of a context is 1 exactly while the context is between
    the write of its flag in acquire and the write in release; so a
    context whose peer is outside never waits, and with both outside the
    slot is as at the start up to the turn. *)
Theorem flags_mirror_control_points (p : ptable) (h : Z) (s : state)
  (Hwf : ptable_wf p) (Hh : 0 <= h < NPETERSONLOCKS)
  (Hactive : active (slot p h) <> 0)
  (Hflag0 : flag (slot p h) 0 = 0) (Hflag1 : flag (slot p h) 1 = 0)
  (Hturn : turn (slot p h) = 0 \/ turn (slot p h) = 1)
  (Hreach : reachable h p s) :
  flag (slot (tbl s) h) 0 = (if interested (pc_0 s) then 1 else 0)
  /\ flag (slot (tbl s) h) 1 = (if interested (pc_1 s) then 1 else 0)
  /\ (turn (slot (tbl s) h) = 0 \/ turn (slot (tbl s) h) = 1)
  /\ (forall role, role = 0 \/ role = 1 ->
        interested (pc_of s (1 - role)) = false ->
        must_wait (slot (tbl s) h) role = false)
  /\ (interested (pc_0 s) = false -> interested (pc_1 s) = false ->
        slot (tbl s) h = set_turn (slot p h) (turn (slot (tbl s) h))).
Proof.
  destruct (reachable_mirror h p s Hwf Hh Hactive Hflag0 Hflag1 Hturn Hreach)
    as [Hm0 Hm1 Ht].
  destruct (reachable_live h p s Hwf Hh Hactive Hreach)
    as [_ _ _ Hn Ha _].
  unfold mirror in *.
  split; [done|]. split; [done|]. split; [done|]. split.
  - intros role [-> | ->] Hout; unfold pc_of in Hout; simpl in Hout;
      unfold must_wait.
    + change (1 - 0) with 1. by rewrite Hm1, Hout.
    + change (1 - 1) with 0. by rewrite Hm0, Hout.
  - intros Hout0 Hout1. rewrite Hout0 in Hm0. rewrite Hout1 in Hm1.
    unfold flag in *. simpl in *.
    destruct (slot (tbl s) h) as [nm a f0 f1 tn].
    destruct (slot p h) as [nm' a' f0' f1' tn'].
    simpl in *. unfold set_turn. simpl. by subst.
Qed.

Lemma flags_mirror_control_points_witness :
  flag (slot (tbl one_in_one_waiting) 0) 0 = 1.
Proof.
  apply (flags_mirror_control_points one_lock 0 one_in_one_waiting).
  - reflexivity.
  - unfold NPETERSONLOCKS. lia.
  - discriminate.
  - reflexivity.
  - reflexivity.
  - by left.
  - apply one_in_one_waiting_reachable.
Defined.

Lemma passed_interested l : passed l = true -> interested l = true.
Proof. apply pc_facts. Qed.

Lemma contending_interested l : contending l = true -> interested l = true.
Proof. apply pc_facts. Qed.

(** X15.  The wait condition: with both contexts in the loop exactly one
    of them has to wait; a context in the loop has to wait while the other
    one is past it; and the context that writes the turn while the other
    is in the loop has to wait, which lets the other one through. *)
Theorem wait_condition_in_the_loop (p : ptable) (h : Z) (s : state)
  (Hwf : ptable_wf p) (Hh : 0 <= h < NPETERSONLOCKS)
  (Hactive : active (slot p h) <> 0) (Hreach : reachable h p s) :
  (contending (pc_0 s) = true -> contending (pc_1 s) = true ->
   must_wait (slot (tbl s) h) 0 = negb (must_wait (slot (tbl s) h) 1))
  /\ (forall role, role = 0 \/ role = 1 ->
        contending (pc_of s role) = true ->
        passed (pc_of s (1 - role)) = true ->
        must_wait (slot (tbl s) h) role = true)
  /\ (forall role s', role = 0 \/ role = 1 ->
        pc_of s role = AcqTurn ->
        contending (pc_of s (1 - role)) = true ->
        exec h role s = Some s' ->
        must_wait (slot (tbl s') h) role = true
        /\ must_wait (slot (tbl s') h) (1 - role) = false).
Proof.
  destruct (reachable_inv h p s Hwf Hh Hactive Hreach) as [Hwfs Hinv].
  destruct Hinv as [Ha Hl0 Hl1 Hf0 Hf1 Ht010 Ht011 Ht0 Ht1 Hex].
  assert (Hin : 0 <= h < Z.of_nat (length (tbl s))) by (by rewrite Hwfs).
  split; [|split].
  - intros Hc0 Hc1. unfold must_wait.
    change (1 - 0) with 1. change (1 - 1) with 0.
    rewrite Hf0, Hf1 by (by apply contending_interested).
    destruct Ht010 as [-> | ->]; [by rewrite Hc0|done|done].
  - intros role [-> | ->] Hc Hp; unfold pc_of in Hc, Hp; simpl in Hc, Hp;
      unfold must_wait.
    + change (1 - 0) with 1.
      rewrite Hf1 by (by apply passed_interested). by rewrite (Ht1 Hp Hc).
    + change (1 - 1) with 0.
      rewrite Hf0 by (by apply passed_interested). by rewrite (Ht0 Hp Hc).
  - intros role s' [-> | ->] Hpc Hc; unfold pc_of in Hpc, Hc;
      simpl in Hpc, Hc; unfold exec, pc_of; simpl; rewrite Hpc;
      intros [= <-]; unfold write, goto; simpl;
      rewrite slot_set_slot_eq by done; unfold must_wait;
      change (1 - 0) with 1; change (1 - 1) with 0;
      change (flag (set_turn (slot (tbl s) h) ?v) ?i)
        with (flag (slot (tbl s) h) i); cbn [turn set_turn].
    + rewrite Hf1 by (by apply contending_interested).
      split; [done|apply andb_false_r].
    + rewrite Hf0 by (by apply contending_interested).
      split; [done|apply andb_false_r].
Qed.

Lemma wait_condition_in_the_loop_witness :
  must_wait (slot (tbl one_in_one_waiting) 0) 1 = true.
Proof.
  refine (proj1 (proj2 (wait_condition_in_the_loop one_lock 0
                          one_in_one_waiting _ _ _ _)) 1 _ _ _).
  - reflexivity.
  - unfold NPETERSONLOCKS. lia.
  - discriminate.
  - apply one_in_one_waiting_reachable.
  - by right.
  - reflexivity.
  - reflexivity.
Defined.

(** ** The tournament tree: the logarithm, the layout and the paths *)

(** X16.  [get_log2_if_power_of_2] on any [int]: the exponent for a power
    of two (the 32 iterations the loop is given are never used up), -1 for
    everything else. *)
Theorem get_log2_if_power_of_2_correct (n : Z)
  (Hint : - 2 ^ 31 <= n < 2 ^ 31) :
  (is_power_of_two n ->
   0 <= get_log2_if_power_of_2 n <= 30 /\ n = 2 ^ get_log2_if_power_of_2 n)
  /\ (~ is_power_of_two n -> get_log2_if_power_of_2 n = -1).
Proof. by apply get_log2_if_power_of_2_int. Qed.

Lemma get_log2_if_power_of_2_correct_witness :
  0 <= get_log2_if_power_of_2 8 <= 30 /\ 8 = 2 ^ get_log2_if_power_of_2 8.
Proof.
  refine (proj1 (get_log2_if_power_of_2_correct 8 _) _).
  - split; [discriminate|reflexivity].
  - exists 3. by split.
Defined.

(** X17.  [tournament_release] of a participant calls release on the
    pairs of its acquire path in the reverse order, root first, and stops
    at the first call that fails; whatever the system calls do. *)
Theorem tree_release_walk {K : Type} `{!Xv6 K} (t : tournament) (k : K)
  (Hvalid : valid_tournament t) :
  release_agrees (tournament_release t k)
    (release_along t
       (rev (spec_path (L_levels t) (my_id t)
               (levels_down (Z.to_nat (L_levels t))))) k).
Proof. by apply tree_release_traversal. Qed.

Lemma tree_release_walk_witness :
  release_agrees
    (tournament_release (fst (participant 4 3)) (snd (participant 4 3)))
    (release_along (fst (participant 4 3)) [(0, 1); (2, 1)]
       (snd (participant 4 3))).
Proof.
  exact (tree_release_walk (fst (participant 4 3)) (snd (participant 4 3))
           participant_4_3_valid).
Defined.

Lemma land_one x : Z.land x 1 = x mod 2.
Proof. exact (Z.land_ones x 1 ltac:(lia)). Qed.

Lemma role_at_level_bit L id l :
  role_at_level L id l = 0 \/ role_at_level L id l = 1.
Proof.
  unfold role_at_level. rewrite land_one.
  pose proof (Z.mod_pos_bound (Z.shiftr id (L - 1 - l)) 2 ltac:(lia)).
  lia.
Qed.

Lemma array_idx_child L id l :
  0 <= l -> l + 1 < L ->
  array_idx L id (l + 1)
  = 2 * array_idx L id l + 1 + role_at_level L id l.
Proof.
  intros Hl HL. unfold array_idx, role_at_level.
  replace (L - (l + 1)) with (L - 1 - l) by lia.
  replace (L - l) with (L - 1 - l + 1) by lia.
  rewrite <- (Z.shiftr_shiftr id (L - 1 - l) 1) by lia.
  set (x := Z.shiftr id (L - 1 - l)).
  rewrite !Z.shiftl_1_l, Z.pow_add_r, land_one by lia.
  rewrite Z.shiftr_div_pow2 by lia. change (2 ^ 1) with 2.
  pose proof (Z.div_mod x 2 ltac:(lia)). lia.
Qed.

Lemma array_idx_level L id l :
  0 <= l < L -> 0 <= id < 2 ^ L ->
  2 ^ l - 1 <= array_idx L id l < 2 ^ (l + 1) - 1.
Proof.
  intros Hl Hid. rewrite array_idx_spec by lia. unfold spec_array_index.
  rewrite Z.shiftr_div_pow2 by lia.
  assert (Hsplit : 2 ^ L = 2 ^ (L - l) * 2 ^ l).
  { rewrite <- Z.pow_add_r by lia. f_equal. lia. }
  assert (Hpos : 0 < 2 ^ (L - l)) by (apply Z.pow_pos_nonneg; lia).
  assert (Hgroup : 0 <= id / 2 ^ (L - l) < 2 ^ l).
  { split; [apply Z.div_pos; lia|]. apply Z.div_lt_upper_bound; lia. }
  rewrite Z.pow_add_r by lia. lia.
Qed.

Lemma array_idx_root L id :
  0 <= L -> 0 <= id < 2 ^ L -> array_idx L id 0 = 0.
Proof.
  intros HL Hid. unfold array_idx.
  rewrite Z.sub_0_r, Z.shiftr_div_pow2, Z.div_small by lia. done.
Qed.

Lemma array_idx_leaf L id :
  1 <= L ->
  id = 2 * (array_idx L id (L - 1) - (2 ^ (L - 1) - 1))
       + role_at_level L id (L - 1).
Proof.
  intros HL. unfold array_idx, role_at_level.
  replace (L - (L - 1)) with 1 by lia.
  replace (L - 1 - (L - 1)) with 0 by lia.
  rewrite Z.shiftl_1_l, Z.shiftr_0_r, land_one.
  rewrite Z.shiftr_div_pow2 by lia. change (2 ^ 1) with 2.
  pose proof (Z.div_mod id 2 ltac:(lia)). lia.
Qed.

(** X18.  The indices are those of a complete binary tree stored level
    by level: level 0 is index 0, level [l] is the range
    [2^l - 1 .. 2^(l+1) - 2], the role is 0 or 1, the lock at level [l+1]
    is child [role] of the lock at level [l] (index [2 i + 1 + role]), and
    the leaf lock with the leaf role gives the id back. *)
Theorem tree_layout (L id : Z) (HL : 1 <= L) (Hid : 0 <= id < 2 ^ L) :
  array_idx L id 0 = 0
  /\ (forall l, 0 <= l < L ->
        2 ^ l - 1 <= array_idx L id l < 2 ^ (l + 1) - 1
        /\ (role_at_level L id l = 0 \/ role_at_level L id l = 1))
  /\ (forall l, 0 <= l -> l + 1 < L ->
        array_idx L id (l + 1)
        = 2 * array_idx L id l + 1 + role_at_level L id l)
  /\ id = 2 * (array_idx L id (L - 1) - (2 ^ (L - 1) - 1))
          + role_at_level L id (L - 1).
Proof.
  split; [apply array_idx_root; lia|]. split; [|split].
  - intros l Hl. split; [by apply array_idx_level|apply role_at_level_bit].
  - intros l Hl Hnext. by apply array_idx_child.
  - by apply array_idx_leaf.
Qed.

Lemma tree_layout_witness :
  array_idx 2 3 0 = 0 /\ 3 = 2 * (array_idx 2 3 1 - (2 ^ 1 - 1)) + role_at_level 2 3 1.
Proof.
  destruct (tree_layout 2 3) as (Hroot & _ & _ & Hleaf).
  - lia.
  - split; [discriminate|reflexivity].
  - by split.
Defined.

Lemma same_lock_parent L a b l :
  0 <= l -> l + 1 < L ->
  array_idx L a (l + 1) = array_idx L b (l + 1) ->
  array_idx L a l = array_idx L b l
  /\ role_at_level L a l = role_at_level L b l.
Proof.
  intros Hl HL. rewrite !array_idx_child by lia.
  pose proof (role_at_level_bit L a l). pose proof (role_at_level_bit L b l).
  lia.
Qed.

Lemma same_lock_below L a b (n : nat) l :
  0 <= l -> l + Z.of_nat n < L ->
  array_idx L a (l + Z.of_nat n) = array_idx L b (l + Z.of_nat n) ->
  array_idx L a l = array_idx L b l
  /\ ((0 < n)%nat -> role_at_level L a l = role_at_level L b l).
Proof.
  revert l. induction n as [|n IH]; intros l Hl HL Hsame.
  - rewrite Z.add_0_r in Hsame. split; [done|lia].
  - replace (l + Z.of_nat (S n)) with (l + 1 + Z.of_nat n) in * by lia.
    destruct (IH (l + 1) ltac:(lia) ltac:(lia) Hsame) as [Hnext _].
    destruct (same_lock_parent L a b l Hl ltac:(lia) Hnext). by split.
Qed.

Lemma meeting_level L a b (n : nat) l :
  0 <= l -> l + Z.of_nat n = L - 1 -> a <> b ->
  array_idx L a l = array_idx L b l ->
  (forall l', 0 <= l' < l ->
     array_idx L a l' = array_idx L b l'
     /\ role_at_level L a l' = role_at_level L b l') ->
  exists m, 0 <= m < L
    /\ array_idx L a m = array_idx L b m
    /\ role_at_level L a m <> role_at_level L b m
    /\ (forall l', 0 <= l' < m ->
          array_idx L a l' = array_idx L b l'
          /\ role_at_level L a l' = role_at_level L b l')
    /\ (forall l', m < l' < L -> array_idx L a l' <> array_idx L b l').
Proof.
  revert l. induction n as [|n IH]; intros l Hl HL Hne Hsame Hbelow;
    (destruct (decide (role_at_level L a l = role_at_level L b l))
       as [Hrole|Hrole];
     [|exists l; split; [lia|]; split; [done|]; split; [done|];
       split; [done|];
       intros l' Hl' Hsame';
       destruct (same_lock_below L a b (Z.to_nat (l' - l)) l Hl
                   ltac:(lia)
                   ltac:(by replace (l + Z.of_nat (Z.to_nat (l' - l)))
                           with l' by lia))
         as [_ Hr]; apply Hrole, Hr; lia]).
  - exfalso. apply Hne.
    assert (l = L - 1) as -> by lia.
    rewrite (array_idx_leaf L a), (array_idx_leaf L b) by lia.
    by rewrite Hsame, Hrole.
  - apply (IH (l + 1)); [lia|lia|done| |].
    + rewrite !array_idx_child by lia. by rewrite Hsame, Hrole.
    + intros l' Hl'. destruct (decide (l' = l)) as [->|]; [done|].
      apply Hbelow. lia.
Qed.

(** X19.  Two different participants meet at exactly one level: there
    they use the same lock with different roles; above it (towards the
    root) they use the same locks with the same role; below it their locks
    differ. *)
Theorem participants_meet_once (L a b : Z)
  (HL : 1 <= L) (Ha : 0 <= a < 2 ^ L) (Hb : 0 <= b < 2 ^ L)
  (Hne : a <> b) :
  exists m, 0 <= m < L
    /\ array_idx L a m = array_idx L b m
    /\ role_at_level L a m <> role_at_level L b m
    /\ (forall l, 0 <= l < m ->
          array_idx L a l = array_idx L b l
          /\ role_at_level L a l = role_at_level L b l)
    /\ (forall l, m < l < L -> array_idx L a l <> array_idx L b l).
Proof.
  apply (meeting_level L a b (Z.to_nat (L - 1)) 0); [lia|lia|done| |lia].
  by rewrite !array_idx_root by lia.
Qed.

Lemma participants_meet_once_witness :
  exists m, 0 <= m < 2
    /\ array_idx 2 0 m = array_idx 2 3 m
    /\ role_at_level 2 0 m <> role_at_level 2 3 m
    /\ (forall l, 0 <= l < m ->
          array_idx 2 0 l = array_idx 2 3 l
          /\ role_at_level 2 0 l = role_at_level 2 3 l)
    /\ (forall l, m < l < 2 -> array_idx 2 0 l <> array_idx 2 3 l).
Proof.
  apply (participants_meet_once 2 0 3).
  - lia.
  - split; [discriminate|reflexivity].
  - split; [discriminate|reflexivity].
  - discriminate.
Defined.

(** ** The tournament tree: what creation leaves behind *)

Lemma with_table_same (w : world) : with_table w (table w) = w.
Proof. by destruct w. Qed.

Lemma create_locks_sequence (m i : nat) (a : list Z) (w : world) :
  ptable_wf (table w) -> (m <= free_slots (table w))%nat ->
  (i + m <= length a)%nat ->
  create_locks m (Z.of_nat i) a w
  = (None,
     take i a ++ fst (create_in_sequence m (table w)) ++ drop (i + m) a,
     with_table w (snd (create_in_sequence m (table w)))).
Proof.
  revert i a w. induction m as [|m IH]; intros i a w Hwf Hfree Hlen.
  - simpl. rewrite Nat.add_0_r, take_drop. by rewrite with_table_same.
  - cbn [create_locks create_in_sequence call_peterson_create world_xv6].
    unfold world_create.
    destruct (peterson_create_free (table w) Hwf ltac:(lia))
      as (r & p1 & Hcreate & Hr & Hwf1 & Hcount).
    rewrite Hcreate, Nat2Z.id.
    rewrite list_lookup_total_insert_eq by lia.
    destruct (Z.ltb_spec r 0); [lia|].
    replace (Z.of_nat i + 1) with (Z.of_nat (S i)) by lia.
    rewrite (IH (S i) (<[i:=r]> a) (with_table w p1) Hwf1)
      by (rewrite ?length_insert; simpl; lia).
    simpl table.
    destruct (create_in_sequence m p1) as [rs p2]. simpl.
    assert (Harray : take (S i) (<[i:=r]> a) ++ rs ++ drop (S i + m) (<[i:=r]> a)
                     = take i a ++ (r :: rs) ++ drop (i + S m) a).
    { rewrite (take_S_r _ _ r) by (apply list_lookup_insert_eq; lia).
      rewrite take_insert_ge, drop_insert_lt by lia.
      rewrite <- app_assoc. simpl.
      by replace (S (i + m)) with (i + S m)%nat by lia. }
    change (S (i + m)) with (S i + m)%nat. rewrite Harray. by destruct w.
Qed.

Lemma fork_children_pids (pids later : list Z) (m : nat) i t (w : world) :
  forks w = pids ++ later -> Forall (fun pid => 0 < pid) pids ->
  (length pids <= m)%nat ->
  fork_children m i t w
  = fork_children (m - length pids) (i + Z.of_nat (length pids)) t
      (mk_world (table w) (env w) (mallocs w) later (trace w)).
Proof.
  revert m i w. induction pids as [|pid pids IH]; intros m i w Hforks Hpos Hm.
  - simpl in *. rewrite Nat.sub_0_r, Z.add_0_r. destruct w; simpl in *.
    by subst.
  - destruct m as [|m]; [simpl in Hm; lia|].
    apply Forall_cons in Hpos as [Hpid Hpos].
    cbn [fork_children call_fork world_xv6]. unfold world_fork.
    rewrite Hforks. simpl.
    destruct (Z.ltb_spec pid 0); [lia|].
    destruct (Z.eqb_spec pid 0); [lia|].
    rewrite (IH m (i + 1) (mk_world (table w) (env w) (mallocs w)
                             (pids ++ later) (trace w)) eq_refl Hpos)
      by (simpl in Hm; lia).
    simpl. f_equal. lia.
Qed.

Lemma tournament_create_locks n t (w : world) b rest :
  ptable_wf (table w) -> is_power_of_two n -> 2 <= n <= 16 ->
  mallocs w = Some b :: rest ->
  n - 1 <= Z.of_nat (free_slots (table w)) ->
  tournament_create n t w
  = fork_children (Z.to_nat (n - 1)) 1
      (participant_state n 0 (table w))
      (mk_world (table_of n (table w)) (env w) rest (forks w) (trace w)).
Proof.
  intros Hwf Hpow Hn Hmalloc Hfree.
  destruct (get_log2_upto_16 n ltac:(lia)) as [_ Hlog].
  destruct (Hlog Hpow) as (_ & HL & HnL). clear Hlog.
  unfold tournament_create.
  destruct (Z.gtb_spec n 16); [lia|].
  destruct (Z.eqb_spec (get_log2_if_power_of_2 n) (-1)); [lia|].
  destruct (Z.gtb_spec (n - 1) 0); [|lia].
  cbn [call_malloc world_xv6]. unfold world_malloc. rewrite Hmalloc.
  cbn [fmap option_fmap option_map].
  set (w1 := mk_world _ _ rest _ _).
  set (a := resize _ 0 b).
  assert (Ha : length a = Z.to_nat (n - 1)).
  { unfold a. by rewrite length_resize, Z.div_mul by lia. }
  change 0 with (Z.of_nat 0) at 1.
  rewrite (create_locks_sequence (Z.to_nat (n - 1)) 0 a w1 Hwf)
    by (simpl; lia).
  rewrite take_0, drop_ge by (simpl; lia). rewrite app_nil_r. simpl.
  done.
Qed.

Lemma participant_state_valid n id (p : ptable) :
  ptable_wf p -> is_power_of_two n -> 2 <= n <= 16 -> 0 <= id < n ->
  n - 1 <= Z.of_nat (free_slots p) ->
  valid_tournament (participant_state n id p).
Proof.
  intros Hwf Hpow Hn Hid Hfree.
  destruct (get_log2_upto_16 n ltac:(lia)) as [_ Hlog].
  destruct (Hlog Hpow) as (_ & HL & HnL). clear Hlog.
  split; simpl; try done.
  - destruct (decide (get_log2_if_power_of_2 n = 0)) as [Hzero|]; [|lia].
    rewrite Hzero in HnL. simpl in HnL. lia.
  - eexists. split; [done|]. unfold lock_ids_of.
    pose proof (create_in_sequence_spec (Z.to_nat (n - 1)) p Hwf) as H.
    cbn zeta in H. destruct (create_in_sequence _ p) as [rs p'].
    destruct H as (_ & Hlen & _). simpl. lia.
Qed.

Lemma four_is_power_of_two : is_power_of_two 4.
Proof. exists 2. by split. Qed.

(** X20.  [tournament_create(n)] on the kernel, with enough free slots and
    a [malloc] that succeeds: the process that sees [n - 1] forks return
    a child's pid gets id 0; the process that sees [id - 1] of them and
    then 0 gets [id]; the process that sees a fork fail gets -1 with the
    fork diagnostic while the locks stay allocated; every id from 0 to
    [n - 1] comes with valid globals, and [n - 1] slots have left the
    pool. *)
Theorem tournament_create_assigns_ids (n : Z) (t : tournament) (w : world)
  (b : list Z) (rest : list (option (list Z)))
  (Hwf : ptable_wf (table w)) (Hpow : is_power_of_two n)
  (Hn : 2 <= n <= 16) (Hmalloc : mallocs w = Some b :: rest)
  (Hfree : n - 1 <= Z.of_nat (free_slots (table w))) :
  let after later :=
    mk_world (table_of n (table w)) (env w) rest later (trace w) in
  (forall pids later,
     forks w = pids ++ later -> Forall (fun pid => 0 < pid) pids ->
     Z.of_nat (length pids) = n - 1 ->
     tournament_create n t w
     = (0, [], participant_state n 0 (table w), after later))
  /\ (forall pids later id,
        forks w = pids ++ 0 :: later -> Forall (fun pid => 0 < pid) pids ->
        Z.of_nat (length pids) = id - 1 -> 1 <= id < n ->
        tournament_create n t w
        = (id, [], participant_state n id (table w), after later))
  /\ (forall pids later pid,
        forks w = pids ++ pid :: later -> Forall (fun pid => 0 < pid) pids ->
        Z.of_nat (length pids) < n - 1 -> pid < 0 ->
        tournament_create n t w
        = (-1, [create_fork_failed (Z.of_nat (length pids) + 1)],
           participant_state n 0 (table w), after later))
  /\ (forall id, 0 <= id < n ->
        valid_tournament (participant_state n id (table w)))
  /\ Z.of_nat (free_slots (table_of n (table w)))
     = Z.of_nat (free_slots (table w)) - (n - 1).
Proof.
  intros after.
  pose proof (tournament_create_locks n t w b rest Hwf Hpow Hn Hmalloc Hfree)
    as Hrun.
  split; [|split; [|split; [|split]]].
  - intros pids later Hforks Hpos Hlen. rewrite Hrun.
    rewrite (fork_children_pids pids later) by (simpl; (done || lia)).
    replace (Z.to_nat (n - 1) - length pids)%nat with 0%nat by lia. done.
  - intros pids later id Hforks Hpos Hlen Hid. rewrite Hrun.
    rewrite (fork_children_pids pids (0 :: later)) by (simpl; (done || lia)).
    destruct (Z.to_nat (n - 1) - length pids)%nat as [|m] eqn:Hm; [lia|].
    simpl. by replace (1 + Z.of_nat (length pids)) with id by lia.
  - intros pids later pid Hforks Hpos Hlen Hpid. rewrite Hrun.
    rewrite (fork_children_pids pids (pid :: later))
      by (simpl; (done || lia)).
    destruct (Z.to_nat (n - 1) - length pids)%nat as [|m] eqn:Hm; [lia|].
    simpl. destruct (Z.ltb_spec pid 0); [|lia].
    by rewrite (Z.add_comm 1).
  - intros id Hid. by apply participant_state_valid.
  - unfold table_of.
    pose proof (create_in_sequence_spec (Z.to_nat (n - 1)) (table w) Hwf)
      as H.
    cbn zeta in H. destruct (create_in_sequence _ (table w)) as [rs p'].
    destruct H as (_ & _ & _ & _ & _ & _ & Hcount). simpl. lia.
Qed.

Lemma tournament_create_assigns_ids_witness :
  tournament_create 4 no_tournament (boot 1 [1; 2; 0])
  = (3, [], participant_state 4 3 peterson_init,
     mk_world (table_of 4 peterson_init) [] [] [] []).
Proof.
  refine (proj1 (proj2 (tournament_create_assigns_ids 4 no_tournament
                          (boot 1 [1; 2; 0]) [] [] _ _ _ _ _))
            [1; 2] [] 3 _ _ _ _).
  - reflexivity.
  - apply four_is_power_of_two.
  - lia.
  - reflexivity.
  - discriminate.
  - reflexivity.
  - repeat constructor.
  - reflexivity.
  - lia.
Defined.

(** X21.  The lock array after [tournament_create(n)]: [n - 1] pairwise
    different handles, each of a slot that was free before the call and is
    freshly allocated after it; the slots that were in use are
    untouched. *)
Theorem tournament_lock_array (n : Z) (t : tournament) (w : world)
  (b : list Z) (rest : list (option (list Z)))
  (Hwf : ptable_wf (table w)) (Hpow : is_power_of_two n)
  (Hn : 2 <= n <= 16) (Hmalloc : mallocs w = Some b :: rest)
  (Hfree : n - 1 <= Z.of_nat (free_slots (table w))) :
  let '(r, d, t', w') := tournament_create n t w in
  exists ids,
    peterson_lock_ids_array t' = Some ids
    /\ Z.of_nat (length ids) = n - 1
    /\ NoDup ids
    /\ (forall i, 0 <= i < n - 1 ->
          0 <= lock_id_at t' i < NPETERSONLOCKS
          /\ active (slot (table w) (lock_id_at t' i)) = 0
          /\ slot (table w') (lock_id_at t' i) = fresh_peterson)
    /\ (forall j, 0 <= j < NPETERSONLOCKS -> active (slot (table w) j) <> 0 ->
          slot (table w') j = slot (table w) j).
Proof.
  rewrite (tournament_create_locks n t w b rest Hwf Hpow Hn Hmalloc Hfree).
  set (t0 := participant_state n 0 (table w)).
  set (w0 := mk_world _ _ _ _ _).
  pose proof (fork_children_world (Z.to_nat (n - 1)) 1 t0 w0 ltac:(done)
                ltac:(lia)) as Htable.
  pose proof (fork_children_spec (Z.to_nat (n - 1)) 1 t0 w0 ltac:(done)
                ltac:(lia)) as Hfork.
  destruct (fork_children (Z.to_nat (n - 1)) 1 t0 w0) as [[[r d] t'] w'].
  destruct Htable as (-> & _ & _).
  assert (Harray : peterson_lock_ids_array t'
                   = Some (lock_ids_of n (table w))).
  { by destruct Hfork as [(_ & -> & _)|(_ & _ & -> & _)]. }
  unfold lock_id_at. rewrite Harray. simpl.
  unfold lock_ids_of, table_of.
  pose proof (create_in_sequence_spec (Z.to_nat (n - 1)) (table w) Hwf)
    as H.
  cbn zeta in H. destruct (create_in_sequence _ (table w)) as [rs p'].
  destruct H as (_ & Hlen & _ & Hnodup & Hin & Hframe & _).
  rewrite Nat.min_l in Hnodup, Hin by lia.
  rewrite take_ge in Hnodup, Hin by lia. simpl.
  exists rs. split; [done|]. split; [lia|]. split; [done|].
  split; [|done].
  intros i Hi. apply Hin. apply list_elem_of_lookup_total_2. lia.
Qed.

Lemma tournament_lock_array_witness :
  let '(r, d, t', w') := tournament_create 4 no_tournament (boot 1 [1; 2; 0]) in
  exists ids,
    peterson_lock_ids_array t' = Some ids
    /\ Z.of_nat (length ids) = 4 - 1
    /\ NoDup ids
    /\ (forall i, 0 <= i < 4 - 1 ->
          0 <= lock_id_at t' i < NPETERSONLOCKS
          /\ active (slot (table (boot 1 [1; 2; 0])) (lock_id_at t' i)) = 0
          /\ slot (table w') (lock_id_at t' i) = fresh_peterson)
    /\ (forall j, 0 <= j < NPETERSONLOCKS ->
          active (slot (table (boot 1 [1; 2; 0])) j) <> 0 ->
          slot (table w') j = slot (table (boot 1 [1; 2; 0])) j).
Proof.
  apply (tournament_lock_array 4 no_tournament (boot 1 [1; 2; 0]) [] []).
  - reflexivity.
  - apply four_is_power_of_two.
  - lia.
  - reflexivity.
  - discriminate.
Defined.

(** X22.  A [tournament_create] that returns -1 on globals that were not
    initialised either failed in [fork], as the parent with id 0, or
    leaves [my_id] at -1, and then [tournament_acquire] and
    [tournament_release] return -1 without a system call; a create that
    returns an id has stored it and written no diagnostic. *)
Theorem failed_create_leaves_no_tournament {K : Type} `{!Xv6 K}
  (n : Z) (t t' : tournament) (k k' : K) (r : Z) (d : list diagnostic)
  (Hfresh : my_id t = -1)
  (Hrun : tournament_create n t k = (r, d, t', k')) :
  (r = -1 ->
   (exists i, d = [create_fork_failed i] /\ my_id t' = 0 /\ N_processes t' = n)
   \/ (my_id t' = -1
       /\ forall k2 : K,
            tournament_acquire t' k2 = Some (-1, [acquire_not_initialized], k2)
            /\ tournament_release t' k2 = (-1, [release_not_initialized], k2)))
  /\ (0 <= r -> my_id t' = r /\ N_processes t' = n /\ d = []).
Proof.
  assert (Hrefuse : forall t1, my_id t1 = -1 -> forall k2 : K,
            tournament_acquire t1 k2 = Some (-1, [acquire_not_initialized], k2)
            /\ tournament_release t1 k2
               = (-1, [release_not_initialized], k2)).
  { intros t1 Hid k2. unfold tournament_acquire, tournament_release.
    by rewrite Hid. }
  unfold tournament_create in Hrun.
  destruct (n >? 16);
    [injection Hrun as <- <- <- <-; split; [right; by split; [|apply Hrefuse]|lia]|].
  destruct (get_log2_if_power_of_2 n =? -1);
    [injection Hrun as <- <- <- <-; split; [right; by split; [|apply Hrefuse]|lia]|].
  assert (Hfork : forall m t1 k1, my_id t1 = 0 -> N_processes t1 = n ->
            fork_children m 1 t1 k1 = (r, d, t', k') ->
            (r = -1 ->
             exists i, d = [create_fork_failed i] /\ my_id t' = 0
                       /\ N_processes t' = n)
            /\ (0 <= r -> my_id t' = r /\ N_processes t' = n /\ d = [])).
  { intros m t1 k1 Hid HN Hf.
    pose proof (fork_children_spec m 1 t1 k1 ltac:(lia) ltac:(lia)) as Hs.
    rewrite Hf in Hs.
    destruct Hs as [(-> & -> & j & ->)|(Hr & -> & -> & _)].
    - split; [|lia]. intros _. by exists j.
    - split; [lia|]. by intros _. }
  destruct (n - 1 >? 0).
  - destruct (call_malloc _ k) as [[a|] k1].
    + destruct (create_locks _ 0 a k1) as [[[i|] a1] k2].
      * injection Hrun as <- <- <- <-.
        split; [right; by split; [|apply Hrefuse]|lia].
      * apply Hfork in Hrun as [Hfail Hok]; [|done..].
        split; [|done]. intros Hr. left. by apply Hfail.
    + injection Hrun as <- <- <- <-.
      split; [right; by split; [|apply Hrefuse]|lia].
  - apply Hfork in Hrun as [Hfail Hok]; [|done..].
    split; [|done]. intros Hr. left. by apply Hfail.
Qed.

Lemma failed_create_leaves_no_tournament_witness :
  tournament_acquire no_tournament (boot 1 [])
  = Some (-1, [acquire_not_initialized], boot 1 []).
Proof.
  destruct (failed_create_leaves_no_tournament 3 no_tournament no_tournament
              (boot 1 []) (boot 1 []) (-1) [create_not_power_of_2 3]
              eq_refl eq_refl) as [Hfail _].
  destruct (Hfail eq_refl) as [(i & Hd & _)|[_ Hrefuse]]; [discriminate|].
  apply Hrefuse.
Defined.

(** ** A participant alone in its tournament *)

Lemma acquire_along_alone t (path : list (Z * Z)) (w : world) :
  ptable_wf (table w) ->
  NoDup (handle_of t <$> path) ->
  (forall c, c ∈ path ->
     0 <= handle_of t c < NPETERSONLOCKS /\ (c.2 = 0 \/ c.2 = 1)
     /\ active (slot (table w) (handle_of t c)) <> 0
     /\ flag (slot (table w) (handle_of t c)) (1 - c.2) <> 1) ->
  exists w1,
    acquire_along t path w = Some (true, w1)
    /\ ptable_wf (table w1) /\ env w1 = env w
    /\ trace w1
       = trace w ++ ((fun c => acquire_call (handle_of t c) c.2) <$> path)
    /\ (forall c, c ∈ path ->
          slot (table w1) (handle_of t c)
          = set_turn (set_flag (slot (table w) (handle_of t c)) c.2 1)
              (1 - c.2))
    /\ (forall j, 0 <= j < NPETERSONLOCKS -> j ∉ handle_of t <$> path ->
          slot (table w1) j = slot (table w) j).
Proof.
  revert w. induction path as [|[i r] path IH]; intros w Hwf Hnodup Hpath.
  - exists w. split; [done|]. split; [done|]. split; [done|].
    split; [by rewrite app_nil_r|]. split; [|done].
    by intros c Hc%elem_of_nil.
  - rewrite fmap_cons in Hnodup. apply NoDup_cons in Hnodup as [Hfirst Hnodup].
    destruct (Hpath (i, r) ltac:(left)) as (Hh & Hrole & Hbusy & Halone).
    unfold handle_of in Hh, Hrole, Hbusy, Halone, Hfirst.
    simpl in Hh, Hrole, Hbusy, Halone, Hfirst.
    assert (Hlen : 0 <= lock_id_at t i < Z.of_nat (length (table w)))
      by (by rewrite Hwf).
    cbn [acquire_along call_peterson_acquire world_xv6].
    unfold world_acquire.
    rewrite (peterson_acquire_alone (env w) _ r (table w)) by done.
    change (0 <? 0) with false. cbv iota.
    set (w' := mk_world _ _ _ _ _).
    assert (Hother : forall c, c ∈ path ->
              slot (table w') (handle_of t c) = slot (table w) (handle_of t c)).
    { intros c Hc. unfold w', entered. simpl.
      destruct (Hpath c ltac:(by right)) as [Hc' _].
      apply slot_set_slot_ne; [lia|lia|].
      intros Heq. apply Hfirst. rewrite Heq.
      apply list_elem_of_fmap. by exists c. }
    destruct (IH w') as (w1 & Hrun & Hwf1 & Henv & Htrace & Hin & Hout).
    + unfold w', entered. simpl. by apply set_slot_wf.
    + done.
    + intros c Hc. rewrite (Hother c Hc). apply Hpath. by right.
    + exists w1. split; [done|]. split; [done|]. split; [done|].
      split; [rewrite Htrace; unfold w'; simpl; by rewrite <- app_assoc|].
      split.
      * intros c [->|Hc]%elem_of_cons.
        { unfold handle_of at 1 2. simpl. rewrite Hout; [|done|done].
          unfold w', entered. simpl. by apply slot_set_slot_eq. }
        by rewrite (Hin c Hc), (Hother c Hc).
      * intros j Hj Hnot. rewrite fmap_cons in Hnot.
        apply not_elem_of_cons in Hnot as [Hne Hnot].
        rewrite (Hout j Hj Hnot). unfold w', entered. simpl.
        unfold handle_of in Hne. simpl in Hne.
        apply slot_set_slot_ne; lia.
Qed.

Lemma release_along_alone t (path : list (Z * Z)) (w : world) :
  ptable_wf (table w) ->
  NoDup (handle_of t <$> path) ->
  (forall c, c ∈ path ->
     0 <= handle_of t c < NPETERSONLOCKS /\ (c.2 = 0 \/ c.2 = 1)
     /\ active (slot (table w) (handle_of t c)) <> 0) ->
  exists w2,
    release_along t path w = (true, w2)
    /\ ptable_wf (table w2) /\ env w2 = env w
    /\ trace w2
       = trace w ++ ((fun c => release_call (handle_of t c) c.2) <$> path)
    /\ (forall c, c ∈ path ->
          slot (table w2) (handle_of t c)
          = set_flag (slot (table w) (handle_of t c)) c.2 0)
    /\ (forall j, 0 <= j < NPETERSONLOCKS -> j ∉ handle_of t <$> path ->
          slot (table w2) j = slot (table w) j).
Proof.
  revert w. induction path as [|[i r] path IH]; intros w Hwf Hnodup Hpath.
  - exists w. split; [done|]. split; [done|]. split; [done|].
    split; [by rewrite app_nil_r|]. split; [|done].
    by intros c Hc%elem_of_nil.
  - rewrite fmap_cons in Hnodup. apply NoDup_cons in Hnodup as [Hfirst Hnodup].
    destruct (Hpath (i, r) ltac:(left)) as (Hh & Hrole & Hbusy).
    unfold handle_of in Hh, Hrole, Hbusy, Hfirst.
    simpl in Hh, Hrole, Hbusy, Hfirst.
    assert (Hlen : 0 <= lock_id_at t i < Z.of_nat (length (table w)))
      by (by rewrite Hwf).
    cbn [release_along call_peterson_release world_xv6].
    unfold world_release.
    rewrite (peterson_release_active _ r (table w)) by done.
    change (0 <? 0) with false. cbv iota.
    set (w' := mk_world _ _ _ _ _).
    assert (Hother : forall c, c ∈ path ->
              slot (table w') (handle_of t c) = slot (table w) (handle_of t c)).
    { intros c Hc. unfold w'. simpl.
      destruct (Hpath c ltac:(by right)) as [Hc' _].
      apply slot_set_slot_ne; [lia|lia|].
      intros Heq. apply Hfirst. rewrite Heq.
      apply list_elem_of_fmap. by exists c. }
    destruct (IH w') as (w2 & Hrun & Hwf2 & Henv & Htrace & Hin & Hout).
    + unfold w'. simpl. by apply set_slot_wf.
    + done.
    + intros c Hc. rewrite (Hother c Hc).
      destruct (Hpath c ltac:(by right)) as (? & ? & ?). done.
    + exists w2. split; [done|]. split; [done|]. split; [done|].
      split; [rewrite Htrace; unfold w'; simpl; by rewrite <- app_assoc|].
      split.
      * intros c [->|Hc]%elem_of_cons.
        { unfold handle_of at 1 2. simpl. rewrite Hout; [|done|done].
          unfold w'. simpl. by apply slot_set_slot_eq. }
        by rewrite (Hin c Hc), (Hother c Hc).
      * intros j Hj Hnot. rewrite fmap_cons in Hnot.
        apply not_elem_of_cons in Hnot as [Hne Hnot].
        rewrite (Hout j Hj Hnot). unfold w'. simpl.
        unfold handle_of in Hne. simpl in Hne.
        apply slot_set_slot_ne; lia.
Qed.

Lemma elem_of_rev {A : Type} (l : list A) (x : A) : x ∈ rev l <-> x ∈ l.
Proof. rewrite !list_elem_of_In. symmetry. apply in_rev. Qed.

Lemma NoDup_rev_stable {A : Type} (l : list A) : NoDup l -> NoDup (rev l).
Proof. rewrite !NoDup_ListNoDup. apply NoDup_rev. Qed.

Lemma elem_of_levels_down (n : nat) l :
  l ∈ levels_down n <-> 0 <= l < Z.of_nat n.
Proof.
  induction n as [|n IH]; simpl.
  - split; [by intros ?%elem_of_nil|lia].
  - rewrite elem_of_cons, IH. lia.
Qed.

Lemma length_levels_down (n : nat) : length (levels_down n) = n.
Proof. induction n as [|n IH]; simpl; [done|]. by rewrite IH. Qed.

Lemma NoDup_levels_down (n : nat) : NoDup (levels_down n).
Proof.
  induction n as [|n IH]; simpl; [constructor|].
  constructor; [|done]. rewrite elem_of_levels_down. lia.
Qed.

Lemma array_idx_level_inj L id l l' :
  0 <= l < L -> 0 <= l' < L -> 0 <= id < 2 ^ L ->
  array_idx L id l = array_idx L id l' -> l = l'.
Proof.
  intros Hl Hl' Hid Hsame.
  pose proof (array_idx_level L id l Hl Hid) as Hr.
  pose proof (array_idx_level L id l' Hl' Hid) as Hr'.
  destruct (Z.lt_trichotomy l l') as [Hlt|[Heq|Hgt]]; [|done|].
  - pose proof (Z.pow_le_mono_r 2 (l + 1) l' ltac:(lia) ltac:(lia)). lia.
  - pose proof (Z.pow_le_mono_r 2 (l' + 1) l ltac:(lia) ltac:(lia)). lia.
Qed.

Lemma path_facts (t : tournament) (ids : list Z) :
  valid_tournament t -> peterson_lock_ids_array t = Some ids -> NoDup ids ->
  let path := spec_path (L_levels t) (my_id t)
                (levels_down (Z.to_nat (L_levels t))) in
  NoDup (handle_of t <$> path)
  /\ (forall c, c ∈ path ->
        handle_of t c ∈ ids /\ (c.2 = 0 \/ c.2 = 1)
        /\ exists l, 0 <= l < L_levels t
             /\ c = (array_idx (L_levels t) (my_id t) l,
                     role_at_level (L_levels t) (my_id t) l))
  /\ (forall l, 0 <= l < L_levels t ->
        (array_idx (L_levels t) (my_id t) l,
         role_at_level (L_levels t) (my_id t) l) ∈ path).
Proof.
  intros Hvalid Hids Hnodup path.
  pose proof Hvalid as [HL HN Hlocks (ids' & Hids' & Hlen) Hid].
  rewrite Hids in Hids'. injection Hids' as <-.
  assert (Hidx : forall l, 0 <= l < L_levels t ->
            0 <= array_idx (L_levels t) (my_id t) l
            < Z.of_nat (length ids)).
  { intros l Hl.
    destruct (array_idx_in_bounds t l Hvalid Hl) as [? _]. lia. }
  assert (Hlookup : forall l, 0 <= l < L_levels t ->
            ids !! Z.to_nat (array_idx (L_levels t) (my_id t) l)
            = Some (lock_id_at t (array_idx (L_levels t) (my_id t) l))).
  { intros l Hl. unfold lock_id_at. rewrite Hids. simpl.
    apply list_lookup_lookup_total_lt. specialize (Hidx l Hl). lia. }
  assert (Hpair : forall l, 0 <= l < L_levels t ->
            (spec_array_index (L_levels t) (my_id t) l,
             spec_role (L_levels t) (my_id t) l)
            = (array_idx (L_levels t) (my_id t) l,
               role_at_level (L_levels t) (my_id t) l)).
  { intros l Hl. by rewrite array_idx_spec, role_at_level_spec by lia. }
  split; [|split].
  - unfold path, spec_path. rewrite <- list_fmap_compose.
    apply NoDup_fmap_2_strong; [|apply NoDup_levels_down].
    intros l l' Hl%elem_of_levels_down Hl'%elem_of_levels_down.
    unfold handle_of, compose. simpl.
    rewrite <- !array_idx_spec by lia. intros Hsame.
    apply (array_idx_level_inj (L_levels t) (my_id t)); [lia|lia|lia|].
    apply Z2Nat.inj; [specialize (Hidx l); lia|specialize (Hidx l'); lia|].
    apply (NoDup_lookup ids _ _
             (lock_id_at t (array_idx (L_levels t) (my_id t) l)) Hnodup).
    + apply Hlookup. lia.
    + rewrite Hsame. apply Hlookup. lia.
  - intros c (l & -> & Hl%elem_of_levels_down)%list_elem_of_fmap.
    rewrite Hpair by lia. unfold handle_of. simpl.
    split; [|split].
    + eapply list_elem_of_lookup_2. apply Hlookup. lia.
    + apply role_at_level_bit.
    + exists l. split; [lia|done].
  - intros l Hl. rewrite <- Hpair by done. unfold path, spec_path.
    apply list_elem_of_fmap. exists l. split; [done|].
    apply elem_of_levels_down. lia.
Qed.

(** X23.  Library and kernel together: in a tournament whose locks are
    pairwise different active slots with both flags at 0, a participant
    that nobody contends with gets 0 from [tournament_acquire] without a
    yield, then has its flag set in the lock of each of its levels; the
    [tournament_release] that follows returns 0 as well, after [2 L]
    calls in all, and every slot is as before up to its turn. *)
Theorem lone_participant_cycle (t : tournament) (w : world) (ids : list Z)
  (Hvalid : valid_tournament t) (Hwf : ptable_wf (table w))
  (Hids : peterson_lock_ids_array t = Some ids) (Hnodup : NoDup ids)
  (Hrest : forall h, h ∈ ids ->
     0 <= h < NPETERSONLOCKS /\ at_rest (slot (table w) h)) :
  exists w1 w2,
    tournament_acquire t w = Some (0, [], w1)
    /\ env w1 = env w
    /\ (forall l, 0 <= l < L_levels t ->
          flag (slot (table w1)
                  (lock_id_at t (array_idx (L_levels t) (my_id t) l)))
            (role_at_level (L_levels t) (my_id t) l) = 1)
    /\ tournament_release t w1 = (0, [], w2)
    /\ env w2 = env w
    /\ Z.of_nat (length (trace w2))
       = Z.of_nat (length (trace w)) + 2 * L_levels t
    /\ (forall j, 0 <= j < NPETERSONLOCKS ->
          same_but_turn (slot (table w) j) (slot (table w2) j)).
Proof.
  destruct (path_facts t ids Hvalid Hids Hnodup) as (Hdistinct & Hpath & Hon).
  set (path := spec_path _ _ _) in *.
  pose proof Hvalid as [HL _ _ _ _].
  destruct (acquire_along_alone t path w Hwf Hdistinct)
    as (w1 & Hacq & Hwf1 & Henv1 & Htrace1 & Hin1 & Hout1).
  { intros c Hc. destruct (Hpath c Hc) as (Hmem & Hrole & _).
    destruct (Hrest _ Hmem) as (Hh & Hbusy & Hf0 & Hf1).
    split; [done|]. split; [done|]. split; [done|].
    destruct Hrole as [-> | ->]; [change (1 - 0) with 1|change (1 - 1) with 0];
      lia. }
  assert (Hdistinct' : NoDup (handle_of t <$> rev path)).
  { rewrite fmap_rev. by apply NoDup_rev_stable. }
  destruct (release_along_alone t (rev path) w1 Hwf1 Hdistinct')
    as (w2 & Hrel & Hwf2 & Henv2 & Htrace2 & Hin2 & Hout2).
  { intros c Hc. rewrite elem_of_rev in Hc. destruct (Hpath c Hc) as (Hmem & Hrole & _).
    destruct (Hrest _ Hmem) as (Hh & Hbusy & _).
    split; [done|]. split; [done|]. rewrite (Hin1 c Hc).
    unfold set_turn. cbn [active].
    by rewrite (proj1 (proj2 (set_flag_frame _ _ _))). }
  exists w1, w2.
  pose proof (acquire_levels_along t (Z.to_nat (L_levels t)) w Hvalid
                ltac:(lia)) as Hagree.
  fold path in Hagree. rewrite Hacq in Hagree. simpl in Hagree.
  pose proof (release_levels_along t (Z.to_nat (L_levels t)) 0 w1 Hvalid
                ltac:(lia) ltac:(lia)) as Hagree'.
  rewrite levels_up_down in Hagree'. unfold spec_path in Hagree'.
  rewrite fmap_rev in Hagree'. fold (spec_path (L_levels t) (my_id t)
    (levels_down (Z.to_nat (L_levels t)))) in Hagree'. fold path in Hagree'.
  rewrite Hrel in Hagree'. simpl in Hagree'.
  split; [by rewrite tournament_acquire_levels|]. split; [done|]. split.
  { intros l Hl. specialize (Hin1 _ (Hon l Hl)).
    unfold handle_of in Hin1. simpl in Hin1. rewrite Hin1.
    destruct (set_turn_frame
                (set_flag (slot (table w)
                   (lock_id_at t (array_idx (L_levels t) (my_id t) l)))
                   (role_at_level (L_levels t) (my_id t) l) 1)
                (1 - role_at_level (L_levels t) (my_id t) l))
      as (_ & _ & Hflag & _).
    rewrite Hflag. apply flag_set_flag_eq. }
  split; [by rewrite tournament_release_levels|].
  split; [congruence|]. split.
  { rewrite Htrace2, Htrace1, !length_app, !length_fmap, length_rev.
    unfold path, spec_path. rewrite length_fmap.
    rewrite length_levels_down. lia. }
  intros j Hj.
  destruct (decide (j ∈ handle_of t <$> path)) as [Hmem|Hnot].
  - apply list_elem_of_fmap in Hmem as (c & -> & Hc).
    rewrite (Hin2 c ltac:(by rewrite elem_of_rev)), (Hin1 c Hc).
    destruct (Hpath c Hc) as (Hmem & Hrole & _).
    destruct (Hrest _ Hmem) as (_ & _ & Hf0 & Hf1).
    unfold flag in Hf0, Hf1. simpl in Hf0, Hf1.
    destruct (slot (table w) (handle_of t c)) as [nm a f0 f1 tn].
    simpl in Hf0, Hf1. subst f0 f1.
    by destruct Hrole as [-> | ->].
  - rewrite Hout2, Hout1; [done|done|done|done|].
    by rewrite fmap_rev, elem_of_rev.
Qed.

Lemma lone_participant_cycle_witness :
  exists w1 w2,
    tournament_acquire (fst (participant 4 3)) (snd (participant 4 3))
    = Some (0, [], w1)
    /\ tournament_release (fst (participant 4 3)) w1 = (0, [], w2).
Proof.
  destruct (lone_participant_cycle (fst (participant 4 3))
              (snd (participant 4 3)) [0; 1; 2])
    as (w1 & w2 & Hacq & _ & _ & Hrel & _).
  - apply participant_4_3_valid.
  - reflexivity.
  - reflexivity.
  - repeat constructor; rewrite ?elem_of_cons; rewrite ?elem_of_nil;
      intuition discriminate.
  - intros h Hh. rewrite !elem_of_cons, elem_of_nil in Hh.
    destruct Hh as [->|[->|[->|[]]]]; (split; [by split|by repeat split]).
  - by exists w1, w2.
Defined.

(** ** user/tournament.c *)

Lemma land_pred_power k : 0 <= k -> Z.land (2 ^ k) (2 ^ k - 1) = 0.
Proof.
  intros Hk. rewrite Z.sub_1_r, <- Z.ones_equiv, Z.land_ones by lia.
  apply Z.mod_same. assert (0 < 2 ^ k) by (apply Z.pow_pos_nonneg; lia). lia.
Qed.

Lemma main_checks n :
  (n <=? 0) || (n >? 16) = false ->
  negb (n =? 1) && negb (Z.land n (n - 1) =? 0) = false <->
  is_power_of_two n.
Proof.
  intros Hrange.
  destruct (Z.leb_spec n 0), (Z.gtb_spec n 16); try done.
  destruct (Z.eqb_spec n 1) as [->|Hone]; simpl.
  { split; [|done]. intros _. by exists 0. }
  destruct (Z.eqb_spec (Z.land n (n - 1)) 0) as [Hland|Hland]; simpl.
  - split; [|done]. intros _. destruct n as [|p|p]; [lia| |lia].
    by apply land_pred_zero.
  - split; [done|]. intros (k & Hk & ->). by rewrite land_pred_power in Hland.
Qed.

Lemma tournament_acquire_result {K : Type} `{!Xv6 K} t (k k' : K) r d :
  tournament_acquire t k = Some (r, d, k') ->
  (r = -1 \/ r = 0) /\ (d <> [] <-> r = -1).
Proof.
  unfold tournament_acquire.
  destruct (my_id t =? -1); [intros [= <- <- _]; split; [by left|done]|].
  destruct (N_processes t <=? 0);
    [intros [= <- <- _]; split; [by left|done]|].
  destruct (N_processes t =? 1);
    [intros [= <- <- _]; split; [by right|split; [done|lia]]|].
  destruct (_ && _); [intros [= <- <- _]; split; [by left|done]|].
  apply acquire_levels_result.
Qed.

Lemma tournament_release_result {K : Type} `{!Xv6 K} t (k : K) :
  match tournament_release t k with
  | (r, d, _) => (r = -1 \/ r = 0) /\ (d <> [] <-> r = -1)
  end.
Proof.
  unfold tournament_release.
  destruct (my_id t =? -1); [split; [by left|done]|].
  destruct (N_processes t <=? 0); [split; [by left|done]|].
  destruct (N_processes t =? 1); [split; [by right|split; [done|lia]]|].
  destruct (_ && _); [split; [by left|done]|].
  apply release_levels_result.
Qed.

(** X24.  [main] exits with 1 before any call exactly for the counts that
    are below 1, above 16 or no power of two, with the line of the check
    that failed; a wrong [argc] gives the usage line; the count 1 runs
    through without a system call; and for the counts that [main] lets
    through, [tournament_create] never writes either of its own two
    validation diagnostics. *)
Theorem main_rejects_before_any_call {K : Type} `{!Xv6 K}
  (wait : K -> Z * K) (n : Z) (t : tournament) (k : K) :
  (n <= 0 \/ n > 16 \/ ~ is_power_of_two n <->
   tournament_main wait 2 n t k = Some (1, [range_line], t, k)
   \/ tournament_main wait 2 n t k = Some (1, [power_line], t, k))
  /\ (forall argc, argc <> 2 ->
        tournament_main wait argc n t k = Some (1, [usage_line], t, k))
  /\ tournament_main wait 2 1 t k
     = Some (0, [critical_section_line 0], mk_tournament None 0 1 0 0, k)
  /\ (1 <= n <= 16 -> is_power_of_two n ->
        forall d, d ∈ (tournament_create n t k).1.1.2 ->
          d <> create_exceeds_maximum n /\ d <> create_not_power_of_2 n).
Proof.
  split; [|split; [|split]].
  - unfold tournament_main. cbn [Z.eqb Pos.eqb negb].
    destruct ((n <=? 0) || (n >? 16)) eqn:Hrange.
    + split; [by left|]. intros _.
      destruct (Z.leb_spec n 0), (Z.gtb_spec n 16); try done; lia.
    + pose proof (main_checks n Hrange) as Hpow.
      destruct (Z.leb_spec n 0), (Z.gtb_spec n 16); try done.
      destruct (negb (n =? 1) && negb (Z.land n (n - 1) =? 0)) eqn:Hcheck.
      * split; [by right|]. intros _. right; right. intros Hp.
        by apply Hpow in Hp.
      * assert (Hp : is_power_of_two n) by (by apply Hpow).
        split; [intros [?|[?|?]]; lia || done|].
        destruct (tournament_create n t k) as [[[id d1] t1] k1].
        destruct (id <? 0); [intros [[=]|[=]]; by destruct d1|].
        destruct (tournament_acquire t1 k1) as [[[r2 d2] k2]|];
          [|by intros [|]].
        destruct (r2 <? 0);
          [intros [[=]|[=]]; by destruct d1, d2|].
        destruct (tournament_release t1 k2) as [[r3 d3] k3].
        destruct (r3 <? 0);
          [intros [[=]|[=]]; by destruct d1, d2, d3|].
        destruct (id =? 0); [|by intros [[=]|[=]]].
        destruct (wait_children _ _ _ _); by intros [[=]|[=]].
  - intros argc Hargc. unfold tournament_main.
    by destruct (Z.eqb_spec argc 2).
  - done.
  - intros Hn Hp d. destruct (get_log2_upto_16 n ltac:(lia)) as [_ Hlog].
    destruct (Hlog Hp) as (_ & ? & _).
    assert (Hforks : forall m t1 k1, my_id t1 = 0 ->
              d ∈ (fork_children m 1 t1 k1).1.1.2 ->
              d <> create_exceeds_maximum n /\ d <> create_not_power_of_2 n).
    { intros m t1 k1 Hid.
      pose proof (fork_children_spec m 1 t1 k1 ltac:(lia) ltac:(lia)) as Hf.
      destruct (fork_children m 1 t1 k1) as [[[r d0] t'] k'].
      destruct Hf as [(_ & _ & j & ->)|(_ & -> & _)]; simpl.
      - by intros ->%list_elem_of_singleton.
      - by intros ?%elem_of_nil. }
    unfold tournament_create.
    destruct (Z.gtb_spec n 16); [lia|].
    destruct (Z.eqb_spec (get_log2_if_power_of_2 n) (-1)); [lia|].
    destruct (n - 1 >? 0); [|by apply Hforks].
    destruct (call_malloc _ k) as [[a|] k1];
      [|by intros ->%list_elem_of_singleton].
    destruct (create_locks _ 0 a k1) as [[[i|] a1] k2];
      [by intros ->%list_elem_of_singleton|].
    by apply Hforks.
Qed.

Lemma wait_children_lines {K : Type} (wait : K -> Z * K) (n : nat) id (k : K) :
  Forall (fun l => l = wait_failed_line id) (wait_children wait n id k).1.
Proof.
  revert k. induction n as [|n IH]; intros k; simpl; [done|].
  destruct (wait k) as [r k1]. specialize (IH k1).
  destruct (wait_children wait n id k1) as [out k2]. simpl in *.
  destruct (r <? 0); [by constructor|done].
Qed.

Lemma wait_children_results {K : Type} (wait : K -> Z * K) (n : nat) id
    (k : K) :
  wait_children wait n id k
  = ((fun _ => wait_failed_line id)
       <$> filter (fun r => r < 0) (wait_results wait n k).1,
     (wait_results wait n k).2).
Proof.
  revert k. induction n as [|n IH]; intros k; simpl; [done|].
  destruct (wait k) as [r k1]. rewrite IH.
  destruct (wait_results wait n k1) as [rs k2]. simpl.
  rewrite filter_cons. destruct (Z.ltb_spec r 0).
  - by rewrite decide_True by done.
  - by rewrite decide_False by lia.
Qed.

Lemma wait_children_length {K : Type} (wait : K -> Z * K) (n : nat) id (k : K) :
  (length (wait_children wait n id k).1 <= n)%nat.
Proof.
  revert k. induction n as [|n IH]; intros k; simpl; [done|].
  destruct (wait k) as [r k1]. specialize (IH k1).
  destruct (wait_children wait n id k1) as [out k2]. simpl in *.
  destruct (r <? 0); simpl; lia.
Qed.

(** X25.  When [main] exits, the status is 0 or 1.  With 0 every check
    passed, [tournament_create] gave a participant id, acquire and release
    returned 0, and the output is the critical-section line of that id
    followed by one line for each failed [wait]: of [n - 1] waits in the
    process with id 0, of none in the others.  With 1 the last line is
    the line of the first step that failed: the usage line for a wrong
    [argc], the range line, the power-of-two line, the create line after
    the diagnostics of [tournament_create], the acquire line with the id
    after those of [tournament_acquire], or the release line with the id
    after the critical-section line and the diagnostics of
    [tournament_release]; no line before it is a failure line. *)
Theorem main_exit_status {K : Type} `{!Xv6 K} (wait : K -> Z * K)
  (argc n : Z) (t t' : tournament) (k k' : K) (status : Z)
  (out : list output)
  (Hrun : tournament_main wait argc n t k = Some (status, out, t', k')) :
  let id := (tournament_create n t k).1.1.1 in
  let d1 := (tournament_create n t k).1.1.2 in
  let t1 := (tournament_create n t k).1.2 in
  let k1 := (tournament_create n t k).2 in
  let accepted := argc = 2 /\ 1 <= n <= 16 /\ is_power_of_two n in
  (status = 0 \/ status = 1)
  /\ (status = 0 ->
      accepted /\ 0 <= id /\ t' = t1
      /\ exists k2 k3 waits,
           tournament_acquire t1 k1 = Some (0, [], k2)
           /\ tournament_release t1 k2 = (0, [], k3)
           /\ out = critical_section_line id :: waits
           /\ Forall (fun l => l = wait_failed_line id) waits
           /\ (length waits <= Z.to_nat (n - 1))%nat
           /\ (id = 0 ->
               waits = ((fun _ => wait_failed_line 0)
                          <$> filter (fun r => r < 0)
                                (wait_results wait (Z.to_nat (n - 1)) k3).1)
               /\ k' = (wait_results wait (Z.to_nat (n - 1)) k3).2)
           /\ (id <> 0 -> waits = [] /\ k' = k3))
  /\ (status = 1 ->
      exists before line,
        out = before ++ [line] /\ is_failure_line line = true
        /\ Forall (fun l => is_failure_line l = false) before
        /\ ((argc <> 2 /\ line = usage_line /\ before = [])
            \/ (argc = 2 /\ (n <= 0 \/ n > 16)
                /\ line = range_line /\ before = [])
            \/ (argc = 2 /\ 1 <= n <= 16 /\ ~ is_power_of_two n
                /\ line = power_line /\ before = [])
            \/ (accepted /\ id < 0
                /\ line = create_failed_line
                /\ before = (library_line <$> d1))
            \/ (accepted /\ 0 <= id
                /\ exists r2 d2 k2,
                     tournament_acquire t1 k1 = Some (r2, d2, k2)
                     /\ r2 < 0
                     /\ line = acquire_failed_line id
                     /\ before = (library_line <$> d2))
            \/ (accepted /\ 0 <= id
                /\ exists k2 r3 d3 k3,
                     tournament_acquire t1 k1 = Some (0, [], k2)
                     /\ tournament_release t1 k2 = (r3, d3, k3)
                     /\ r3 < 0
                     /\ line = release_failed_line id
                     /\ before = critical_section_line id
                                   :: (library_line <$> d3)))).
Proof.
  intros id d1 t1 k1 accepted. subst id d1 t1 k1 accepted.
  unfold tournament_main in Hrun.
  destruct (Z.eqb_spec argc 2) as [Hargc|Hargc]; cbn [negb] in Hrun;
    [|injection Hrun as <- <- <- <-; split; [by right|]; split; [done|];
      intros _; exists [], usage_line; do 3 (split; [done|]); by left].
  destruct ((n <=? 0) || (n >? 16)) eqn:Hrange.
  { injection Hrun as <- <- <- <-. split; [by right|]. split; [done|].
    intros _. exists [], range_line. do 3 (split; [done|]). right. left.
    split; [done|]. split; [|done].
    destruct (Z.leb_spec n 0), (Z.gtb_spec n 16); try done; lia. }
  pose proof (main_checks n Hrange) as Hpow.
  assert (Hn : 1 <= n <= 16)
    by (destruct (Z.leb_spec n 0), (Z.gtb_spec n 16); try done; lia).
  destruct (negb (n =? 1) && negb (Z.land n (n - 1) =? 0)) eqn:Hcheck.
  { injection Hrun as <- <- <- <-. split; [by right|]. split; [done|].
    intros _. exists [], power_line. do 3 (split; [done|]).
    right. right. left. split; [done|]. split; [done|]. split; [|done].
    intros Hp. by apply Hpow in Hp. }
  assert (Hacc : argc = 2 /\ 1 <= n <= 16 /\ is_power_of_two n)
    by (split; [done|]; split; [done|]; by apply Hpow).
  pose proof (tournament_create_result n t k) as Hcreate.
  destruct (tournament_create n t k) as [[[id d1] t1] k1]. cbn [fst snd].
  destruct Hcreate as [Hid Hd1].
  assert (Hlib : forall d, Forall (fun l => is_failure_line l = false)
                             (library_line <$> d)).
  { intros d. apply Forall_fmap. by apply Forall_true. }
  destruct (Z.ltb_spec id 0).
  { injection Hrun as <- <- <- <-. split; [by right|]. split; [done|].
    intros _. exists (library_line <$> d1), create_failed_line.
    split; [done|]. split; [done|]. split; [apply Hlib|].
    do 3 right. left. split; [done|]. split; [lia|]. by split. }
  assert (d1 = []) as ->.
  { destruct d1; [done|]. assert (id = -1) by (by apply Hd1). lia. }
  destruct (tournament_acquire t1 k1) as [[[r2 d2] k2]|] eqn:Hacquire;
    [|done].
  pose proof Hacquire as [Hr2 Hd2]%tournament_acquire_result.
  destruct (Z.ltb_spec r2 0).
  { injection Hrun as <- <- <- <-. split; [by right|]. split; [done|].
    intros _. exists (library_line <$> d2), (acquire_failed_line id).
    split; [done|]. split; [done|]. split; [apply Hlib|]. do 4 right. left.
    split; [done|]. split; [done|]. by exists r2, d2, k2. }
  assert (r2 = 0) as -> by lia.
  assert (d2 = []) as ->.
  { destruct d2; [done|]. assert (0 = -1) by (by apply Hd2). lia. }
  pose proof (tournament_release_result t1 k2) as Hrelease.
  destruct (tournament_release t1 k2) as [[r3 d3] k3] eqn:Hrel.
  destruct Hrelease as [Hr3 Hd3].
  destruct (Z.ltb_spec r3 0).
  { injection Hrun as <- <- <- <-. split; [by right|]. split; [done|].
    intros _.
    exists (critical_section_line id :: (library_line <$> d3)),
      (release_failed_line id).
    split; [done|]. split; [done|].
    split; [constructor; [done|apply Hlib]|]. do 5 right.
    split; [done|]. split; [done|]. by exists k2, r3, d3, k3. }
  assert (r3 = 0) as -> by lia.
  assert (d3 = []) as ->.
  { destruct d3; [done|]. assert (0 = -1) by (by apply Hd3). lia. }
  simpl in Hrun.
  destruct (Z.eqb_spec id 0) as [->|Hne].
  - pose proof (wait_children_lines wait (Z.to_nat (n - 1)) 0 k3) as Hwaits.
    pose proof (wait_children_length wait (Z.to_nat (n - 1)) 0 k3) as Hlen.
    destruct (wait_children wait (Z.to_nat (n - 1)) 0 k3) as [out5 k4]
      eqn:Hw.
    injection Hrun as <- <- <- <-. split; [by left|]. split; [|done].
    intros _. split; [done|]. split; [done|]. split; [done|].
    exists k2, k3, out5. split; [done|]. split; [done|]. split; [done|].
    split; [done|]. split; [done|].
    split; [|intros Hne; lia]. intros _.
    rewrite wait_children_results in Hw. by injection Hw as <- <-.
  - injection Hrun as <- <- <- <-. split; [by left|]. split; [|done].
    intros _. split; [done|]. split; [done|]. split; [done|].
    exists k2, k3, []. split; [done|]. split; [done|]. split; [done|].
    split; [done|]. split; [simpl; lia|]. by split.
Qed.

Lemma main_exit_status_witness :
  exists waits,
    [critical_section_line 0] = critical_section_line 0 :: waits
    /\ (length waits <= Z.to_nat (1 - 1))%nat.
Proof.
  destruct (main_exit_status (fun w : world => (-1, w)) 2 1 no_tournament
              (mk_tournament None 0 1 0 0) (boot 0 []) (boot 0 []) 0
              [critical_section_line 0] eq_refl)
    as (_ & Hdone & _).
  destruct (Hdone eq_refl)
    as (_ & _ & _ & k2 & k3 & waits & _ & _ & Hout & _ & Hlen & _).
  exists waits. by split.
Defined.

(** ** user/ptest.c *)

Lemma ptest_loop_calls {K : Type} `{!Xv6 K} destroy wait sleep
    (n : nat) fork_ret lock_id role (k k' : K) status c :
  ptest_loop destroy wait sleep n fork_ret lock_id role k
  = Some (status, c, k') ->
  (status = None -> c = concat (replicate n (round lock_id role)))
  /\ (forall s, status = Some s ->
        s = 1
        /\ exists body k1,
             c = body ++ (cleanup_calls destroy wait fork_ret lock_id role k1).1
             /\ Forall (in_round lock_id role) body).
Proof.
  revert k c. induction n as [|n IH]; intros k c.
  - intros [= <- <- <-]. by split.
  - cbn [ptest_loop].
    destruct (call_peterson_acquire lock_id role k) as [[r k1]|]; [|done].
    assert (Hin : forall x, x ∈ round lock_id role -> in_round lock_id role x)
      by done.
    destruct (r <? 0).
    { destruct (cleanup_calls _ _ _ _ _ k1) as [c1 k2] eqn:Hgive.
      intros [= <- <- <-]. split; [done|]. intros s [= <-]. split; [done|].
      exists [sys_acquire lock_id role], k1. rewrite Hgive. split; [done|].
      constructor; [|done]. apply Hin. left. }
    destruct (call_peterson_release lock_id role (sleep 5 k1)) as [r' k3].
    destruct (r' <? 0).
    { destruct (cleanup_calls _ _ _ _ _ k3) as [c1 k4] eqn:Hgive.
      intros [= <- <- <-]. split; [done|]. intros s [= <-]. split; [done|].
      exists [sys_acquire lock_id role; sys_sleep 5; sys_release lock_id role],
        k3.
      rewrite Hgive. split; [done|].
      repeat (constructor; [apply Hin; unfold round; rewrite !elem_of_cons; auto|]).
      done. }
    destruct (ptest_loop _ _ _ n _ _ _ (sleep 1 k3)) as [[[st c1] k5]|] eqn:Hrest;
      [|done].
    intros [= <- <- <-]. destruct (IH _ _ Hrest) as [Hdone Hleft].
    split.
    + intros ->. by rewrite (Hdone eq_refl).
    + intros s ->. destruct (Hleft s eq_refl) as (-> & body & k1' & -> & Hbody).
      split; [done|]. exists (round lock_id role ++ body), k1'.
      split; [done|]. apply Forall_app. split; [|done].
      by apply Forall_forall.
Qed.

(** X26.  The calls of [main] when it exits, whatever the system calls
    do.  A failed create is the only call.  A failed fork is followed by
    the destroy of the lock.  The parent uses role 0 and always ends with
    [wait] and the destroy of the lock; the child uses role 1 and calls
    neither; in between there are only the calls of the loop on the lock
    that was created.  Status 0 takes all 100 rounds of acquire, sleep,
    release, sleep. *)
Theorem ptest_main_calls {K : Type} `{!Xv6 K}
  (destroy : Z -> K -> Z * K) (wait : K -> Z * K) (sleep : Z -> K -> K)
  (k k' : K) (status : Z) (calls : list syscall)
  (Hrun : ptest_main destroy wait sleep k = Some (status, calls, k')) :
  let lock_id := (call_peterson_create k).1 in
  let fork_ret := (call_fork (call_peterson_create k).2).1 in
  (status = 0 \/ status = 1)
  /\ (lock_id < 0 -> status = 1 /\ calls = [sys_create])
  /\ (0 <= lock_id -> fork_ret < 0 ->
      status = 1 /\ calls = [sys_create; sys_fork; sys_destroy lock_id])
  /\ (0 <= lock_id -> 0 < fork_ret ->
      exists body,
        calls = [sys_create; sys_fork] ++ body
                ++ [sys_wait; sys_destroy lock_id]
        /\ Forall (in_round lock_id 0) body)
  /\ (0 <= lock_id -> fork_ret = 0 ->
      exists body,
        calls = [sys_create; sys_fork] ++ body
        /\ Forall (in_round lock_id 1) body)
  /\ (status = 0 ->
      0 <= lock_id /\ 0 <= fork_ret
      /\ exists rest,
           calls = [sys_create; sys_fork]
                   ++ concat (replicate 100
                                (round lock_id (if fork_ret >? 0 then 0 else 1)))
                   ++ rest).
Proof.
  intros lock_id fork_ret. unfold ptest_main in Hrun.
  subst lock_id fork_ret.
  destruct (call_peterson_create k) as [lock_id k1]. cbn [fst snd].
  destruct (Z.ltb_spec lock_id 0).
  { injection Hrun as <- <- <-. split; [by right|].
    split; [done|]. repeat (split; [lia|]). done. }
  destruct (call_fork k1) as [fork_ret k2]. cbn [fst snd].
  destruct (Z.ltb_spec fork_ret 0).
  { destruct (destroy lock_id k2) as [r k3].
    injection Hrun as <- <- <-. split; [by right|].
    split; [lia|]. split; [done|]. repeat (split; [lia|]). done. }
  destruct (ptest_loop _ _ _ _ _ _ _ k2) as [[[st c] k3]|] eqn:Hloop; [|done].
  apply ptest_loop_calls in Hloop as [Hdone Hleft].
  assert (Hround : forall role,
            Forall (in_round lock_id role)
              (concat (replicate 100 (round lock_id role)))).
  { intros role. apply Forall_concat, Forall_replicate.
    by apply Forall_forall. }
  destruct st as [s|].
  - injection Hrun as <- <- <-.
    destruct (Hleft s eq_refl) as (-> & body & k1' & -> & Hbody).
    split; [by right|]. split; [lia|]. split; [lia|].
    unfold cleanup_calls in *.
    destruct (Z.gtb_spec fork_ret 0).
    + change (0 =? 0) with true in *. cbv iota in *. simpl.
      split; [|split; [lia|done]]. intros _ _. by exists body.
    + change (1 =? 0) with false in *. cbv iota in *. simpl.
      rewrite app_nil_r. split; [lia|]. split; [|done].
      intros _ _. by exists body.
  - rewrite (Hdone eq_refl) in Hrun.
    destruct (Z.gtb_spec fork_ret 0).
    + destruct (wait k3) as [r4 k4]. destruct (destroy lock_id k4) as [r k5].
      assert (Hcalls : calls = [sys_create; sys_fork]
                 ++ concat (replicate 100 (round lock_id 0))
                 ++ [sys_wait; sys_destroy lock_id])
        by (destruct (r <? 0); by injection Hrun as _ <- _).
      assert (Hstatus : status = 0 \/ status = 1)
        by (destruct (r <? 0); injection Hrun as <- _ _; by auto).
      split; [done|]. split; [lia|]. split; [lia|]. split; [|split; [lia|]].
      * intros _ _. by eexists.
      * intros _. split; [done|]. split; [lia|]. by eexists.
    + injection Hrun as <- <- <-. split; [by left|]. split; [lia|].
      split; [lia|]. split; [lia|]. split.
      * intros _ _. by eexists.
      * intros _. split; [done|]. split; [lia|]. exists [].
        by rewrite app_nil_r.
Qed.

Lemma ptest_main_calls_witness :
  1 = 1
  /\ [sys_create; sys_fork; sys_destroy 0]
     = [sys_create; sys_fork;
        sys_destroy (call_peterson_create (boot 0 [])).1].
Proof.
  refine (proj1 (proj2 (proj2
    (ptest_main_calls world_destroy (fun w => (-1, w)) (fun _ w => w)
       (boot 0 [])
       (with_table (boot 0 []) (set_slot peterson_init 0 unnamed_peterson))
       1 [sys_create; sys_fork; sys_destroy 0] eq_refl))) _ _).
  - by vm_compute.
  - by vm_compute.
Defined.

(** ** Results: every failure is the same -1 *)

Lemma peterson_create_fails (p p' : ptable) r :
  peterson_create p = (r, p') -> (r = -1 <-> no_free_slots p).
Proof.
  intros Hrun. pose proof (peterson_create_spec p) as H. rewrite Hrun in H.
  destruct H as [(Hr & Hfree & _)|(-> & _ & Hall)].
  - split; [lia|]. intros Hfull. by destruct (Hfull r Hr).
  - by split.
Qed.

Lemma bad_lock_or_role_invalid h role :
  bad_lock_or_role h role = true <-> invalid_argument h role.
Proof.
  unfold invalid_argument, invalid_handle. split.
  - intros Hbad. destruct (decide (0 <= h < NPETERSONLOCKS)) as [Hh|]; [|by left].
    right. intros Hrole.
    by rewrite (proj2 (bad_lock_or_role_false h role)) in Hbad.
  - intros Hbad. destruct (bad_lock_or_role h role) eqn:Hok; [done|].
    apply bad_lock_or_role_false in Hok as [Hh Hrole].
    by destruct Hbad.
Qed.

Lemma acquire_spin_fails env h role (q q' : ptable) env' v :
  acquire_spin env h role q = Some (v, q', env') ->
  (to_int v = -1 <-> lock_inactive q' h) /\ (to_int v = -1 \/ to_int v = 0).
Proof.
  revert q. induction env as [|others env IH]; intros q;
    rewrite acquire_spin_unfold; unfold acquire_check, lock_inactive;
    destruct (must_wait (slot q h) role),
      (Z.eqb_spec (active (slot q h)) 0) as [Hq|Hq];
    try done;
    try (intros [= <- <- <-]; rewrite ?to_int_minus_one, ?to_int_zero;
         split; [split; (done || lia)|(by left) || (by right)]).
  apply IH.
Qed.

Lemma peterson_acquire_fails env h role (p p' : ptable) env' r :
  peterson_acquire env h role p = Some (r, p', env') ->
  (r = -1 <->
   invalid_argument h role \/ lock_inactive p h \/ lock_inactive p' h).
Proof.
  unfold peterson_acquire, sys_peterson_acquire.
  destruct (bad_lock_or_role h role) eqn:Hok.
  { rewrite to_int_minus_one. intros [= <- <- <-].
    split; [|done]. intros _. left. by apply bad_lock_or_role_invalid. }
  assert (Hvalid : ~ invalid_argument h role).
  { intros Hbad%bad_lock_or_role_invalid. congruence. }
  unfold lock_inactive at 1.
  destruct (Z.eqb_spec (active (slot p h)) 0) as [Hp|Hp].
  { rewrite to_int_minus_one. intros [= <- <- <-].
    split; [|done]. intros _. right. by left. }
  destruct (acquire_spin _ _ _ _) as [[[v q] e]|] eqn:Hspin; [|done].
  intros [= <- <- <-]. apply acquire_spin_fails in Hspin as [Hspin _].
  rewrite Hspin. split; [by auto|]. by intros [?|[?|?]].
Qed.

Lemma peterson_release_fails h role (p p' : ptable) r :
  peterson_release h role p = (r, p') ->
  (r = -1 <-> invalid_argument h role \/ lock_inactive p h).
Proof.
  unfold peterson_release, sys_peterson_release.
  destruct (bad_lock_or_role h role) eqn:Hok.
  { rewrite to_int_minus_one. intros [= <- <-].
    split; [|done]. intros _. left. by apply bad_lock_or_role_invalid. }
  assert (Hvalid : ~ invalid_argument h role).
  { intros Hbad%bad_lock_or_role_invalid. congruence. }
  unfold lock_inactive.
  destruct (Z.eqb_spec (active (slot p h)) 0) as [Hp|Hp].
  - rewrite to_int_minus_one. intros [= <- <-]. split; [by auto|done].
  - rewrite to_int_zero. intros [= <- <-].
    split; [done|]. by intros [?|?].
Qed.

Lemma peterson_destroy_fails h (p p' : ptable) r :
  peterson_destroy h p = Some (r, p') ->
  (r = -1 <-> invalid_handle h \/ lock_inactive p h).
Proof.
  unfold peterson_destroy, sys_peterson_destroy, peterson_free,
    invalid_handle, lock_inactive.
  destruct (Z.ltb_spec h 0), (Z.geb_spec h NPETERSONLOCKS),
    (Z.eqb_spec (active (slot p h)) 0) as [|Hbusy];
    cbn -[to_int to_uint64];
    try (rewrite to_int_minus_one; intros [= <- <-]; split; [|done];
         intros _; (by right) || (left; lia)).
  rewrite to_int_zero. intros [= <- <-]. split; [done|].
  intros [?|?]; [lia|done].
Qed.

Lemma tournament_create_rejects {K : Type} `{!Xv6 K} n t (k : K) :
  invalid_participant_count n ->
  exists d, tournament_create n t k = (-1, [d], t, k).
Proof.
  intros Hn. unfold tournament_create.
  destruct (Z.gtb_spec n 16); [by eexists|].
  destruct (get_log2_upto_16 n ltac:(lia)) as [Hlog _].
  rewrite Hlog; [by eexists|].
  destruct Hn as [?|[?|?]]; [by left|lia|by right].
Qed.

Lemma fork_children_fails (m : nat) i t (w : world) :
  0 <= my_id t -> 1 <= i ->
  (fork_children m i t w).1.1.1 = -1 <-> spawn_fails m (forks w) = true.
Proof.
  revert i w. induction m as [|m IH]; intros i w Hid Hi.
  - simpl. split; [lia|done].
  - cbn [fork_children call_fork world_xv6 spawn_fails]. unfold world_fork.
    destruct (forks w) as [|pid rest]; [done|].
    destruct (Z.ltb_spec pid 0); [done|].
    destruct (Z.eqb_spec pid 0); [simpl; split; [lia|done]|].
    by rewrite IH by (done || lia).
Qed.

Lemma tournament_create_fails n t (w : world) :
  ptable_wf (table w) -> 1 <= n <= 16 -> is_power_of_two n ->
  (tournament_create n t w).1.1.1 = -1 <->
  1 < n
  /\ (malloc_fails w = true
      \/ Z.of_nat (free_slots (table w)) < n - 1
      \/ spawn_fails (Z.to_nat (n - 1)) (forks w) = true).
Proof.
  intros Hwf Hn Hpow.
  destruct (decide (n = 1)) as [->|Hmore].
  { split; [by vm_compute|lia]. }
  assert (Hn2 : 2 <= n <= 16) by lia.
  destruct (get_log2_upto_16 n ltac:(lia)) as [_ Hlog].
  destruct (Hlog Hpow) as (_ & HL & HnL). clear Hlog.
  destruct (mallocs w) as [|[b|] rest] eqn:Hmalloc.
  - assert (Hrun : (tournament_create n t w).1.1.1 = -1).
    { unfold tournament_create.
      destruct (Z.gtb_spec n 16); [lia|].
      destruct (Z.eqb_spec (get_log2_if_power_of_2 n) (-1)); [lia|].
      destruct (Z.gtb_spec (n - 1) 0); [|lia].
      cbn [call_malloc world_xv6]. unfold world_malloc. by rewrite Hmalloc. }
    split; [|done]. intros _. split; [lia|]. left.
    unfold malloc_fails. by rewrite Hmalloc.
  - assert (Hok : malloc_fails w = false)
      by (unfold malloc_fails; by rewrite Hmalloc).
    destruct (Z.lt_ge_cases (Z.of_nat (free_slots (table w))) (n - 1))
      as [Hshort|Henough].
    + pose proof (tournament_create_world n t w b rest Hwf Hpow Hn2 Hmalloc)
        as H.
      destruct (tournament_create n t w) as [[[r d] t'] w'].
      destruct H as (_ & _ & _ & _ & Hfail).
      destruct (Hfail Hshort) as (-> & _). simpl.
      split; [|done]. intros _. split; [lia|]. right. by left.
    + rewrite (tournament_create_locks n t w b rest Hwf Hpow Hn2 Hmalloc)
        by lia.
      rewrite fork_children_fails by (simpl; lia). simpl.
      split.
      * intros Hspawn. split; [lia|]. right. by right.
      * intros (_ & [Hm|[Hf|Hs]]); [congruence|lia|done].
  - assert (Hrun : (tournament_create n t w).1.1.1 = -1).
    { unfold tournament_create.
      destruct (Z.gtb_spec n 16); [lia|].
      destruct (Z.eqb_spec (get_log2_if_power_of_2 n) (-1)); [lia|].
      destruct (Z.gtb_spec (n - 1) 0); [|lia].
      cbn [call_malloc world_xv6]. unfold world_malloc. by rewrite Hmalloc. }
    split; [|done]. intros _. split; [lia|]. left.
    unfold malloc_fails. by rewrite Hmalloc.
Qed.

Lemma tournament_acquire_refuses {K : Type} `{!Xv6 K} t (k : K) :
  not_initialised t ->
  exists d, tournament_acquire t k = Some (-1, [d], k).
Proof.
  unfold not_initialised, tournament_acquire.
  intros Hbad.
  destruct (Z.eqb_spec (my_id t) (-1)); [by eexists|].
  destruct (Z.leb_spec (N_processes t) 0); [by eexists|].
  destruct Hbad as [?|[?|(Hone & Hlocks & Hnull)]]; [done|lia|].
  destruct (Z.eqb_spec (N_processes t) 1); [done|].
  destruct (Z.gtb_spec (num_total_locks t) 0); [|lia].
  rewrite Hnull. by eexists.
Qed.

Lemma tournament_release_refuses {K : Type} `{!Xv6 K} t (k : K) :
  not_initialised t ->
  exists d, tournament_release t k = (-1, [d], k).
Proof.
  unfold not_initialised, tournament_release.
  intros Hbad.
  destruct (Z.eqb_spec (my_id t) (-1)); [by eexists|].
  destruct (Z.leb_spec (N_processes t) 0); [by eexists|].
  destruct Hbad as [?|[?|(Hone & Hlocks & Hnull)]]; [done|lia|].
  destruct (Z.eqb_spec (N_processes t) 1); [done|].
  destruct (Z.gtb_spec (num_total_locks t) 0); [|lia].
  rewrite Hnull. by eexists.
Qed.

Lemma tournament_acquire_along {K : Type} `{!Xv6 K} t (k : K) :
  valid_tournament t ->
  acquire_agrees (tournament_acquire t k)
    (acquire_along t
       (spec_path (L_levels t) (my_id t)
          (levels_down (Z.to_nat (L_levels t)))) k).
Proof.
  intros Hvalid. rewrite tournament_acquire_levels by done.
  apply (acquire_levels_along t (Z.to_nat (L_levels t)) k Hvalid).
  destruct Hvalid as [HL _ _ _ _]. lia.
Qed.

(** C10.  Every operation returns either -1 or a number that is not
    negative, and it returns -1 for every failure and for nothing else.
    Create returns -1 exactly when no slot is free.  Acquire returns -1
    exactly for an invalid argument, an inactive slot, or a slot found
    inactive while waiting; release exactly for an invalid argument or an
    inactive slot; destroy exactly for an invalid handle or an inactive
    slot; otherwise they return 0.  [tournament_create] returns -1 for
    every invalid count and, on the kernel, for a valid count exactly when
    [malloc], a lock allocation or a fork fails.  [tournament_acquire] and
    [tournament_release] return -1 on globals that are not initialised
    and, in a valid tournament, exactly when a call of their traversal
    fails.  The library returns -1 exactly when it has written a
    diagnostic.  So the kinds of error of the design document all reach
    the caller as the same -1. *)
Theorem single_error_sentinel :
  (forall (p p' : ptable) r, peterson_create p = (r, p') -> r = -1 \/ 0 <= r)
  /\ (forall env h role (p p' : ptable) env' r,
        peterson_acquire env h role p = Some (r, p', env') ->
        r = -1 \/ r = 0)
  /\ (forall h role (p p' : ptable) r,
        peterson_release h role p = (r, p') -> r = -1 \/ r = 0)
  /\ (forall h (p : ptable), exists r p',
        peterson_destroy h p = Some (r, p') /\ (r = -1 \/ r = 0))
  /\ (forall (K : Type) (X : Xv6 K) n t (k k' : K) r d t',
        tournament_create n t k = (r, d, t', k') ->
        (r = -1 \/ 0 <= r) /\ (d <> [] <-> r = -1))
  /\ (forall (K : Type) (X : Xv6 K) t (k k' : K) r d,
        tournament_acquire t k = Some (r, d, k') ->
        (r = -1 \/ r = 0) /\ (d <> [] <-> r = -1))
  /\ (forall (K : Type) (X : Xv6 K) t (k k' : K) r d,
        tournament_release t k = (r, d, k') ->
        (r = -1 \/ r = 0) /\ (d <> [] <-> r = -1))
  /\ (forall e, int_of_outcome (Error e) = -1)
  /\ (forall env h role (p : ptable),
        peterson_acquire env h role p = reported (spec_acquire env h role p))
  /\ (forall h h' (p : ptable),
        ~ 0 <= h < NPETERSONLOCKS ->
        0 <= h' < NPETERSONLOCKS -> active (slot p h') = 0 ->
        peterson_destroy h p = Some (-1, p)
        /\ peterson_destroy h' p = Some (-1, p))
  /\ (forall (p p' : ptable) r,
        peterson_create p = (r, p') -> (r = -1 <-> no_free_slots p))
  /\ (forall env h role (p p' : ptable) env' r,
        peterson_acquire env h role p = Some (r, p', env') ->
        (r = -1 <->
         invalid_argument h role \/ lock_inactive p h \/ lock_inactive p' h))
  /\ (forall h role (p p' : ptable) r,
        peterson_release h role p = (r, p') ->
        (r = -1 <-> invalid_argument h role \/ lock_inactive p h))
  /\ (forall h (p p' : ptable) r,
        peterson_destroy h p = Some (r, p') ->
        (r = -1 <-> invalid_handle h \/ lock_inactive p h))
  /\ (forall (K : Type) (X : Xv6 K) n t (k : K),
        invalid_participant_count n ->
        exists d, tournament_create n t k = (-1, [d], t, k))
  /\ (forall n t (w : world),
        ptable_wf (table w) -> 1 <= n <= 16 -> is_power_of_two n ->
        ((tournament_create n t w).1.1.1 = -1 <->
         1 < n
         /\ (malloc_fails w = true
             \/ Z.of_nat (free_slots (table w)) < n - 1
             \/ spawn_fails (Z.to_nat (n - 1)) (forks w) = true)))
  /\ (forall (K : Type) (X : Xv6 K) t (k : K),
        not_initialised t ->
        exists d, tournament_acquire t k = Some (-1, [d], k))
  /\ (forall (K : Type) (X : Xv6 K) t (k : K),
        valid_tournament t ->
        acquire_agrees (tournament_acquire t k)
          (acquire_along t
             (spec_path (L_levels t) (my_id t)
                (levels_down (Z.to_nat (L_levels t)))) k))
  /\ (forall (K : Type) (X : Xv6 K) t (k : K),
        not_initialised t ->
        exists d, tournament_release t k = (-1, [d], k))
  /\ (forall (K : Type) (X : Xv6 K) t (k : K),
        valid_tournament t ->
        release_agrees (tournament_release t k)
          (release_along t
             (rev (spec_path (L_levels t) (my_id t)
                     (levels_down (Z.to_nat (L_levels t))))) k)).
Proof.
  destruct results_in_range
    as (H1 & H2 & H3 & H4 & H5 & H6 & H7 & H8 & H9 & H10).
  do 10 (split; [assumption|]).
  split; [apply peterson_create_fails|].
  split; [apply peterson_acquire_fails|].
  split; [apply peterson_release_fails|].
  split; [apply peterson_destroy_fails|].
  split; [intros K X; apply tournament_create_rejects|].
  split; [apply tournament_create_fails|].
  split; [intros K X; apply tournament_acquire_refuses|].
  split; [intros K X; apply tournament_acquire_along|].
  split; [intros K X; apply tournament_release_refuses|].
  intros K X. apply tree_release_traversal.
Qed.
